(** * The FlockCtrl driver of the Skybrush server

    A shallow embedding of [flockwave/server/ext/flockctrl/driver.py]:
    the vehicle class [FlockCtrlUAV] (address map, Geiger counter and
    camera feature updates) and the driver class [FlockCtrlDriver]
    (packet dispatch, vehicle lookup, address recording, command
    execution), followed by the properties proved about them.

    Python objects that are shared and mutated (the vehicles) live in an
    object store and are passed around by reference.  Methods are state
    transformers that return an [outcome]: a value, or a raised exception
    together with the state reached when it was raised. *)

From Stdlib Require Import ZArith String List.
From Stdlib.Floats Require Import SpecFloat.
From Stdlib.Strings Require Import Byte.
From stdpp Require Import base option list strings gmap numbers pretty.

Open Scope Z_scope.
Open Scope string_scope.
Open Scope list_scope.

(** ** Python values, exceptions and outcomes *)

(** A Python [int] is an unbounded integer.  A Python [float] is an
    IEEE 754 binary64 number: a [spec_float] of the Standard Library at
    precision 53 and maximal exponent 1024, rounded to nearest, ties to
    even.  The address of a vehicle on a communication medium is an
    opaque, hashable value handed over by the transport as the second
    half of the source [(medium, address)] of a packet; it is never
    [None], and a [string] stands for it, as for the medium. *)
Abbreviation float := spec_float.

Definition prec : Z := 53.
Definition emax : Z := 1024.

#[global] Instance float_eq_dec : EqDecision float.
Proof. solve_decision. Defined.

(** The values stored under the keys of a channel record. *)
Inductive pyvalue :=
| VNone
| VInt (z : Z)
| VFloat (x : float).

#[global] Instance pyvalue_eq_dec : EqDecision pyvalue.
Proof. solve_decision. Defined.

Inductive exn :=
| ValueError (msg : string)
| KeyError
| TypeError
| IndexError
| AttributeError
| AddressConflictError (uav medium : string) (addr : string)
| CommandAlreadyInProgress (key : string)
| FutureCancelled
| OverflowError
| ZeroDivisionError
| InvalidReference (* a reference outside the object store; Python cannot form one *).

#[global] Instance exn_eq_dec : EqDecision exn.
Proof. solve_decision. Defined.

Inductive outcome (A : Type) :=
| Return (a : A)
| Raise (e : exn).

Arguments Return {A} a.
Arguments Raise {A} e.

#[global] Instance outcome_eq_dec `{EqDecision A} : EqDecision (outcome A).
Proof. solve_decision. Defined.

(** A method over a state [S]: the state reached is kept when the method
    raises, as the mutations made before a Python exception are. *)
Definition M (S A : Type) : Type := S → outcome A * S.

Definition ret {S A} (a : A) : M S A := λ s, (Return a, s).
Definition raise {S A} (e : exn) : M S A := λ s, (Raise e, s).
Definition bind {S A B} (m : M S A) (k : A → M S B) : M S B :=
  λ s, match m s with
       | (Return a, s') => k a s'
       | (Raise e, s') => (Raise e, s')
       end.
Definition gets {S A} (f : S → A) : M S A := λ s, (Return (f s), s).
Definition modify {S} (f : S → S) : M S unit := λ s, (Return tt, f s).

(** [try: m except: h]: the handler sees the exception and the state
    reached when it was raised. *)
Definition try_except {S A} (m : M S A) (h : exn → option (M S A)) : M S A :=
  λ s, match m s with
       | (Return a, s') => (Return a, s')
       | (Raise e, s') =>
           match h e with
           | Some k => k s'
           | None => (Raise e, s')
           end
       end.

#[global] Instance M_ret {S} : MRet (M S) := λ A, ret.
#[global] Instance M_bind {S} : MBind (M S) := λ A B k m, bind m k.

(** ** Arithmetic on [int] and [float] *)

(** An [int] as the operand of an operation that rounds once: the
    number itself, with a significand of any length. *)
Definition exact_int (a : Z) : float :=
  match a with
  | Z0 => S754_zero false
  | Zpos m => S754_finite false m 0
  | Zneg m => S754_finite true m 0
  end.

(** The [float] nearest to the integer [a]; an infinity when [a] is
    beyond the largest [float]. *)
Definition float_of_Z (a : Z) : float := binary_normalize prec emax a 0 false.

(** [float(a)], as Python converts an [int] that meets a [float]:
    [OverflowError] when [a] is too large. *)
Definition float_of_int (a : Z) : outcome float :=
  match float_of_Z a with
  | S754_infinity _ => Raise OverflowError
  | x => Return x
  end.

(** [a / b] on two [int]s: the quotient of the integers, rounded once;
    [ZeroDivisionError] on a zero divisor, [OverflowError] when the
    quotient is too large for a [float]. *)
Definition int_truediv (a b : Z) : outcome float :=
  if decide (b = 0) then Raise ZeroDivisionError
  else match SFdiv prec emax (exact_int a) (exact_int b) with
       | S754_infinity _ => Raise OverflowError
       | x => Return x
       end.

(** [x / y] on two [float]s. *)
Definition float_truediv (x y : float) : outcome float :=
  if SFeqb y (S754_zero false) then Raise ZeroDivisionError
  else Return (SFdiv prec emax x y).

(** [a / y] on an [int] and a [float]: the [int] is converted first. *)
Definition int_truediv_float (a : Z) (y : float) : outcome float :=
  match float_of_int a with
  | Return x => float_truediv x y
  | Raise e => Raise e
  end.

(** [x > 0] on a [float]. *)
Definition float_gt_zero (x : float) : bool := SFltb (S754_zero false) x.

(** ** Positions, channels and the device tree mutator *)

Record GPSCoordinate := {
  lat : float;
  lon : float;
  amsl : option float;
  agl : option float;
}.

#[global] Instance GPSCoordinate_eq_dec : EqDecision GPSCoordinate.
Proof. solve_decision. Defined.

Definition MAX_GEIGER_TUBE_COUNT : nat := 2.
Definition MAX_CAMERA_FEATURE_COUNT : nat := 32.

(** The channels that [_initialize_device_tree_node] adds to the node of
    a vehicle: [dose_rate], [raw_count_i] and [rate_i] of the device
    [geiger_counter], [feature_i] of the device [camera]. *)
Inductive channel_name :=
| dose_rate
| raw_count (i : nat)
| rate (i : nat)
| feature (i : nat).

#[global] Instance channel_name_eq_dec : EqDecision channel_name.
Proof. solve_decision. Defined.

(** A channel object: the vehicle whose node owns it, and its name. *)
Record Channel := {
  owner : string;
  name : channel_name;
}.

#[global] Instance Channel_eq_dec : EqDecision Channel.
Proof. solve_decision. Defined.

(** Modelled from the spec: the device tree mutator, which is not part of
    the driver; "a scoped mutator exposing update(channel, valueRecord)".
    It is the sequence of the [update] calls made on it, oldest first. *)
Definition DeviceTreeMutator : Type := list (Channel * gmap string pyvalue).

Definition mutator_update (mutator : DeviceTreeMutator) (ch : Channel)
    (record : gmap string pyvalue) : DeviceTreeMutator :=
  mutator ++ [(ch, record)].

(** ** The vehicle class [FlockCtrlUAV] *)

(** Modelled from the spec: the status record of [UAVBase], which is not
    part of the driver; "position, velocity, heading, active algorithm
    name, mapped error code". *)
Record UAVStatusInfo := {
  position : option GPSCoordinate;
  velocity : option (list float);
  heading : option float;
  algorithm : option string;
  error : option Z;
}.

Record FlockCtrlUAV := {
  id : string;
  addresses : gmap string string;
  _status : UAVStatusInfo;
  _last_geiger_counter_packet : option (Z * list Z);
}.

Definition set_addresses (self : FlockCtrlUAV) (a : gmap string string)
    : FlockCtrlUAV :=
  {| id := id self; addresses := a; _status := _status self;
     _last_geiger_counter_packet := _last_geiger_counter_packet self |}.

Definition set_status (self : FlockCtrlUAV) (st : UAVStatusInfo) : FlockCtrlUAV :=
  {| id := id self; addresses := addresses self; _status := st;
     _last_geiger_counter_packet := _last_geiger_counter_packet self |}.

Definition set_last_geiger_counter_packet (self : FlockCtrlUAV)
    (p : option (Z * list Z)) : FlockCtrlUAV :=
  {| id := id self; addresses := addresses self; _status := _status self;
     _last_geiger_counter_packet := p |}.

(** [FlockCtrlUAV(formatted_id, driver=self)] followed by
    [_initialize_device_tree_node]. *)
Definition new_FlockCtrlUAV (formatted_id : string) : FlockCtrlUAV :=
  {| id := formatted_id;
     addresses := ∅;
     _status := {| position := None; velocity := None; heading := None;
                   algorithm := None; error := None |};
     _last_geiger_counter_packet := None |}.

Definition geiger_counter_dose_rate (self : FlockCtrlUAV) : Channel :=
  {| owner := id self; name := dose_rate |}.
Definition geiger_counter_raw_counts (self : FlockCtrlUAV) : list Channel :=
  (λ i, {| owner := id self; name := raw_count i |}) <$> seq 0 MAX_GEIGER_TUBE_COUNT.
Definition geiger_counter_rates (self : FlockCtrlUAV) : list Channel :=
  (λ i, {| owner := id self; name := rate i |}) <$> seq 0 MAX_GEIGER_TUBE_COUNT.
Definition camera_features (self : FlockCtrlUAV) : list Channel :=
  (λ i, {| owner := id self; name := feature i |}) <$> seq 0 MAX_CAMERA_FEATURE_COUNT.

(** [FlockCtrlUAV.check_or_record_address] *)
Definition check_or_record_address (medium : string) (addr : string)
    : M FlockCtrlUAV unit :=
  λ self,
    match addresses self !! medium with
    | None => (Return tt, set_addresses self (<[medium := addr]> (addresses self)))
    | Some current_address =>
        if decide (current_address ≠ addr)
        then (Raise (AddressConflictError (id self) medium addr), self)
        else (Return tt, self)
    end.

(** The loop of [FlockCtrlUAV.preferred_address] over the supported
    media, in their order of preference. *)
Fixpoint first_known_address (media : list string) (self : FlockCtrlUAV)
    : option (string * string) :=
  match media with
  | [] => None
  | medium :: rest =>
      match addresses self !! medium with
      | Some addr => Some (medium, addr)
      | None => first_known_address rest self
      end
  end.

Definition supported_media : list string := ["wireless"].

(** [FlockCtrlUAV.preferred_address] *)
Definition preferred_address : M FlockCtrlUAV (string * string) :=
  λ self,
    match first_known_address supported_media self with
    | Some a => (Return a, self)
    | None =>
        (Raise (ValueError
           "UAV has no address yet in any of the supported communication media"),
         self)
    end.

(** [pos_data]: the record with the keys [lat] and [lon], and [amsl] and
    [agl] when the position has them. *)
Definition pos_data_of (p : GPSCoordinate) : gmap string pyvalue :=
  let pos_data := <["lon" := VFloat (lon p)]> (<["lat" := VFloat (lat p)]> ∅) in
  let pos_data :=
    match amsl p with
    | Some a => <["amsl" := VFloat a]> pos_data
    | None => pos_data
    end in
  match agl p with
  | Some a => <["agl" := VFloat a]> pos_data
  | None => pos_data
  end.

(** [dict(pos_data, value=v)] *)
Definition with_value (pos_data : gmap string pyvalue) (v : pyvalue)
    : gmap string pyvalue :=
  <["value" := v]> pos_data.

(** The loop of [update_detected_features]; [camera_features[i]] raises
    [IndexError] past the last feature channel. *)
Fixpoint update_detected_features_loop (self : FlockCtrlUAV) (itow : Z) (i : nat)
    (features : list GPSCoordinate) (mutator : DeviceTreeMutator)
    : outcome unit * DeviceTreeMutator :=
  match features with
  | [] => (Return tt, mutator)
  | pos :: rest =>
      let pos_data := pos_data_of pos in
      match camera_features self !! i with
      | None => (Raise IndexError, mutator)
      | Some ch =>
          update_detected_features_loop self itow (S i) rest
            (mutator_update mutator ch (with_value pos_data (VInt itow)))
      end
  end.

(** [FlockCtrlUAV.update_detected_features] *)
Definition update_detected_features (self : FlockCtrlUAV) (itow : Z)
    (features : list GPSCoordinate) (mutator : DeviceTreeMutator)
    : outcome unit * DeviceTreeMutator :=
  match position (_status self) with
  | None => (Return tt, mutator)
  | Some _ => update_detected_features_loop self itow 0 features mutator
  end.

(** [for device, value in zip(devices, values): mutator.update(...)] *)
Definition update_channels (pos_data : gmap string pyvalue)
    (devices : list Channel) (values : list pyvalue)
    (mutator : DeviceTreeMutator) : DeviceTreeMutator :=
  foldl (λ m dv, mutator_update m dv.1 (with_value pos_data dv.2))
        mutator (zip devices values).

(** The same loop over optional values, where [None] is skipped. *)
Definition update_channels_if_some (pos_data : gmap string pyvalue)
    (devices : list Channel) (values : list (option pyvalue))
    (mutator : DeviceTreeMutator) : DeviceTreeMutator :=
  foldl (λ m dv,
           match dv.2 with
           | Some value => mutator_update m dv.1 (with_value pos_data value)
           | None => m
           end)
        mutator (zip devices values).

(** [dt = (itow - last_itow) / 1000], a true division of two [int]s. *)
Definition elapsed_seconds (itow last_itow : Z) : outcome float :=
  int_truediv (itow - last_itow) 1000.

(** [(value - last_value) / dt if value > last_value else None] *)
Definition geiger_rate (dt : float) (value last_value : Z)
    : outcome (option pyvalue) :=
  if bool_decide (value > last_value)
  then match int_truediv_float (value - last_value) dt with
       | Return x => Return (Some (VFloat x))
       | Raise e => Raise e
       end
  else Return None.

(** The rates of the tubes: the list comprehension over
    [zip(raw_counts, last_raw_counts)], which ends at the first division
    that raises. *)
Fixpoint geiger_rates (dt : float) (pairs : list (Z * Z))
    : outcome (list (option pyvalue)) :=
  match pairs with
  | [] => Return []
  | (value, last_value) :: rest =>
      match geiger_rate dt value last_value with
      | Raise e => Raise e
      | Return v =>
          match geiger_rates dt rest with
          | Raise e => Raise e
          | Return vs => Return (v :: vs)
          end
      end
  end.

Definition option_float (v : option float) : pyvalue :=
  match v with
  | Some x => VFloat x
  | None => VNone
  end.

(** [FlockCtrlUAV.update_geiger_counter].  The argument [pos] is
    rebound to the stored position in the first statement.  [raw_counts]
    is [None] when the counter is disabled, and [zip] then raises
    [TypeError].  A division that raises leaves the method before the
    retained sample is replaced. *)
Definition update_geiger_counter (self : FlockCtrlUAV) (pos : option GPSCoordinate)
    (itow : Z) (dose : option float) (raw_counts : option (list Z))
    (mutator : DeviceTreeMutator)
    : outcome unit * FlockCtrlUAV * DeviceTreeMutator :=
  match position (_status self) with
  | None => (Return tt, self, mutator)
  | Some pos =>
      let pos_data := pos_data_of pos in
      let mutator :=
        mutator_update mutator (geiger_counter_dose_rate self)
          (with_value pos_data (option_float dose)) in
      match raw_counts with
      | None => (Raise TypeError, self, mutator)
      | Some raw_counts =>
          let mutator :=
            update_channels pos_data (geiger_counter_raw_counts self)
              (VInt <$> raw_counts) mutator in
          let retained :=
            set_last_geiger_counter_packet self (Some (itow, raw_counts)) in
          match _last_geiger_counter_packet self with
          | None => (Return tt, retained, mutator)
          | Some (last_itow, last_raw_counts) =>
              match elapsed_seconds itow last_itow with
              | Raise e => (Raise e, self, mutator)
              | Return dt =>
                  if float_gt_zero dt
                  then match geiger_rates dt (zip raw_counts last_raw_counts) with
                       | Raise e => (Raise e, self, mutator)
                       | Return values =>
                           (Return tt, retained,
                            update_channels_if_some pos_data
                              (geiger_counter_rates self) values mutator)
                       end
                  else (Return tt, retained, mutator)
              end
          end
      end
  end.

(** What [update_geiger_counter] computes for the rate channels when the
    raw counts are given: nothing without a retained sample or without
    elapsed time, else the rates of the tubes. *)
Definition geiger_rate_values (self : FlockCtrlUAV) (itow : Z)
    (raw_counts : list Z) : outcome (list (option pyvalue)) :=
  match _last_geiger_counter_packet self with
  | None => Return []
  | Some (last_itow, last_raw_counts) =>
      match elapsed_seconds itow last_itow with
      | Raise e => Raise e
      | Return dt =>
          if float_gt_zero dt
          then geiger_rates dt (zip raw_counts last_raw_counts)
          else Return []
      end
  end.

(** What [update_geiger_counter] does when the position is known and the
    raw counts are given: the calls of [mutator.update] that it adds. *)
Definition geiger_writes (self : FlockCtrlUAV) (p : GPSCoordinate) (itow : Z)
    (dose : option float) (raw_counts : list Z) : DeviceTreeMutator :=
  [(geiger_counter_dose_rate self, with_value (pos_data_of p) (option_float dose))]
  ++ ((λ dv, (dv.1, with_value (pos_data_of p) dv.2))
        <$> zip (geiger_counter_raw_counts self) (VInt <$> raw_counts))
  ++ match geiger_rate_values self itow raw_counts with
     | Return values =>
         omap (λ dv, (λ value, (dv.1, with_value (pos_data_of p) value)) <$> dv.2)
           (zip (geiger_counter_rates self) values)
     | Raise _ => []
     end.

(** ** Packets *)

(** Modelled from the spec: the algorithms of the protocol, which are
    not part of the driver; an algorithm "invokes a data-specific update
    using the vehicle's last known position as a spatial tag and the
    injected mutator".  The data of a packet is given as decoded by its
    algorithm. *)
Inductive algorithm_data :=
| GeigerCounterData (pos : option GPSCoordinate) (itow : Z)
    (dose : option float) (raw_counts : option (list Z))
| CameraFeatureData (itow : Z) (features : list GPSCoordinate)
| NoSensorData.

(** The packet classes that the driver imports, with the attributes that
    it reads; [OtherPacket] stands for every other class.  The
    [algorithm] of an algorithm data packet is [None] when looking it up
    raises [KeyError].  The driver reads nothing of a response packet;
    following the spec ("when the packet signals completion"), it
    carries a chunk of a response body and tells whether it completes
    the body. *)
Inductive packet :=
| FlockCtrlStatusPacket (id : Z) (location : option GPSCoordinate)
    (velocity : option (list float)) (heading : option float)
    (algorithm_name : option string) (error : Z)
| FlockCtrlPrearmStatusPacket
| FlockCtrlCompressedCommandResponsePacket (chunk : list byte) (final : bool)
| FlockCtrlCommandResponsePacket (chunk : list byte) (final : bool)
| FlockCtrlAlgorithmDataPacket (uav_id : Z) (algorithm : option algorithm_data)
| FlockCtrlMissionInfoPacket
| FlockCtrlCommandRequestPacket (body : list byte)
| OtherPacket (class_name : string).

(** [packet.__class__.__name__] *)
Definition class_name_of (p : packet) : string :=
  match p with
  | FlockCtrlStatusPacket _ _ _ _ _ _ => "FlockCtrlStatusPacket"
  | FlockCtrlPrearmStatusPacket => "FlockCtrlPrearmStatusPacket"
  | FlockCtrlCompressedCommandResponsePacket _ _ =>
      "FlockCtrlCompressedCommandResponsePacket"
  | FlockCtrlCommandResponsePacket _ _ => "FlockCtrlCommandResponsePacket"
  | FlockCtrlAlgorithmDataPacket _ _ => "FlockCtrlAlgorithmDataPacket"
  | FlockCtrlMissionInfoPacket => "FlockCtrlMissionInfoPacket"
  | FlockCtrlCommandRequestPacket _ => "FlockCtrlCommandRequestPacket"
  | OtherPacket class_name => class_name
  end.

(** The classes of packets, as the keys of the dispatch table. *)
Inductive packet_class :=
| StatusPacketClass
| PrearmStatusPacketClass
| CompressedCommandResponsePacketClass
| CommandResponsePacketClass
| AlgorithmDataPacketClass
| MissionInfoPacketClass
| CommandRequestPacketClass
| OtherPacketClass (class_name : string).

#[global] Instance packet_class_eq_dec : EqDecision packet_class.
Proof. solve_decision. Defined.

(** [packet.__class__] *)
Definition class_of (p : packet) : packet_class :=
  match p with
  | FlockCtrlStatusPacket _ _ _ _ _ _ => StatusPacketClass
  | FlockCtrlPrearmStatusPacket => PrearmStatusPacketClass
  | FlockCtrlCompressedCommandResponsePacket _ _ =>
      CompressedCommandResponsePacketClass
  | FlockCtrlCommandResponsePacket _ _ => CommandResponsePacketClass
  | FlockCtrlAlgorithmDataPacket _ _ => AlgorithmDataPacketClass
  | FlockCtrlMissionInfoPacket => MissionInfoPacketClass
  | FlockCtrlCommandRequestPacket _ => CommandRequestPacketClass
  | OtherPacket class_name => OtherPacketClass class_name
  end.

(** The classes that [_configure_packet_handlers] gives a handler. *)
Definition known_packet_classes : list packet_class :=
  [StatusPacketClass; PrearmStatusPacketClass;
   CompressedCommandResponsePacketClass; CommandResponsePacketClass;
   AlgorithmDataPacketClass; MissionInfoPacketClass].

(** ** The state of the driver and of its collaborators *)

(** Modelled from the spec: the futures of [flockwave.server.concurrency],
    which is not part of the driver; a pending command has an "awaited
    result slot (fulfilled with decoded response text, or marked
    cancelled)". *)
Inductive future_state :=
| FuturePending
| FutureDone (result : string)
| FutureWasCancelled.

#[global] Instance future_state_eq_dec : EqDecision future_state.
Proof. solve_decision. Defined.

(** Modelled from the spec: the chunk reassembler, which is not part of
    the driver; it keeps one buffer of "partial accumulation of a
    multi-part payload" per source. *)
Definition ChunkedPacketAssembler : Type := gmap (string * string) (list byte).

(** The warnings that the driver logs:
    - "No packet handler defined for packet class: ..."
    - "Reassembled chunked packet received from address ... via ... with
      no corresponding UAV"
    - "Dropped stale command response from UAV ..." *)
Inductive log_record :=
| warn_no_packet_handler (class_name : string)
| warn_no_corresponding_uav (src : string * string)
| warn_stale_command_response (uav_id : string).

#[global] Instance log_record_eq_dec : EqDecision log_record.
Proof. solve_decision. Defined.

(** The attributes of the driver, followed by the state of what it works
    on: the vehicle registry of the application, the stores of the
    vehicle and future objects (a reference is an index into its store),
    the warnings logged, the calls of [send_packet], the calls of
    [request_to_send_UAV_INF_message_for] and the device tree mutator. *)
Record FlockCtrlDriver := {
  _pending_commands_by_uav : gmap string nat;
  _packet_assembler : ChunkedPacketAssembler;
  _index_to_uav_id : gmap Z string;
  _uavs_by_source_address : gmap (string * string) nat;
  allow_multiple_commands_per_uav : bool;
  id_format : string;
  uav_registry : gmap string nat;
  uavs : list FlockCtrlUAV;
  futures : list future_state;
  log : list log_record;
  sent : list (packet * (string * string));
  uav_inf_requests : list (list string);
  device_tree : DeviceTreeMutator;
}.

Definition set_pending_commands_by_uav (d : FlockCtrlDriver)
    (v : gmap string nat) : FlockCtrlDriver :=
  {| _pending_commands_by_uav := v; _packet_assembler := _packet_assembler d;
     _index_to_uav_id := _index_to_uav_id d;
     _uavs_by_source_address := _uavs_by_source_address d;
     allow_multiple_commands_per_uav := allow_multiple_commands_per_uav d;
     id_format := id_format d; uav_registry := uav_registry d; uavs := uavs d;
     futures := futures d; log := log d; sent := sent d;
     uav_inf_requests := uav_inf_requests d; device_tree := device_tree d |}.

Definition set_packet_assembler (d : FlockCtrlDriver)
    (v : ChunkedPacketAssembler) : FlockCtrlDriver :=
  {| _pending_commands_by_uav := _pending_commands_by_uav d; _packet_assembler := v;
     _index_to_uav_id := _index_to_uav_id d;
     _uavs_by_source_address := _uavs_by_source_address d;
     allow_multiple_commands_per_uav := allow_multiple_commands_per_uav d;
     id_format := id_format d; uav_registry := uav_registry d; uavs := uavs d;
     futures := futures d; log := log d; sent := sent d;
     uav_inf_requests := uav_inf_requests d; device_tree := device_tree d |}.

Definition set_index_to_uav_id (d : FlockCtrlDriver)
    (v : gmap Z string) : FlockCtrlDriver :=
  {| _pending_commands_by_uav := _pending_commands_by_uav d;
     _packet_assembler := _packet_assembler d; _index_to_uav_id := v;
     _uavs_by_source_address := _uavs_by_source_address d;
     allow_multiple_commands_per_uav := allow_multiple_commands_per_uav d;
     id_format := id_format d; uav_registry := uav_registry d; uavs := uavs d;
     futures := futures d; log := log d; sent := sent d;
     uav_inf_requests := uav_inf_requests d; device_tree := device_tree d |}.

Definition set_uavs_by_source_address (d : FlockCtrlDriver)
    (v : gmap (string * string) nat) : FlockCtrlDriver :=
  {| _pending_commands_by_uav := _pending_commands_by_uav d;
     _packet_assembler := _packet_assembler d; _index_to_uav_id := _index_to_uav_id d;
     _uavs_by_source_address := v;
     allow_multiple_commands_per_uav := allow_multiple_commands_per_uav d;
     id_format := id_format d; uav_registry := uav_registry d; uavs := uavs d;
     futures := futures d; log := log d; sent := sent d;
     uav_inf_requests := uav_inf_requests d; device_tree := device_tree d |}.

Definition set_allow_multiple_commands_per_uav (d : FlockCtrlDriver)
    (v : bool) : FlockCtrlDriver :=
  {| _pending_commands_by_uav := _pending_commands_by_uav d;
     _packet_assembler := _packet_assembler d; _index_to_uav_id := _index_to_uav_id d;
     _uavs_by_source_address := _uavs_by_source_address d;
     allow_multiple_commands_per_uav := v; id_format := id_format d;
     uav_registry := uav_registry d; uavs := uavs d; futures := futures d;
     log := log d; sent := sent d; uav_inf_requests := uav_inf_requests d;
     device_tree := device_tree d |}.

Definition set_id_format (d : FlockCtrlDriver)
    (v : string) : FlockCtrlDriver :=
  {| _pending_commands_by_uav := _pending_commands_by_uav d;
     _packet_assembler := _packet_assembler d; _index_to_uav_id := _index_to_uav_id d;
     _uavs_by_source_address := _uavs_by_source_address d;
     allow_multiple_commands_per_uav := allow_multiple_commands_per_uav d;
     id_format := v; uav_registry := uav_registry d; uavs := uavs d;
     futures := futures d; log := log d; sent := sent d;
     uav_inf_requests := uav_inf_requests d; device_tree := device_tree d |}.

Definition set_uav_registry (d : FlockCtrlDriver)
    (v : gmap string nat) : FlockCtrlDriver :=
  {| _pending_commands_by_uav := _pending_commands_by_uav d;
     _packet_assembler := _packet_assembler d; _index_to_uav_id := _index_to_uav_id d;
     _uavs_by_source_address := _uavs_by_source_address d;
     allow_multiple_commands_per_uav := allow_multiple_commands_per_uav d;
     id_format := id_format d; uav_registry := v; uavs := uavs d; futures := futures d;
     log := log d; sent := sent d; uav_inf_requests := uav_inf_requests d;
     device_tree := device_tree d |}.

Definition set_uavs (d : FlockCtrlDriver)
    (v : list FlockCtrlUAV) : FlockCtrlDriver :=
  {| _pending_commands_by_uav := _pending_commands_by_uav d;
     _packet_assembler := _packet_assembler d; _index_to_uav_id := _index_to_uav_id d;
     _uavs_by_source_address := _uavs_by_source_address d;
     allow_multiple_commands_per_uav := allow_multiple_commands_per_uav d;
     id_format := id_format d; uav_registry := uav_registry d; uavs := v;
     futures := futures d; log := log d; sent := sent d;
     uav_inf_requests := uav_inf_requests d; device_tree := device_tree d |}.

Definition set_futures (d : FlockCtrlDriver)
    (v : list future_state) : FlockCtrlDriver :=
  {| _pending_commands_by_uav := _pending_commands_by_uav d;
     _packet_assembler := _packet_assembler d; _index_to_uav_id := _index_to_uav_id d;
     _uavs_by_source_address := _uavs_by_source_address d;
     allow_multiple_commands_per_uav := allow_multiple_commands_per_uav d;
     id_format := id_format d; uav_registry := uav_registry d; uavs := uavs d;
     futures := v; log := log d; sent := sent d;
     uav_inf_requests := uav_inf_requests d; device_tree := device_tree d |}.

Definition set_log (d : FlockCtrlDriver)
    (v : list log_record) : FlockCtrlDriver :=
  {| _pending_commands_by_uav := _pending_commands_by_uav d;
     _packet_assembler := _packet_assembler d; _index_to_uav_id := _index_to_uav_id d;
     _uavs_by_source_address := _uavs_by_source_address d;
     allow_multiple_commands_per_uav := allow_multiple_commands_per_uav d;
     id_format := id_format d; uav_registry := uav_registry d; uavs := uavs d;
     futures := futures d; log := v; sent := sent d;
     uav_inf_requests := uav_inf_requests d; device_tree := device_tree d |}.

Definition set_sent (d : FlockCtrlDriver)
    (v : list (packet * (string * string))) : FlockCtrlDriver :=
  {| _pending_commands_by_uav := _pending_commands_by_uav d;
     _packet_assembler := _packet_assembler d; _index_to_uav_id := _index_to_uav_id d;
     _uavs_by_source_address := _uavs_by_source_address d;
     allow_multiple_commands_per_uav := allow_multiple_commands_per_uav d;
     id_format := id_format d; uav_registry := uav_registry d; uavs := uavs d;
     futures := futures d; log := log d; sent := v;
     uav_inf_requests := uav_inf_requests d; device_tree := device_tree d |}.

Definition set_uav_inf_requests (d : FlockCtrlDriver)
    (v : list (list string)) : FlockCtrlDriver :=
  {| _pending_commands_by_uav := _pending_commands_by_uav d;
     _packet_assembler := _packet_assembler d; _index_to_uav_id := _index_to_uav_id d;
     _uavs_by_source_address := _uavs_by_source_address d;
     allow_multiple_commands_per_uav := allow_multiple_commands_per_uav d;
     id_format := id_format d; uav_registry := uav_registry d; uavs := uavs d;
     futures := futures d; log := log d; sent := sent d; uav_inf_requests := v;
     device_tree := device_tree d |}.

Definition set_device_tree (d : FlockCtrlDriver)
    (v : DeviceTreeMutator) : FlockCtrlDriver :=
  {| _pending_commands_by_uav := _pending_commands_by_uav d;
     _packet_assembler := _packet_assembler d; _index_to_uav_id := _index_to_uav_id d;
     _uavs_by_source_address := _uavs_by_source_address d;
     allow_multiple_commands_per_uav := allow_multiple_commands_per_uav d;
     id_format := id_format d; uav_registry := uav_registry d; uavs := uavs d;
     futures := futures d; log := log d; sent := sent d;
     uav_inf_requests := uav_inf_requests d; device_tree := v |}.

(** [FlockCtrlDriver.__init__] *)
Definition new_FlockCtrlDriver (fmt : string) : FlockCtrlDriver :=
  {| _pending_commands_by_uav := ∅;
     _packet_assembler := ∅;
     _index_to_uav_id := ∅;
     _uavs_by_source_address := ∅;
     allow_multiple_commands_per_uav := true;
     id_format := fmt;
     uav_registry := ∅;
     uavs := [];
     futures := [];
     log := [];
     sent := [];
     uav_inf_requests := [];
     device_tree := [] |}.

(** Reading a vehicle object. *)
Definition get_uav (uav : nat) : M FlockCtrlDriver FlockCtrlUAV :=
  λ d, match uavs d !! uav with
       | Some u => (Return u, d)
       | None => (Raise InvalidReference, d)
       end.

(** Calling a method of a vehicle object. *)
Definition on_uav {A} (uav : nat) (m : M FlockCtrlUAV A) : M FlockCtrlDriver A :=
  λ d, match uavs d !! uav with
       | Some u => let '(o, u') := m u in (o, set_uavs d (<[uav := u']> (uavs d)))
       | None => (Raise InvalidReference, d)
       end.

Definition warn (r : log_record) : M FlockCtrlDriver unit :=
  modify (λ d, set_log d (log d ++ [r])).

(** ** Collaborators of the driver *)

(** The functions of other modules that the driver calls:
    [self.id_format.format(id)], [make_valid_uav_id] of
    [flockwave.spec.ids], [map_flockctrl_error_code(...).value],
    [str.encode("utf-8")], [bytes.decode("utf-8", errors="replace")] and
    the decompression of a compressed response body. *)
Class Externals := {
  format : string → Z → string;
  make_valid_uav_id : string → string;
  map_flockctrl_error_code : Z → Z;
  utf8_encode : string → list byte;
  utf8_decode_replace : list byte → string;
  decompress : list byte → list byte;
}.

(** Modelled from the spec: the vehicle registry of the application,
    which is not part of the driver; "exists(id) → bool, create(id) →
    Vehicle, find(id) → Vehicle".  It maps the identifier of a vehicle to
    the vehicle object. *)
Definition uav_registry_contains (key : string) : M FlockCtrlDriver bool :=
  gets (λ d, bool_decide (is_Some (uav_registry d !! key))).

(** Modelled from the spec: [add] of the vehicle registry files the
    vehicle under its identifier. *)
Definition uav_registry_add (uav : nat) : M FlockCtrlDriver unit :=
  u ← get_uav uav;
  modify (λ d, set_uav_registry d (<[id u := uav]> (uav_registry d))).

(** Modelled from the spec: [find_by_id] of the vehicle registry. *)
Definition uav_registry_find_by_id (key : string) : M FlockCtrlDriver nat :=
  λ d, match uav_registry d !! key with
       | Some uav => (Return uav, d)
       | None => (Raise KeyError, d)
       end.

(** Modelled from the spec: [update_status] of [UAVBase], which is not
    part of the driver; it "updates vehicle kinematic state (position,
    velocity, heading, active algorithm name, mapped error code)".  The
    spec does not say what an argument that is [None] does; here it
    leaves the stored value. *)
Definition update_status (pos : option GPSCoordinate) (vel : option (list float))
    (hdg : option float) (alg : option string) (err : option Z)
    : M FlockCtrlUAV unit :=
  modify (λ self,
    set_status self
      {| position := from_option Some (position (_status self)) pos;
         velocity := from_option Some (velocity (_status self)) vel;
         heading := from_option Some (heading (_status self)) hdg;
         algorithm := from_option Some (algorithm (_status self)) alg;
         error := from_option Some (error (_status self)) err |}).

(** Modelled from the spec: [request_to_send_UAV_INF_message_for] of the
    application, which is not part of the driver; it "signals the
    surrounding system that an outward status notification for this
    vehicle id is due".  The calls are recorded. *)
Definition request_to_send_UAV_INF_message_for (ids : list string)
    : M FlockCtrlDriver unit :=
  modify (λ d, set_uav_inf_requests d (uav_inf_requests d ++ [ids])).

(** Modelled from the spec: the injected [send_packet], "a function
    accepting (encoded packet, (medium, address))".  The calls are
    recorded. *)
Definition send_packet (p : packet) (addr : string * string)
    : M FlockCtrlDriver unit :=
  modify (λ d, set_sent d (sent d ++ [(p, addr)])).

(** Modelled from the spec: [FutureMap.__getitem__] of
    [flockwave.server.concurrency], which is not part of the driver
    (section 4.4, "Command Future Map").  The map itself is the
    attribute [_pending_commands_by_uav]; a key without a pending
    command raises [KeyError], as in every mapping. *)
Definition FutureMap_getitem (key : string) : M FlockCtrlDriver nat :=
  λ d, match _pending_commands_by_uav d !! key with
       | Some future => (Return future, d)
       | None => (Raise KeyError, d)
       end.

(** Modelled from the spec: a pending future is "fulfilled with decoded
    response text"; the spec does not say what happens to a future that
    is not pending, and here it stays as it is. *)
Definition resolved_with (text : string) (s : future_state) : future_state :=
  match s with
  | FuturePending => FutureDone text
  | _ => s
  end.

(** Modelled from the spec: a pending future is "marked cancelled". *)
Definition cancelled (s : future_state) : future_state :=
  match s with
  | FuturePending => FutureWasCancelled
  | _ => s
  end.

(** Modelled from the spec: [Future.set_result]. *)
Definition Future_set_result (future : nat) (text : string)
    : M FlockCtrlDriver unit :=
  modify (λ d, set_futures d (alter (resolved_with text) future (futures d))).

(** Modelled from the spec: [Future.cancel]. *)
Definition Future_cancel (future : nat) : M FlockCtrlDriver unit :=
  modify (λ d, set_futures d (alter cancelled future (futures d))).

(** Modelled from the spec: [Future.wait], which "suspends until
    fulfilled or cancelled": the result, the exception [FutureCancelled],
    or [None] while the caller stays suspended. *)
Definition Future_wait (future : nat) : M FlockCtrlDriver (option string) :=
  λ d, match futures d !! future with
       | Some FuturePending => (Return None, d)
       | Some (FutureDone text) => (Return (Some text), d)
       | Some FutureWasCancelled => (Raise FutureCancelled, d)
       | None => (Raise InvalidReference, d)
       end.

(** Modelled from the spec: entering the scope of
    [FutureMap.new(key, strict)]: "if a pending
    command exists and strict is true: fails with
    CommandAlreadyInProgress"; if strict is false "the existing pending
    command is cancelled ... and a new slot replaces it". *)
Definition FutureMap_new_enter (key : string) (strict : bool)
    : M FlockCtrlDriver nat :=
  old ← gets (λ d, _pending_commands_by_uav d !! key);
  match old with
  | Some old_future =>
      if strict then raise (CommandAlreadyInProgress key)
      else Future_cancel old_future
  | None => mret tt
  end;;
  future ← gets (λ d, length (futures d));
  modify (λ d, set_futures d (futures d ++ [FuturePending]));;
  modify (λ d, set_pending_commands_by_uav d
                 (<[key := future]> (_pending_commands_by_uav d)));;
  mret future.

(** Modelled from the spec: leaving that scope: "the slot ... is removed
    from the map if and only if it still refers to the same slot
    instance created by this call". *)
Definition FutureMap_new_exit (key : string) (future : nat)
    : M FlockCtrlDriver unit :=
  modify (λ d,
    if decide (_pending_commands_by_uav d !! key = Some future)
    then set_pending_commands_by_uav d (delete key (_pending_commands_by_uav d))
    else d).

(** Modelled from the spec: [ChunkedPacketAssembler.add_packet], which is
    not part of the driver (section 4.3): the chunk is appended to the
    buffer of the source; "when the packet signals completion ... the
    buffer finalizes: if compressed is set, decompress before delivering;
    buffer is then discarded".  The result is the assembled body, if any. *)
Definition add_packet `{Externals} (chunk : list byte) (final : bool)
    (src : string * string) (compressed : bool)
    : M FlockCtrlDriver (option (list byte)) :=
  λ d,
    let buffer := default [] (_packet_assembler d !! src) ++ chunk in
    if final
    then (Return (Some (if compressed then decompress buffer else buffer)),
          set_packet_assembler d (delete src (_packet_assembler d)))
    else (Return None,
          set_packet_assembler d (<[src := buffer]> (_packet_assembler d))).

(** ** The driver class [FlockCtrlDriver] *)

Section Driver.

Context `{Externals}.

(** [FlockCtrlDriver._check_or_record_uav_address] *)
Definition _check_or_record_uav_address (uav : nat) (medium addr : string)
    : M FlockCtrlDriver unit :=
  on_uav uav (check_or_record_address medium addr);;
  modify (λ d, set_uavs_by_source_address d
                 (<[(medium, addr) := uav]> (_uavs_by_source_address d))).

(** [FlockCtrlDriver._create_uav]: a new vehicle object. *)
Definition _create_uav (formatted_id : string) : M FlockCtrlDriver nat :=
  uav ← gets (λ d, length (uavs d));
  modify (λ d, set_uavs d (uavs d ++ [new_FlockCtrlUAV formatted_id]));;
  mret uav.

(** [FlockCtrlDriver._get_or_create_uav] *)
Definition _get_or_create_uav (n : Z) : M FlockCtrlDriver nat :=
  cached ← gets (λ d, _index_to_uav_id d !! n);
  formatted_id ←
    match cached with
    | Some formatted_id => mret formatted_id
    | None =>
        fmt ← gets id_format;
        let formatted_id := make_valid_uav_id (format fmt n) in
        modify (λ d, set_index_to_uav_id d
                       (<[n := formatted_id]> (_index_to_uav_id d)));;
        mret formatted_id
    end;
  present ← uav_registry_contains formatted_id;
  (if negb present
   then uav ← _create_uav formatted_id; uav_registry_add uav
   else mret tt);;
  uav_registry_find_by_id formatted_id.

(** [FlockCtrlDriver._handle_inbound_status_packet] *)
Definition _handle_inbound_status_packet (p : packet) (src : string * string)
    : M FlockCtrlDriver unit :=
  match p with
  | FlockCtrlStatusPacket n location vel hdg algorithm_name err =>
      uav ← _get_or_create_uav n;
      let '(medium, addr) := src in
      _check_or_record_uav_address uav medium addr;;
      on_uav uav (update_status location vel hdg algorithm_name
                    (Some (map_flockctrl_error_code err)));;
      u ← get_uav uav;
      request_to_send_UAV_INF_message_for [id u]
  | _ => raise AttributeError
  end.

(** Modelled from the spec: [handle_data_packet] of the algorithms, which
    are not part of the driver: the update of the vehicle that the data
    asks for, through the device tree mutator. *)
Definition handle_data_packet (data : algorithm_data) (uav : nat)
    : M FlockCtrlDriver unit :=
  λ d,
    match uavs d !! uav with
    | None => (Raise InvalidReference, d)
    | Some u =>
        match data with
        | GeigerCounterData pos itow dose raw_counts =>
            let '(o, u', mutator) :=
              update_geiger_counter u pos itow dose raw_counts (device_tree d) in
            (o, set_device_tree (set_uavs d (<[uav := u']> (uavs d))) mutator)
        | CameraFeatureData itow features =>
            let '(o, mutator) :=
              update_detected_features u itow features (device_tree d) in
            (o, set_device_tree d mutator)
        | NoSensorData => (Return tt, d)
        end
    end.

(** [FlockCtrlDriver._handle_inbound_algorithm_data_packet] *)
Definition _handle_inbound_algorithm_data_packet (p : packet)
    (src : string * string) : M FlockCtrlDriver unit :=
  match p with
  | FlockCtrlAlgorithmDataPacket n alg =>
      uav ← _get_or_create_uav n;
      match alg with
      | Some data => handle_data_packet data uav
      | None => mret tt
      end
  | _ => raise AttributeError
  end.

(** [FlockCtrlDriver._on_chunked_packet_assembled] *)
Definition _on_chunked_packet_assembled (body : list byte)
    (src : string * string) : M FlockCtrlDriver unit :=
  found ←
    try_except
      (λ d, match _uavs_by_source_address d !! src with
            | Some uav => (Return (Some uav), d)
            | None => (Raise KeyError, d)
            end)
      (λ e, match e with
            | KeyError => Some (warn (warn_no_corresponding_uav src);; mret None)
            | _ => None
            end);
  match found with
  | None => mret tt
  | Some uav =>
      let decoded_body := utf8_decode_replace body in
      try_except
        (u ← get_uav uav;
         future ← FutureMap_getitem (id u);
         Future_set_result future decoded_body)
        (λ e, match e with
              | KeyError =>
                  Some (u ← get_uav uav;
                        warn (warn_stale_command_response (id u)))
              | _ => None
              end)
  end.

(** [FlockCtrlDriver._handle_inbound_command_response_packet]; the
    assembler calls [_on_chunked_packet_assembled] when it has assembled
    a body. *)
Definition _handle_inbound_command_response_packet (p : packet)
    (src : string * string) : M FlockCtrlDriver unit :=
  match p with
  | FlockCtrlCompressedCommandResponsePacket chunk final =>
      assembled ← add_packet chunk final src true;
      match assembled with
      | Some body => _on_chunked_packet_assembled body src
      | None => mret tt
      end
  | FlockCtrlCommandResponsePacket chunk final =>
      assembled ← add_packet chunk final src false;
      match assembled with
      | Some body => _on_chunked_packet_assembled body src
      | None => mret tt
      end
  | _ => raise AttributeError
  end.

(** [flockwave.server.utils.nop] *)
Definition nop (p : packet) (src : string * string) : M FlockCtrlDriver unit :=
  mret tt.

(** [FlockCtrlDriver._configure_packet_handlers] *)
Definition _configure_packet_handlers
    : list (packet_class * (packet → string * string → M FlockCtrlDriver unit)) :=
  [ (StatusPacketClass, _handle_inbound_status_packet);
    (PrearmStatusPacketClass, nop);
    (CompressedCommandResponsePacketClass, _handle_inbound_command_response_packet);
    (CommandResponsePacketClass, _handle_inbound_command_response_packet);
    (AlgorithmDataPacketClass, _handle_inbound_algorithm_data_packet);
    (MissionInfoPacketClass, nop) ].

(** [dict.get] on a dictionary written as the list of its items. *)
Fixpoint dict_get {V} (items : list (packet_class * V)) (key : packet_class)
    : option V :=
  match items with
  | [] => None
  | (k, v) :: rest => if decide (k = key) then Some v else dict_get rest key
  end.

(** [FlockCtrlDriver.handle_inbound_packet] *)
Definition handle_inbound_packet (p : packet) (src : string * string)
    : M FlockCtrlDriver unit :=
  let packet_class := class_of p in
  match dict_get _configure_packet_handlers packet_class with
  | None => warn (warn_no_packet_handler (class_name_of p))
  | Some handler => handler p src
  end.

(** [FlockCtrlDriver._send_command_to_address] *)
Definition _send_command_to_address (command : string) (addr : string * string)
    : M FlockCtrlDriver packet :=
  let p := FlockCtrlCommandRequestPacket (utf8_encode command) in
  send_packet p addr;;
  mret p.

(** [FlockCtrlDriver._send_command_to_uav] is a coroutine.  Its first
    part runs up to the end of [await self._send_command_to_address]. *)
Definition _send_command_to_uav_send (command : string) (uav : nat)
    : M FlockCtrlDriver unit :=
  addr ←
    try_except
      (on_uav uav preferred_address)
      (λ e, match e with
            | ValueError _ =>
                Some (raise (ValueError "Address of UAV is not known yet"))
            | _ => None
            end);
  _send_command_to_address command addr;;
  mret tt.

(** Its second part enters the scope of the new future; the coroutine is
    then suspended in [future.wait()], holding the key and the future. *)
Definition _send_command_to_uav_enter (uav : nat)
    : M FlockCtrlDriver (string * nat) :=
  u ← get_uav uav;
  strict ← gets (λ d, negb (allow_multiple_commands_per_uav d));
  future ← FutureMap_new_enter (id u) strict;
  mret (id u, future).

(** Both parts: the coroutine from its call to its suspension in
    [future.wait()]. *)
Definition _send_command_to_uav_begin (command : string) (uav : nat)
    : M FlockCtrlDriver (string * nat) :=
  _send_command_to_uav_send command uav;;
  _send_command_to_uav_enter uav.

(** Its last part is resumed in [future.wait()]: [None] while the future
    is pending, and otherwise the value that the coroutine returns after
    it has left the scope of the future. *)
Definition _send_command_to_uav_resume (key : string) (future : nat)
    : M FlockCtrlDriver (option string) :=
  result ←
    try_except
      (Future_wait future)
      (λ e, match e with
            | FutureCancelled => Some (mret (Some "Execution cancelled"))
            | _ => None
            end);
  match result with
  | None => mret None
  | Some text => FutureMap_new_exit key future;; mret (Some text)
  end.

End Driver.

(** ** Sessions *)

(** What happens to a driver during a session: a packet arrives, the
    application removes a vehicle from its registry, or the format of
    the identifiers is reassigned. *)
Inductive event :=
| PacketReceived (p : packet) (src : string * string)
| RegistryForgets (key : string)
| IdFormatAssigned (fmt : string).

(** An exception that escapes a handler is logged by the caller; the
    state reached is kept. *)
Definition step `{Externals} (d : FlockCtrlDriver) (e : event) : FlockCtrlDriver :=
  match e with
  | PacketReceived p src => (handle_inbound_packet p src d).2
  | RegistryForgets key => set_uav_registry d (delete key (uav_registry d))
  | IdFormatAssigned fmt => set_id_format d fmt
  end.

Definition run `{Externals} (es : list event) (d : FlockCtrlDriver) : FlockCtrlDriver :=
  foldl step d es.

(** The identifier of the vehicle that [_get_or_create_uav] returns. *)
Definition display_id `{Externals} (n : Z) (d : FlockCtrlDriver) : option string :=
  match _get_or_create_uav n d with
  | (Return uav, d') => id <$> uavs d' !! uav
  | (Raise _, _) => None
  end.

(** The registry files every vehicle under its own identifier. *)
Definition registry_wf (d : FlockCtrlDriver) : Prop :=
  ∀ key uav, uav_registry d !! key = Some uav →
    ∃ u, uavs d !! uav = Some u ∧ id u = key.

(** What the operations of a session keep: an identifier once cached
    stays cached, a vehicle object keeps its identifier, and the registry
    stays well formed. *)
Definition session_keeps (d d' : FlockCtrlDriver) : Prop :=
  (∀ n f, _index_to_uav_id d !! n = Some f → _index_to_uav_id d' !! n = Some f)
  ∧ (∀ uav u, uavs d !! uav = Some u →
       ∃ u', uavs d' !! uav = Some u' ∧ id u' = id u)
  ∧ (registry_wf d → registry_wf d').

Definition keeps {A} (m : M FlockCtrlDriver A) : Prop :=
  ∀ d, session_keeps d (m d).2.

(** A sequence of attempts to record an address, on one vehicle. *)
Definition record_all (attempts : list (string * string)) (self : FlockCtrlUAV)
    : FlockCtrlUAV :=
  foldl (λ u ma, (check_or_record_address ma.1 ma.2 u).2) self attempts.

(** The address of the first attempt made for a medium. *)
Fixpoint first_recorded (medium : string) (attempts : list (string * string))
    : option string :=
  match attempts with
  | [] => None
  | (m, a) :: rest =>
      if decide (m = medium) then Some a else first_recorded medium rest
  end.

(** Every entry of the reverse index agrees with the address map of the
    vehicle that it names. *)
Definition index_agrees (d : FlockCtrlDriver) : Prop :=
  ∀ medium addr uav, _uavs_by_source_address d !! (medium, addr) = Some uav →
    ∃ u, uavs d !! uav = Some u ∧ addresses u !! medium = Some addr.

(** The records that a call has passed to [mutator.update] for a channel. *)
Definition written (ch : Channel) (writes : DeviceTreeMutator)
    : list (gmap string pyvalue) :=
  snd <$> filter (λ w, w.1 = ch) writes.

(** ** Examples *)

(** Stand-ins for the collaborators: the default format ["{0:02}"] pads
    the identifiers 0 to 99 to two digits, any other format is taken as
    a prefix of the number; text is ASCII; nothing is compressed. *)
Definition example_externals : Externals :=
  {| format := λ fmt n,
       if decide (fmt = "{0:02}")
       then (if decide (n < 10) then "0" else "") +:+ pretty n
       else fmt +:+ pretty n;
     make_valid_uav_id := λ s, s;
     map_flockctrl_error_code := λ code, code;
     utf8_encode := list_byte_of_string;
     utf8_decode_replace := string_of_list_byte;
     decompress := λ body, body |}.

Definition example_position : GPSCoordinate :=
  {| lat := float_of_Z 47; lon := float_of_Z 19; amsl := Some (float_of_Z 120);
     agl := None |}.

(** A vehicle with a known position and a retained Geiger counter sample
    of 100 counts at time 1000. *)
Definition example_uav : FlockCtrlUAV :=
  {| id := "07";
     addresses := {[ "wireless" := "addrA" ]};
     _status := {| position := Some example_position; velocity := None;
                   heading := None; algorithm := None; error := None |};
     _last_geiger_counter_packet := Some (1000, [100]) |}.

(** A driver with one vehicle, created as [_get_or_create_uav] does. *)
Definition driver_with_vehicle (key : string) : FlockCtrlDriver :=
  ((uav ← _create_uav key; uav_registry_add uav) (new_FlockCtrlDriver "{0:02}")).2.

(** The driver after the status packets of two vehicles have arrived
    from the same source. *)
Definition driver_with_shared_address : FlockCtrlDriver :=
  @run example_externals
    [PacketReceived (FlockCtrlStatusPacket 1 None None None None 0)
       ("wireless", "addrA");
     PacketReceived (FlockCtrlStatusPacket 2 None None None None 0)
       ("wireless", "addrA")]
    (new_FlockCtrlDriver "{0:02}").

(** A driver in strict mode, with one vehicle whose address is known. *)
Definition strict_driver : FlockCtrlDriver :=
  (_check_or_record_uav_address 0 "wireless" "addrA"
     (set_allow_multiple_commands_per_uav (driver_with_vehicle "07") false)).2.

(** The same driver while the command [land] is pending. *)
Definition strict_driver_busy : FlockCtrlDriver :=
  (@_send_command_to_uav_begin example_externals "land" 0 strict_driver).2.

(** A driver in the default mode while the command [land] is pending. *)
Definition lenient_driver_busy : FlockCtrlDriver :=
  ((_check_or_record_uav_address 0 "wireless" "addrA";;
    @_send_command_to_uav_begin example_externals "land" 0)
     (driver_with_vehicle "07")).2.

(** ** Generic commands *)

(** A positional or keyword argument of a generic command: a string, or
    a value of another type. *)
Inductive pyarg :=
| ArgStr (s : string)
| ArgOther (v : pyvalue).

#[global] Instance pyarg_eq_dec : EqDecision pyarg.
Proof. solve_decision. Defined.

(** [isinstance(arg, str)] *)
Definition is_str (arg : pyarg) : bool :=
  match arg with
  | ArgStr _ => true
  | ArgOther _ => false
  end.

(** [FlockCtrlDriver.validate_command]: the error message, or [None]. *)
Definition validate_command (command : string) (args : list pyarg)
    (kwds : gmap string pyarg) : option string :=
  if bool_decide (kwds ≠ ∅)
  then Some "Keyword arguments not supported"
  else if bool_decide (args ≠ []) && existsb (λ arg, negb (is_str arg)) args
  then Some "Non-string positional arguments not supported"
  else None.

(** The items of [[command, *args]] as [str.join] takes them: it raises
    [TypeError] when an item is not a string. *)
Fixpoint str_items (args : list pyarg) : option (list string) :=
  match args with
  | [] => Some []
  | ArgStr s :: rest => cons s <$> str_items rest
  | ArgOther _ :: _ => None
  end.

(** [FlockCtrlDriver.handle_generic_command], followed by the coroutine
    that it returns up to its suspension in [future.wait()]. *)
Definition handle_generic_command `{Externals} (uav : nat) (command : string)
    (args : list pyarg) (kwds : gmap string pyarg)
    : M FlockCtrlDriver (string * nat) :=
  match str_items args with
  | None => raise TypeError
  | Some words =>
      let command := String.concat " " (command :: words) in
      _send_command_to_uav_begin command uav
  end.

(** ** What inbound packets leave alone *)

(** A method keeps a relation between the states before and after it. *)
Definition preserves {A} (R : relation FlockCtrlDriver)
    (m : M FlockCtrlDriver A) : Prop :=
  ∀ d, R d (m d).2.

(** Every address that a vehicle holds in [d], it holds in [d']. *)
Definition addresses_kept (d d' : FlockCtrlDriver) : Prop :=
  ∀ uav u medium addr,
    uavs d !! uav = Some u → addresses u !! medium = Some addr →
    ∃ u', uavs d' !! uav = Some u' ∧ addresses u' !! medium = Some addr.

(** What the handling of inbound packets keeps: nothing is sent, no
    pending command is added or removed, no future is created, the
    vehicles keep the addresses that they hold, and the reverse index
    keeps agreeing with them. *)
Definition inbound_keeps (d d' : FlockCtrlDriver) : Prop :=
  sent d' = sent d
  ∧ _pending_commands_by_uav d' = _pending_commands_by_uav d
  ∧ length (futures d') = length (futures d)
  ∧ addresses_kept d d'
  ∧ (index_agrees d → index_agrees d').

(** ** The registry of object types ([flockwave/server/model/object.py]) *)

(** [try: m finally: f]; an exception of [f] replaces the outcome of [m]. *)
Definition try_finally {S A} (m : M S A) (f : M S unit) : M S A :=
  λ s, match m s with
       | (o, s') =>
           match f s' with
           | (Return _, s'') => (o, s'')
           | (Raise e, s'') => (Raise e, s'')
           end
       end.

(** The value of an outcome, mapped. *)
Definition outcome_map {A B} (f : A → B) (o : outcome A) : outcome B :=
  match o with
  | Return a => Return (f a)
  | Raise e => Raise e
  end.

Module ObjectTypes.
Section WithClasses.

(** The classes and factories that are registered, and [repr] on the
    names of types. *)
Context {Cls : Type} (repr : string → string).

(** The state is the module-level dictionary [_type_registry]. *)

(** [ModelObject.resolve_type] *)
Definition resolve_type (type : string) : M (gmap string Cls) (option Cls) :=
  gets (λ _type_registry, _type_registry !! type).

(** [register(type, cls)] with a class. *)
Definition register (type : string) (cls : Cls) : M (gmap string Cls) unit :=
  λ _type_registry,
    if bool_decide (is_Some (_type_registry !! type))
    then (Raise (ValueError (repr type +:+ " is already registered as a type")),
          _type_registry)
    else (Return tt, <[type := cls]> _type_registry).

(** [register(type)(x)]: the decorator that [register] returns when the
    class is omitted, applied to a class. *)
Definition register_decorator (type : string) (x : Cls)
    : M (gmap string Cls) Cls :=
  register type x;; mret x.

(** The class method [ModelObject.unregister(type)] of the class [cls]. *)
Definition ModelObject_unregister (cls : Cls) (type : string)
    : M (gmap string Cls) unit :=
  λ _type_registry,
    if bool_decide (is_Some (_type_registry !! type))
    then (Raise (ValueError (repr type +:+ " is already registered as a type")),
          _type_registry)
    else (Return tt, <[type := cls]> _type_registry).

(** The function [unregister(type)] of the module. *)
Definition unregister (type : string) : M (gmap string Cls) unit :=
  λ _type_registry,
    if negb (bool_decide (is_Some (_type_registry !! type)))
    then (Raise (ValueError (repr type +:+ " is not registered as a type")),
          _type_registry)
    else (Return tt, delete type _type_registry).

(** [with registered(type, cls): body] *)
Definition registered {A} (type : string) (cls : Cls)
    (body : M (gmap string Cls) A) : M (gmap string Cls) A :=
  register type cls;;
  try_finally body (unregister type).

End WithClasses.
End ObjectTypes.

(** ** The registry of channel types
    ([flockwave/server/registries/channels.py]) *)

Module ChannelTypes.
Section WithFactories.

(** The factories and the broadcasters of the channel types. *)
Context {Factory Broadcaster : Type}.

Record ChannelTypeDescriptor := {
  id : string;
  factory : Factory;
  broadcaster : option Broadcaster;
}.

(** What the registry reports, in the order of the calls:
    [log.info(message, extra={"id": id})] and the signals [added],
    [count_changed] and [removed]. *)
Inductive event :=
| info (message : string) (id : string)
| added (id : string) (descriptor : ChannelTypeDescriptor)
| count_changed
| removed (id : string) (descriptor : ChannelTypeDescriptor).

Record ChannelTypeRegistry := {
  _entries : gmap string ChannelTypeDescriptor;
  events : list event;
}.

(** [channel_id in self], which the base class [RegistryBase] defines;
    the base class is not among the sources. *)
Context (contains : ChannelTypeRegistry → string → bool).

(** [ChannelTypeRegistry.add] *)
Definition add (channel_id : string) (f : Factory) (b : option Broadcaster)
    : M ChannelTypeRegistry unit :=
  λ self,
    if contains self channel_id then (Return tt, self)
    else
      let descriptor := {| id := channel_id; factory := f; broadcaster := b |} in
      (Return tt,
       {| _entries := <[channel_id := descriptor]> (_entries self);
          events := events self
                    ++ [info "Channel registered" channel_id;
                        added channel_id descriptor;
                        count_changed] |}).

(** [ChannelTypeRegistry.num_entries] *)
Definition num_entries (self : ChannelTypeRegistry) : nat :=
  size (_entries self).

(** [ChannelTypeRegistry.remove] *)
Definition remove (channel_id : string) : M ChannelTypeRegistry unit :=
  λ self,
    match _entries self !! channel_id with
    | None => (Return tt, self)
    | Some descriptor =>
        (Return tt,
         {| _entries := delete channel_id (_entries self);
            events := events self
                      ++ [info "Channel deregistered" channel_id;
                          count_changed;
                          removed channel_id descriptor] |})
    end.

(** A sequence of calls of [add] and [remove]. *)
Inductive call :=
| call_add (channel_id : string) (f : Factory) (b : option Broadcaster)
| call_remove (channel_id : string).

Definition perform (self : ChannelTypeRegistry) (c : call) : ChannelTypeRegistry :=
  match c with
  | call_add channel_id f b => (add channel_id f b self).2
  | call_remove channel_id => (remove channel_id self).2
  end.

Definition perform_all (calls : list call) (self : ChannelTypeRegistry)
    : ChannelTypeRegistry :=
  foldl perform self calls.

Definition is_added (e : event) : bool :=
  match e with added _ _ => true | _ => false end.
Definition is_removed (e : event) : bool :=
  match e with removed _ _ => true | _ => false end.
Definition is_count_changed (e : event) : bool :=
  match e with count_changed => true | _ => false end.

(** How many of the events reported so far are of a kind. *)
Definition reported (kind : event → bool) (self : ChannelTypeRegistry) : nat :=
  length (filter (λ e, kind e) (events self)).

End WithFactories.
End ChannelTypes.

(** * Properties *)

(** ** Proof tools *)

Ltac unfold_M :=
  unfold mbind, M_bind, bind, mret, M_ret, ret, raise, gets, modify, try_except in *.

Lemma set_uavs_id (d : FlockCtrlDriver) : set_uavs d (uavs d) = d.
Proof. by destruct d. Qed.

(** ** Recording addresses on a vehicle *)

Section AddressMap.

Implicit Types (self : FlockCtrlUAV) (medium addr : string).

Lemma check_or_record_address_new self medium addr :
  addresses self !! medium = None →
  check_or_record_address medium addr self
  = (Return tt, set_addresses self (<[medium := addr]> (addresses self))).
Proof. intros Hnone. unfold check_or_record_address. by rewrite Hnone. Qed.

Lemma check_or_record_address_same self medium addr :
  addresses self !! medium = Some addr →
  check_or_record_address medium addr self = (Return tt, self).
Proof.
  intros Hsame. unfold check_or_record_address. rewrite Hsame.
  by destruct (decide (addr ≠ addr)).
Qed.

Lemma check_or_record_address_conflict self medium addr current :
  addresses self !! medium = Some current →
  current ≠ addr →
  check_or_record_address medium addr self
  = (Raise (AddressConflictError (id self) medium addr), self).
Proof.
  intros Hcur Hne. unfold check_or_record_address. rewrite Hcur.
  by destruct (decide (current ≠ addr)).
Qed.

Lemma check_or_record_address_id self medium addr :
  id (check_or_record_address medium addr self).2 = id self.
Proof.
  unfold check_or_record_address.
  destruct (addresses self !! medium); [case_decide|]; done.
Qed.

(** What a vehicle holds for a medium after one attempt. *)
Lemma check_or_record_address_lookup self medium addr m :
  addresses (check_or_record_address medium addr self).2 !! m
  = match addresses self !! m with
    | Some a => Some a
    | None => if decide (medium = m) then Some addr else None
    end.
Proof.
  unfold check_or_record_address.
  destruct (addresses self !! medium) as [current|] eqn:Hcur; simpl.
  - assert (addresses (if decide (current ≠ addr)
                       then (Raise (AddressConflictError (id self) medium addr), self)
                       else (Return tt, self)).2 = addresses self) as ->
      by (by case_decide).
    destruct (addresses self !! m) eqn:Hm; [done|].
    case_decide; [congruence | done].
  - destruct (decide (medium = m)) as [->|Hne].
    + by rewrite lookup_insert_eq, Hcur.
    + rewrite lookup_insert_ne by done. by destruct (addresses self !! m).
Qed.

Lemma record_all_lookup attempts self m :
  addresses (record_all attempts self) !! m
  = match addresses self !! m with
    | Some a => Some a
    | None => first_recorded m attempts
    end.
Proof.
  revert self. induction attempts as [|[medium addr] rest IH]; intros self.
  - simpl. by destruct (addresses self !! m).
  - unfold record_all in *. simpl. rewrite IH, check_or_record_address_lookup.
    destruct (addresses self !! m); [done|]. by case_decide.
Qed.

(** C3: an attempt on a medium without an address stores the address;
    an attempt with the stored address succeeds and changes nothing; an
    attempt with another address raises [AddressConflictError] and
    changes nothing; so after any sequence of attempts a vehicle holds,
    for each medium, the first address recorded for it. *)
Theorem address_is_first_recorded self medium addr :
  (addresses self !! medium = None →
     ∃ self', check_or_record_address medium addr self = (Return tt, self')
              ∧ addresses self' = <[medium := addr]> (addresses self))
  ∧ (addresses self !! medium = Some addr →
     check_or_record_address medium addr self = (Return tt, self))
  ∧ (∀ current, addresses self !! medium = Some current → current ≠ addr →
     check_or_record_address medium addr self
     = (Raise (AddressConflictError (id self) medium addr), self))
  ∧ (∀ attempts,
     addresses (record_all attempts self) !! medium
     = match addresses self !! medium with
       | Some first => Some first
       | None => first_recorded medium attempts
       end).
Proof.
  split_and!.
  - intros Hnone. eexists. split; [by apply check_or_record_address_new|done].
  - apply check_or_record_address_same.
  - apply check_or_record_address_conflict.
  - intros attempts. apply record_all_lookup.
Qed.

Lemma address_is_first_recorded_witness :
  addresses (record_all [("wireless", "addrA"); ("wireless", "addrB");
                         ("wireless", "addrA")] (new_FlockCtrlUAV "07"))
    !! "wireless" = Some "addrA"
  ∧ check_or_record_address "wireless" "addrB" example_uav
    = (Raise (AddressConflictError "07" "wireless" "addrB"), example_uav)
  ∧ check_or_record_address "wireless" "addrA" example_uav
    = (Return tt, example_uav).
Proof.
  split_and!.
  - destruct (address_is_first_recorded (new_FlockCtrlUAV "07") "wireless" "addrA")
      as (_ & _ & _ & Hfirst).
    rewrite Hfirst. reflexivity.
  - destruct (address_is_first_recorded example_uav "wireless" "addrB")
      as (_ & _ & Hconflict & _).
    apply (Hconflict "addrA"); [reflexivity | discriminate].
  - destruct (address_is_first_recorded example_uav "wireless" "addrA")
      as (_ & Hsame & _).
    apply Hsame. reflexivity.
Defined.

End AddressMap.

(** ** Arithmetic on floats *)

Section FloatArithmetic.

Local Open Scope Z_scope.

Implicit Types (m e a : Z) (s : bool) (l : location).

Lemma digits2_pos_size (p : positive) : digits2_pos p = Pos.size p.
Proof. induction p; simpl; congruence. Qed.

Lemma Zdigits2_log2 m : 0 < m → Zdigits2 m = Z.log2 m + 1.
Proof.
  destruct m as [|p|p]; try lia. intros _. simpl. rewrite digits2_pos_size.
  destruct p; simpl; lia.
Qed.

Lemma iter_pos_iter {A} (f : A → A) (n : positive) (x : A) :
  SpecFloat.iter_pos f n x = Pos.iter f x n.
Proof.
  revert x. induction n as [n IH|n IH|]; intros x; simpl.
  - rewrite !IH. by rewrite !Pos.iter_swap.
  - by rewrite !IH.
  - done.
Qed.

Lemma shr_1_m (mrs : shr_record) : 0 ≤ shr_m mrs → shr_m (shr_1 mrs) = shr_m mrs / 2.
Proof.
  destruct mrs as [m r s]. simpl. intros Hm.
  destruct m as [|[p|p|]|p]; simpl; try done; try lia.
  - rewrite Pos2Z.inj_xI. apply (Z.div_unique _ _ _ 1); lia.
  - rewrite Pos2Z.inj_xO. apply (Z.div_unique _ _ _ 0); lia.
Qed.

Lemma shr_iter_m (n : positive) (mrs : shr_record) :
  0 ≤ shr_m mrs → shr_m (Pos.iter shr_1 mrs n) = shr_m mrs / 2 ^ Zpos n.
Proof.
  revert mrs. induction n as [|n IH] using Pos.peano_ind; intros mrs Hm.
  - simpl. by rewrite shr_1_m.
  - rewrite Pos.iter_succ. rewrite shr_1_m.
    + rewrite IH by done. rewrite Pos2Z.inj_succ, Z.pow_succ_r by lia.
      rewrite Z.div_div by lia. f_equal. lia.
    + rewrite IH by done. apply Z.div_pos; lia.
Qed.

Lemma shr_record_of_loc_m m l : shr_m (shr_record_of_loc m l) = m.
Proof. by destruct l as [|[]]. Qed.

(** Shifting a positive significand to its place leaves it positive when
    the number is not below the least exponent, and keeps the position of
    its leading bit. *)
Lemma shr_fexp_pos m e l :
  0 < m → emin prec emax < Zdigits2 m + e →
  0 < shr_m (shr_fexp prec emax m e l).1
  ∧ Zdigits2 (shr_m (shr_fexp prec emax m e l).1) + (shr_fexp prec emax m e l).2
    = Zdigits2 m + e.
Proof.
  intros Hm He. unfold shr_fexp, shr.
  rewrite (Zdigits2_log2 m) in * by done.
  pose proof (Z.log2_nonneg m) as Hlog.
  destruct (fexp prec emax (Z.log2 m + 1 + e) - e) as [|n|n] eqn:Hn; simpl;
    rewrite ?shr_record_of_loc_m, ?Zdigits2_log2 by done; try done.
  rewrite iter_pos_iter, shr_iter_m by (rewrite shr_record_of_loc_m; lia).
  rewrite shr_record_of_loc_m.
  assert (Z.pos n ≤ Z.log2 m) as Hle.
  { revert Hn He. unfold fexp, emin, prec, emax. lia. }
  rewrite <- Z.shiftr_div_pow2 by lia.
  assert (0 < Z.shiftr m (Z.pos n)) as Hpos.
  { pose proof (Z.shiftr_eq_0_iff m (Z.pos n)) as Hz.
    pose proof (proj2 (Z.shiftr_nonneg m (Z.pos n))). lia. }
  split; [done|].
  rewrite Zdigits2_log2, Z.log2_shiftr by done. lia.
Qed.

Lemma round_nearest_even_pos m l :
  0 < m →
  0 < round_nearest_even m l
  ∧ Zdigits2 m ≤ Zdigits2 (round_nearest_even m l) ≤ Zdigits2 m + 1.
Proof.
  intros Hm.
  assert (0 < m + 1 ∧ Zdigits2 m ≤ Zdigits2 (m + 1) ≤ Zdigits2 m + 1) as Hsucc.
  { split; [lia|]. rewrite !Zdigits2_log2 by lia.
    pose proof (Z.log2_le_mono m (m + 1)).
    pose proof (Z.log2_succ_le m) as Hs. rewrite <- Z.add_1_r in Hs. lia. }
  unfold round_nearest_even.
  destruct l as [|[]]; [lia| |lia|done]. destruct (Z.even m); [lia|done].
Qed.

(** Rounding a positive number that is not below the least exponent
    gives a finite number or an infinity, of the sign asked for; and a
    finite number when its leading bit is within the exponent range. *)
Lemma binary_round_aux_pos s m e l :
  0 < m → emin prec emax < Zdigits2 m + e →
  (∃ (n : positive) e', binary_round_aux prec emax s m e l = S754_finite s n e')
  ∨ (binary_round_aux prec emax s m e l = S754_infinity s
     ∧ emax - prec < Zdigits2 m + e).
Proof.
  intros Hm He. unfold binary_round_aux.
  destruct (shr_fexp_pos m e l Hm He) as [Hm1 He1].
  destruct (shr_fexp prec emax m e l) as [mrs1 e1]. simpl in *.
  destruct (round_nearest_even_pos (shr_m mrs1) (loc_of_shr_record mrs1) Hm1)
    as [Hm2 Hd2].
  destruct (shr_fexp_pos (round_nearest_even (shr_m mrs1) (loc_of_shr_record mrs1))
              e1 loc_Exact Hm2 ltac:(lia)) as [Hm3 He3].
  destruct (shr_fexp prec emax _ e1 loc_Exact) as [mrs2 e2]. simpl in *.
  destruct (shr_m mrs2) as [|m3|m3] eqn:Hm3'; try lia.
  destruct (e2 <=? emax - prec) eqn:Hle; [eauto|].
  right. split; [done|]. apply Z.leb_gt in Hle.
  rewrite (Zdigits2_log2 (Z.pos m3)) in He3 by lia.
  pose proof (Z.log2_nonneg (Z.pos m3)). lia.
Qed.

(** Whatever is rounded, the sign is the one asked for. *)
Lemma binary_round_aux_sign s m e l :
  match binary_round_aux prec emax s m e l with
  | S754_zero s' | S754_infinity s' | S754_finite s' _ _ => s' = s
  | S754_nan => True
  end.
Proof.
  unfold binary_round_aux.
  destruct (shr_fexp prec emax m e l) as [mrs1 e1].
  destruct (shr_fexp prec emax _ e1 loc_Exact) as [mrs2 e2].
  destruct (shr_m mrs2); [done| |done]. by destruct (e2 <=? emax - prec).
Qed.

(** The quotient of a positive [int] by 1000 is a positive [float], or
    too large for one; it is not too large below [2 ^ 971]. *)
Lemma SFdiv_pos_1000 (a : positive) :
  (∃ (n : positive) e, SFdiv prec emax (exact_int (Z.pos a)) (exact_int 1000)
                       = S754_finite false n e)
  ∨ (SFdiv prec emax (exact_int (Z.pos a)) (exact_int 1000) = S754_infinity false
     ∧ 2 ^ 971 ≤ Z.pos a).
Proof.
  unfold exact_int, SFdiv, SFdiv_core_binary.
  set (k := 0 - 0 - _).
  set (m' := match k with Z.pos _ => _ | _ => _ end).
  pose proof (Z.log2_spec (Z.pos a) ltac:(lia)) as [Hlow _].
  pose proof (Z.log2_nonneg (Z.pos a)) as Hlog.
  assert (k = Z.max 0 (62 - Z.log2 (Z.pos a))) as Hk.
  { subst k. rewrite Zdigits2_log2 by lia. change (Zdigits2 1000) with 10.
    unfold fexp, emin, prec, emax. lia. }
  assert (m' = Z.pos a * 2 ^ k) as Hm'.
  { subst m'. destruct k as [|k'|k'] eqn:Hk'; [lia| |lia].
    by rewrite Z.shiftl_mul_pow2. }
  assert (2 ^ 62 ≤ m') as Hm62.
  { rewrite Hm', Hk. destruct (Z.max_spec 0 (62 - Z.log2 (Z.pos a))) as [[? ->]|[? ->]].
    - replace (2 ^ 62) with (2 ^ Z.log2 (Z.pos a) * 2 ^ (62 - Z.log2 (Z.pos a))).
      + apply Z.mul_le_mono_nonneg_r; [apply Z.pow_nonneg|]; lia.
      + rewrite <- Z.pow_add_r by lia. f_equal. lia.
    - rewrite Z.mul_1_r. etrans; [|exact Hlow]. apply Z.pow_le_mono_r; lia. }
  pose proof (Z.div_eucl_eq m' 1000 ltac:(lia)) as Heucl.
  pose proof (Z.mod_pos_bound m' 1000 ltac:(lia)) as Hmod.
  unfold Z.modulo in Hmod.
  destruct (Z.div_eucl m' 1000) as [q r].
  assert (2 ^ 52 ≤ q ≤ m') as Hq.
  { change (2 ^ 62) with 4611686018427387904 in Hm62.
    change (2 ^ 52) with 4503599627370496. lia. }
  pose proof (Z.log2_le_mono (2 ^ 52) q ltac:(lia)) as Hl.
  rewrite Z.log2_pow2 in Hl by lia.
  pose proof (Z.log2_le_mono q m' ltac:(lia)) as Hu.
  rewrite Hm', Z.log2_mul_pow2 in Hu by lia.
  assert (Z.min (fexp prec emax (Zdigits2 (Z.pos a) + 0 - (Zdigits2 1000 + 0))) (0 - 0)
          = - k) as He'.
  { rewrite Zdigits2_log2 by lia. change (Zdigits2 1000) with 10.
    unfold fexp, emin, prec, emax. lia. }
  rewrite He'.
  destruct (binary_round_aux_pos (xorb false false) q (- k) (new_location 1000 r))
    as [Hfinite|[Hinf Hbig]].
  - lia.
  - rewrite Zdigits2_log2 by lia. unfold emin, prec, emax. lia.
  - by left.
  - right. split; [done|].
    rewrite Zdigits2_log2 in Hbig by lia. unfold prec, emax in Hbig.
    etrans; [|exact Hlow]. apply Z.pow_le_mono_r; lia.
Qed.

(** The elapsed time is positive exactly when the time stamp has
    advanced: the division by 1000 rounds no positive number to zero. *)
Lemma int_truediv_1000_pos a (dt : float) :
  int_truediv a 1000 = Return dt → (float_gt_zero dt = true ↔ 0 < a).
Proof.
  unfold int_truediv. rewrite decide_False by done. destruct a as [|a|a].
  - intros [= <-]. split; [done|lia].
  - destruct (SFdiv_pos_1000 a) as [(m & e & ->)|[-> _]]; [|done].
    intros [= <-]. done.
  - unfold SFdiv, exact_int.
    destruct (SFdiv_core_binary _ _ _ _ _ _) as [[mz ez] lz].
    pose proof (binary_round_aux_sign (xorb true false) mz ez lz) as Hsign.
    destruct (binary_round_aux _ _ _ _ _ _); simpl in Hsign; subst;
      intros [= <-]; split; (done || lia).
Qed.

Lemma elapsed_seconds_pos (itow last_itow : Z) (dt : float) :
  elapsed_seconds itow last_itow = Return dt →
  (float_gt_zero dt = true ↔ last_itow < itow).
Proof.
  unfold elapsed_seconds. intros Hdt%int_truediv_1000_pos. rewrite Hdt. lia.
Qed.

(** The division by 1000 raises nothing but [OverflowError], and does
    not raise below [2 ^ 971]. *)
Lemma elapsed_seconds_raises (itow last_itow : Z) (err : exn) :
  elapsed_seconds itow last_itow = Raise err →
  err = OverflowError ∧ 2 ^ 971 ≤ Z.abs (itow - last_itow).
Proof.
  unfold elapsed_seconds, int_truediv. rewrite decide_False by done.
  destruct (itow - last_itow) as [|a|a] eqn:Ha.
  - done.
  - destruct (SFdiv_pos_1000 a) as [(m & e' & ->)|[-> Hbig]]; [done|].
    intros [= <-]. split; [done|lia].
  - assert (SFdiv prec emax (exact_int (Z.neg a)) (exact_int 1000)
            = SFopp (SFdiv prec emax (exact_int (Z.pos a)) (exact_int 1000)))
      as ->.
    { unfold SFdiv, exact_int.
      destruct (SFdiv_core_binary _ _ _ _ _ _) as [[mz ez] lz].
      unfold binary_round_aux.
      destruct (shr_fexp prec emax mz ez lz) as [mrs1 e1].
      destruct (shr_fexp prec emax _ e1 loc_Exact) as [mrs2 e2].
      destruct (shr_m mrs2); [done| |done]. by destruct (e2 <=? emax - prec). }
    destruct (SFdiv_pos_1000 a) as [(m & e' & ->)|[-> Hbig]]; [done|].
    intros [= <-]. split; [done|lia].
Qed.

Lemma digits2_pos_shl (m d : positive) :
  Z.pos (digits2_pos (Pos.iter xO m d)) = Z.pos (digits2_pos m) + Z.pos d.
Proof.
  induction d as [|d IH] using Pos.peano_ind.
  - simpl. lia.
  - rewrite Pos.iter_succ. simpl. lia.
Qed.

(** The conversion of an [int] raises nothing but [OverflowError], and
    does not raise below [2 ^ 971]. *)
Lemma float_of_int_raises a (err : exn) :
  float_of_int a = Raise err → err = OverflowError ∧ 2 ^ 971 ≤ Z.abs a.
Proof.
  assert (∀ s (p : positive),
            (∃ (n : positive) e, binary_round prec emax s p 0 = S754_finite s n e)
            ∨ (binary_round prec emax s p 0 = S754_infinity s ∧ 2 ^ 971 ≤ Z.pos p))
    as Hround.
  { intros s p. unfold binary_round, shl_align.
    pose proof (Z.log2_spec (Z.pos p) ltac:(lia)) as [Hlow _].
    pose proof (Z.log2_nonneg (Z.pos p)) as Hlog.
    assert (Z.pos (digits2_pos p) = Z.log2 (Z.pos p) + 1) as Hdigits
      by (by rewrite <- (Zdigits2_log2 (Z.pos p))).
    set (mz := match _ with Z.neg d => _ | _ => _ end).
    assert (Z.pos (digits2_pos mz.1) + mz.2 = Z.pos (digits2_pos p)) as Hsum.
    { subst mz.
      destruct (fexp prec emax (Z.pos (digits2_pos p) + 0) - 0) as [|d|d] eqn:Hd;
        cbn [fst snd]; rewrite ?digits2_pos_shl; lia. }
    destruct mz as [m1 e1]. cbn [fst snd] in Hsum.
    destruct (binary_round_aux_pos s (Z.pos m1) e1 loc_Exact)
      as [Hfinite|[Hinf Hbig]]; [lia| |by left|].
    - change (Zdigits2 (Z.pos m1)) with (Z.pos (digits2_pos m1)).
      unfold emin, prec, emax. lia.
    - right. split; [done|].
      change (Zdigits2 (Z.pos m1)) with (Z.pos (digits2_pos m1)) in Hbig.
      unfold prec, emax in Hbig.
      etrans; [|exact Hlow]. apply Z.pow_le_mono_r; lia. }
  unfold float_of_int, float_of_Z, binary_normalize. destruct a as [|p|p].
  - done.
  - destruct (Hround false p) as [(n & e & ->)|[-> Hbig]]; [done|].
    intros [= <-]. split; [done|lia].
  - destruct (Hround true p) as [(n & e & ->)|[-> Hbig]]; [done|].
    intros [= <-]. split; [done|lia].
Qed.

(** A positive [float] is not zero: dividing by it does not raise. *)
Lemma float_truediv_pos (x dt : float) :
  float_gt_zero dt = true → float_truediv x dt = Return (SFdiv prec emax x dt).
Proof.
  unfold float_truediv. intros Hdt.
  by destruct dt as [[]|[]| |[] m e].
Qed.

Lemma int_truediv_float_raises a (dt : float) (err : exn) :
  float_gt_zero dt = true →
  int_truediv_float a dt = Raise err →
  err = OverflowError ∧ 2 ^ 971 ≤ Z.abs a.
Proof.
  unfold int_truediv_float. intros Hdt.
  destruct (float_of_int a) as [x|e] eqn:Hx.
  - by rewrite float_truediv_pos.
  - intros [= <-]. by apply float_of_int_raises.
Qed.

End FloatArithmetic.

(** ** Sensor updates of a vehicle *)

Section Sensors.

Implicit Types (self : FlockCtrlUAV) (mutator writes : DeviceTreeMutator).
Implicit Types (pos_data record : gmap string pyvalue) (ch : Channel).
Implicit Types (dt : float) (values : list (option pyvalue)).

Lemma update_channels_app pos_data devices vals mutator :
  update_channels pos_data devices vals mutator
  = mutator ++ ((λ dv, (dv.1, with_value pos_data dv.2)) <$> zip devices vals).
Proof.
  unfold update_channels, mutator_update.
  revert mutator. induction (zip devices vals) as [|dv l IH]; intros mutator.
  - by rewrite app_nil_r.
  - simpl. by rewrite IH, <- app_assoc.
Qed.

Lemma update_channels_if_some_app pos_data devices values mutator :
  update_channels_if_some pos_data devices values mutator
  = mutator
    ++ omap (λ dv, (λ value, (dv.1, with_value pos_data value)) <$> dv.2)
            (zip devices values).
Proof.
  unfold update_channels_if_some, mutator_update.
  revert mutator. induction (zip devices values) as [|[ch [value|]] l IH];
    intros mutator; simpl.
  - by rewrite app_nil_r.
  - by rewrite IH, <- app_assoc.
  - by rewrite IH.
Qed.

Lemma elem_of_update_channels pos_data devices vals ch record :
  (ch, record) ∈ ((λ dv, (dv.1, with_value pos_data dv.2)) <$> zip devices vals)
  → ch ∈ devices.
Proof.
  intros ([ch' v] & [= -> ->] & Hin)%list_elem_of_fmap.
  apply elem_of_zip_l in Hin. done.
Qed.

Lemma elem_of_update_channels_if_some pos_data devices values ch record :
  (ch, record)
    ∈ omap (λ dv, (λ value, (dv.1, with_value pos_data value)) <$> dv.2)
           (zip devices values)
  ↔ ∃ j value, devices !! j = Some ch ∧ values !! j = Some (Some value)
               ∧ record = with_value pos_data value.
Proof.
  rewrite list_elem_of_omap. split.
  - intros ([ch' [value|]] & Hin & Heq); simplify_eq/=.
    apply list_elem_of_lookup in Hin as [j Hj].
    apply lookup_zip_with_Some in Hj as (? & ? & [= <- <-] & ? & ?).
    eauto 10.
  - intros (j & value & Hdev & Hval & ->).
    exists (ch, Some value). split; [|done].
    apply list_elem_of_lookup. exists j.
    apply lookup_zip_with_Some. eauto 10.
Qed.

Lemma pos_data_of_value (p : GPSCoordinate) : pos_data_of p !! "value" = None.
Proof.
  unfold pos_data_of. destruct (amsl p), (agl p);
    repeat (rewrite lookup_insert_ne by done); apply lookup_empty.
Qed.

Lemma delete_with_value (p : GPSCoordinate) v :
  delete "value" (with_value (pos_data_of p) v) = pos_data_of p.
Proof. unfold with_value. apply delete_insert_id, pos_data_of_value. Qed.

(** The keys of a record: the value, and the position that tags it. *)
Lemma with_value_lookup (p : GPSCoordinate) v :
  with_value (pos_data_of p) v !! "value" = Some v
  ∧ with_value (pos_data_of p) v !! "lat" = Some (VFloat (lat p))
  ∧ with_value (pos_data_of p) v !! "lon" = Some (VFloat (lon p))
  ∧ with_value (pos_data_of p) v !! "amsl" = VFloat <$> amsl p
  ∧ with_value (pos_data_of p) v !! "agl" = VFloat <$> agl p.
Proof.
  unfold with_value, pos_data_of.
  destruct (amsl p), (agl p); split_and!; simpl;
    repeat (rewrite lookup_insert_eq || rewrite lookup_insert_ne by done);
    done.
Qed.

Lemma geiger_counter_rates_lookup self j ch :
  geiger_counter_rates self !! j = Some ch
  ↔ (j < MAX_GEIGER_TUBE_COUNT)%nat ∧ ch = {| owner := id self; name := rate j |}.
Proof.
  unfold geiger_counter_rates. rewrite list_lookup_fmap_Some. split.
  - intros (i & -> & [-> ?]%lookup_seq). done.
  - intros [? ->]. exists j. split; [done|]. by apply lookup_seq.
Qed.

Lemma rate_not_in_raw_counts self i :
  {| owner := id self; name := rate i |} ∉ geiger_counter_raw_counts self.
Proof.
  unfold geiger_counter_raw_counts. intros (j & [=] & _)%list_elem_of_fmap.
Qed.

Lemma geiger_rate_Some dt (value last_value : Z) v :
  geiger_rate dt value last_value = Return (Some v)
  ↔ last_value < value
    ∧ ∃ x, int_truediv_float (value - last_value) dt = Return x ∧ v = VFloat x.
Proof.
  unfold geiger_rate. case_bool_decide as Hgt.
  - destruct (int_truediv_float (value - last_value) dt) as [x|e]; split.
    + intros [= <-]. split; [lia|eauto].
    + intros (_ & x' & [= <-] & ->). done.
    + done.
    + intros (_ & x' & [=] & _).
  - split; [done|]. intros [? _]. lia.
Qed.

Lemma geiger_rates_lookup dt (pairs : list (Z * Z)) values j r :
  geiger_rates dt pairs = Return values →
  values !! j = Some r
  ↔ ∃ value last_value,
      pairs !! j = Some (value, last_value)
      ∧ geiger_rate dt value last_value = Return r.
Proof.
  revert values j. induction pairs as [|[value last_value] rest IH];
    intros values j; simpl.
  - intros [= <-]. rewrite lookup_nil. split; [done|].
    by intros (? & ? & [=] & _).
  - destruct (geiger_rate dt value last_value) as [r0|e] eqn:Hr; [|done].
    destruct (geiger_rates dt rest) as [vs|e]; [|done]. intros [= <-].
    destruct j as [|j]; simpl.
    + split.
      * intros [= <-]. eauto.
      * intros (? & ? & [= <- <-] & Hv). congruence.
    + by apply IH.
Qed.


Lemma geiger_rates_raises dt (pairs : list (Z * Z)) e :
  float_gt_zero dt = true → geiger_rates dt pairs = Raise e → e = OverflowError.
Proof.
  intros Hdt. induction pairs as [|[value last_value] rest IH]; simpl; [done|].
  unfold geiger_rate. case_bool_decide.
  - destruct (int_truediv_float (value - last_value) dt) as [x|e'] eqn:Hx.
    + destruct (geiger_rates dt rest); [done|]. intros [= ->]. by apply IH.
    + intros [= ->]. by eapply (int_truediv_float_raises _ dt).
  - destruct (geiger_rates dt rest); [done|]. intros [= ->]. by apply IH.
Qed.

Lemma update_geiger_counter_known self pos itow dose raw_counts mutator p :
  position (_status self) = Some p →
  update_geiger_counter self pos itow dose (Some raw_counts) mutator
  = match geiger_rate_values self itow raw_counts with
    | Return _ =>
        (Return tt, set_last_geiger_counter_packet self (Some (itow, raw_counts)),
         mutator ++ geiger_writes self p itow dose raw_counts)
    | Raise e =>
        (Raise e, self, mutator ++ geiger_writes self p itow dose raw_counts)
    end.
Proof.
  intros Hp. unfold update_geiger_counter, geiger_writes, geiger_rate_values.
  rewrite Hp. rewrite update_channels_app. unfold mutator_update.
  destruct (_last_geiger_counter_packet self) as [[last_itow last_raw_counts]|].
  - destruct (elapsed_seconds itow last_itow) as [dt|e].
    + destruct (float_gt_zero dt).
      * destruct (geiger_rates dt (zip raw_counts last_raw_counts)) as [values|e].
        -- rewrite update_channels_if_some_app. by rewrite <- !app_assoc.
        -- by rewrite app_nil_r, <- !app_assoc.
      * by rewrite app_nil_r, <- !app_assoc.
    + by rewrite app_nil_r, <- !app_assoc.
  - by rewrite app_nil_r, <- !app_assoc.
Qed.

Lemma update_geiger_counter_writes self pos itow dose raw_counts mutator p :
  position (_status self) = Some p →
  (update_geiger_counter self pos itow dose (Some raw_counts) mutator).2
  = mutator ++ geiger_writes self p itow dose raw_counts.
Proof.
  intros Hp. rewrite (update_geiger_counter_known _ _ _ _ _ _ p) by done.
  by destruct (geiger_rate_values self itow raw_counts).
Qed.

Lemma update_geiger_counter_returns self pos itow dose raw_counts mutator p :
  position (_status self) = Some p →
  (update_geiger_counter self pos itow dose (Some raw_counts) mutator).1.1 = Return tt
  ↔ ∃ values, geiger_rate_values self itow raw_counts = Return values.
Proof.
  intros Hp. rewrite (update_geiger_counter_known _ _ _ _ _ _ p) by done.
  destruct (geiger_rate_values self itow raw_counts); simpl.
  - split; eauto.
  - split; [done|]. by intros [? ?].
Qed.

Lemma geiger_rate_values_raises self itow raw_counts e :
  geiger_rate_values self itow raw_counts = Raise e → e = OverflowError.
Proof.
  unfold geiger_rate_values.
  destruct (_last_geiger_counter_packet self) as [[last_itow last_raw_counts]|];
    [|done].
  destruct (elapsed_seconds itow last_itow) as [dt|e'] eqn:Hdt.
  - destruct (float_gt_zero dt) eqn:Hpos; [|done]. by apply geiger_rates_raises.
  - intros [= ->]. by apply elapsed_seconds_raises in Hdt as [-> _].
Qed.

Lemma elem_of_written ch writes record :
  record ∈ written ch writes ↔ (ch, record) ∈ writes.
Proof.
  unfold written. rewrite list_elem_of_fmap. split.
  - intros ([ch' r] & -> & [Hch Hin]%list_elem_of_filter). simpl in *. by subst.
  - intros Hin. exists (ch, record). split; [done|].
    by apply list_elem_of_filter.
Qed.

(** The writes to a rate channel: those of the rates computed. *)
Lemma rate_written self p itow dose raw_counts i record :
  record ∈ written {| owner := id self; name := rate i |}
             (geiger_writes self p itow dose raw_counts)
  ↔ ∃ values value,
      geiger_rate_values self itow raw_counts = Return values
      ∧ (i < MAX_GEIGER_TUBE_COUNT)%nat
      ∧ values !! i = Some (Some value)
      ∧ record = with_value (pos_data_of p) value.
Proof.
  rewrite elem_of_written. unfold geiger_writes.
  rewrite !elem_of_app, list_elem_of_singleton. split.
  - intros [[=]|[Hraw|Hrate]].
    { apply elem_of_update_channels in Hraw. by apply rate_not_in_raw_counts in Hraw. }
    destruct (geiger_rate_values self itow raw_counts) as [values|e];
      [|by apply elem_of_nil in Hrate].
    apply elem_of_update_channels_if_some in Hrate as (j & v & Hdev & Hval & ->).
    apply geiger_counter_rates_lookup in Hdev as [Hj [= <-]]. eauto 10.
  - intros (values & value & -> & Hi & Hval & ->). right. right.
    apply elem_of_update_channels_if_some. exists i, value. split_and!; [|done..].
    by apply geiger_counter_rates_lookup.
Qed.

(** C2, as the code has it: when a vehicle with a known position and a
    retained sample is given new raw counts, the rate channel of one of
    the two tubes is written if and only if the update returns (no
    division raises [OverflowError]), the elapsed time [dt = (itow -
    last_itow) / 1000] is positive and the new count of the tube is
    greater than the previous one.  The record written has the [float]
    [(new - previous) / dt] under the key [value], as the divisions of
    Python round it, and the stored position of the vehicle under the
    keys [lat], [lon], [amsl] and [agl].  The rate channel of a tube
    past the second is never written. *)
Theorem geiger_rate_written_iff_increase self pos itow dose raw_counts mutator
    p last_itow last_raw_counts i value last_value record :
  position (_status self) = Some p →
  _last_geiger_counter_packet self = Some (last_itow, last_raw_counts) →
  (i < MAX_GEIGER_TUBE_COUNT)%nat →
  raw_counts !! i = Some value →
  last_raw_counts !! i = Some last_value →
  ∃ writes,
    (update_geiger_counter self pos itow dose (Some raw_counts) mutator).2
    = mutator ++ writes
    ∧ (record ∈ written {| owner := id self; name := rate i |} writes
       ↔ (update_geiger_counter self pos itow dose (Some raw_counts) mutator).1.1
         = Return tt
         ∧ ∃ dt x,
             elapsed_seconds itow last_itow = Return dt
             ∧ float_gt_zero dt = true
             ∧ last_value < value
             ∧ int_truediv_float (value - last_value) dt = Return x
             ∧ record = with_value (pos_data_of p) (VFloat x)
             ∧ record !! "value" = Some (VFloat x)
             ∧ record !! "lat" = Some (VFloat (lat p))
             ∧ record !! "lon" = Some (VFloat (lon p))
             ∧ record !! "amsl" = VFloat <$> amsl p
             ∧ record !! "agl" = VFloat <$> agl p)
    ∧ ∀ j, (MAX_GEIGER_TUBE_COUNT ≤ j)%nat →
           written {| owner := id self; name := rate j |} writes = [].
Proof.
  intros Hp Hlast Hi Hvalue Hlast_value.
  exists (geiger_writes self p itow dose raw_counts).
  split; [by apply update_geiger_counter_writes|].
  rewrite (update_geiger_counter_returns _ _ _ _ _ _ p) by done. split.
  - rewrite rate_written. unfold geiger_rate_values. rewrite Hlast. split.
    + intros (values & v & Hvalues & _ & Hv & ->).
      split; [eauto|].
      destruct (elapsed_seconds itow last_itow) as [dt|e]; [|done].
      destruct (float_gt_zero dt) eqn:Hdt;
        [|injection Hvalues as <-; by rewrite lookup_nil in Hv].
      apply (geiger_rates_lookup _ _ _ i (Some v) Hvalues) in Hv
        as (value' & last_value' & Hpair & Hrate).
      apply lookup_zip_with_Some in Hpair as (? & ? & [= <- <-] & ? & ?).
      simplify_eq.
      apply geiger_rate_Some in Hrate as (Hinc & x & Hx & ->).
      exists dt, x.
      destruct (with_value_lookup p (VFloat x)) as (? & ? & ? & ? & ?).
      split_and!; done.
    + intros ([values Hvalues] & dt & x & Hdt & Hpos & Hinc & Hx & -> & _).
      rewrite Hdt, Hpos in Hvalues |- *.
      exists values, (VFloat x). split_and!; [done..| |done].
      apply (geiger_rates_lookup _ _ _ i (Some (VFloat x)) Hvalues).
      exists value, last_value. split.
      * apply lookup_zip_with_Some. eauto.
      * apply geiger_rate_Some. eauto.
  - intros j Hj. apply elem_of_nil_inv. intros record'.
    rewrite rate_written. intros (? & ? & _ & Hlt & _). lia.
Qed.

Lemma geiger_rate_written_iff_increase_witness :
  ∃ writes record,
    (update_geiger_counter example_uav None 2000 None (Some [150]) []).2
    = [] ++ writes
    ∧ record ∈ written {| owner := "07"; name := rate 0 |} writes
    ∧ record !! "value" = Some (VFloat (S754_finite false 7036874417766400 (-47)))
    ∧ record !! "lat" = Some (VFloat (float_of_Z 47))
    ∧ record !! "lon" = Some (VFloat (float_of_Z 19))
    ∧ record !! "amsl" = Some (VFloat (float_of_Z 120))
    ∧ record !! "agl" = None.
Proof.
  destruct (geiger_rate_written_iff_increase example_uav None 2000 None [150] []
              example_position 1000 [100] 0%nat 150 100
              (with_value (pos_data_of example_position) (VFloat (float_of_Z 50))))
    as (writes & Hwrites & Hiff & _).
  - reflexivity.
  - reflexivity.
  - unfold MAX_GEIGER_TUBE_COUNT. lia.
  - reflexivity.
  - reflexivity.
  - exists writes, (with_value (pos_data_of example_position) (VFloat (float_of_Z 50))).
    split; [exact Hwrites|]. split; [|split_and!; vm_compute; reflexivity].
    apply Hiff. split; [vm_compute; reflexivity|].
    exists (float_of_Z 1), (float_of_Z 50).
    split_and!; vm_compute; reflexivity.
Defined.

(** C2, as the spec has it, fails: with the previous count 100 at time
    1000 and the same count 100 at time 2000, the elapsed time is
    positive and the new count is not less than the previous one, but
    nothing is written to the rate channel. *)
Lemma equal_count_leaves_rate_unwritten :
  (∃ dt, elapsed_seconds 2000 1000 = Return dt ∧ float_gt_zero dt = true)
  ∧ ¬ 100 < 100
  ∧ (update_geiger_counter example_uav None 2000 None (Some [100]) []).1.1
    = Return tt
  ∧ written {| owner := "07"; name := rate 0 |}
      (update_geiger_counter example_uav None 2000 None (Some [100]) []).2
    = [].
Proof.
  split_and!.
  - exists (float_of_Z 1). split; vm_compute; reflexivity.
  - lia.
  - vm_compute. reflexivity.
  - vm_compute. reflexivity.
Qed.

(** The two cases of the scenario of the spec: [dt] is [1.0] and the
    rate written is [50.0]; a decreased count writes nothing. *)
Example rate_scenario_increase :
  elapsed_seconds 2000 1000 = Return (S754_finite false 4503599627370496 (-52))
  ∧ (λ record, record !! "value") <$>
      written {| owner := "07"; name := rate 0 |}
        (update_geiger_counter example_uav None 2000 None (Some [150]) []).2
    = [Some (VFloat (S754_finite false 7036874417766400 (-47)))].
Proof. split; vm_compute; reflexivity. Qed.

Example rate_scenario_decrease :
  written {| owner := "07"; name := rate 0 |}
    (update_geiger_counter example_uav None 2000 None (Some [90]) []).2
  = [].
Proof. vm_compute. reflexivity. Qed.

(** The divisions round as those of Python do: 1000 counts in 3 seconds
    are [333.3333333333333] counts a second, and 9 counts in 9
    milliseconds are [1000.0000000000001].  The quotient of two [int]s
    is rounded once: 649217969729485764 milliseconds are
    [649217969729485.8] seconds, and not the [float] above it that
    dividing the rounded operands would give. *)
Example rate_is_rounded :
  elapsed_seconds 3000 0 = Return (float_of_Z 3)
  ∧ int_truediv_float 1000 (float_of_Z 3)
    = Return (S754_finite false 5864062014805333 (-44))
  ∧ elapsed_seconds 9 0 = Return (S754_finite false 5188146770730811 (-59))
  ∧ int_truediv_float 9 (S754_finite false 5188146770730811 (-59))
    = Return (S754_finite false 8796093022208001 (-43))
  ∧ elapsed_seconds 649217969729485764 0
    = Return (S754_finite false 5193743757835886 (-3))
  ∧ float_truediv (float_of_Z 649217969729485764) (float_of_Z 1000)
    = Return (S754_finite false 5193743757835887 (-3)).
Proof. split_and!; vm_compute; reflexivity. Qed.

(** C10: on a vehicle whose stored position is [None], neither
    [update_geiger_counter] nor [update_detected_features] calls
    [mutator.update], and the retained Geiger counter sample stays as it
    is; when the position is known, every record that
    [update_geiger_counter] writes carries the stored position under the
    keys [lat], [lon], [amsl] and [agl]; and the position passed as an
    argument never matters. *)
Theorem sensor_updates_use_stored_position self pos itow dose raw_counts
    features mutator :
  match position (_status self) with
  | None =>
      update_geiger_counter self pos itow dose raw_counts mutator
      = (Return tt, self, mutator)
      ∧ update_detected_features self itow features mutator = (Return tt, mutator)
  | Some stored =>
      ∃ writes,
        (update_geiger_counter self pos itow dose raw_counts mutator).2
        = mutator ++ writes
        ∧ writes ≠ []
        ∧ Forall (λ w, delete "value" w.2 = pos_data_of stored
                       ∧ w.2 !! "lat" = Some (VFloat (lat stored))
                       ∧ w.2 !! "lon" = Some (VFloat (lon stored))
                       ∧ w.2 !! "amsl" = VFloat <$> amsl stored
                       ∧ w.2 !! "agl" = VFloat <$> agl stored) writes
  end
  ∧ ∀ pos', update_geiger_counter self pos' itow dose raw_counts mutator
            = update_geiger_counter self pos itow dose raw_counts mutator.
Proof.
  split; [|done].
  destruct (position (_status self)) as [stored|] eqn:Hp.
  - assert (∀ v, let w := with_value (pos_data_of stored) v in
                 delete "value" w = pos_data_of stored
                 ∧ w !! "lat" = Some (VFloat (lat stored))
                 ∧ w !! "lon" = Some (VFloat (lon stored))
                 ∧ w !! "amsl" = VFloat <$> amsl stored
                 ∧ w !! "agl" = VFloat <$> agl stored) as Htag.
    { intros v. destruct (with_value_lookup stored v) as (_ & ? & ? & ? & ?).
      pose proof (delete_with_value stored v). split_and!; done. }
    destruct raw_counts as [raw_counts|].
    + exists (geiger_writes self stored itow dose raw_counts).
      split; [by apply update_geiger_counter_writes|].
      split; [done|].
      unfold geiger_writes. rewrite !Forall_app. split_and!.
      * repeat constructor; apply Htag.
      * apply Forall_fmap, Forall_forall. intros dv _. apply Htag.
      * destruct (geiger_rate_values self itow raw_counts) as [values|e];
          [|by constructor].
        apply Forall_forall. intros [ch record] Hin.
        apply elem_of_update_channels_if_some in Hin as (? & ? & _ & _ & ->).
        apply Htag.
    + exists [(geiger_counter_dose_rate self,
               with_value (pos_data_of stored) (option_float dose))].
      unfold update_geiger_counter. rewrite Hp. split_and!; [done..|].
      repeat constructor; apply Htag.
  - unfold update_geiger_counter, update_detected_features. by rewrite Hp.
Qed.

(** The position passed to [update_geiger_counter] is ignored: the
    vehicle is at latitude 47 and longitude 19, the argument says 1 and
    2, and the records carry 47 and 19. *)
Example geiger_records_carry_stored_position :
  (λ w, (name w.1, w.2 !! "lat", w.2 !! "lon", w.2 !! "amsl", w.2 !! "agl")) <$>
    (update_geiger_counter example_uav
       (Some {| lat := float_of_Z 1; lon := float_of_Z 2; amsl := None;
                agl := Some (float_of_Z 3) |})
       2000 None (Some [150]) []).2
  = (λ c, (c, Some (VFloat (float_of_Z 47)), Some (VFloat (float_of_Z 19)),
           Some (VFloat (float_of_Z 120)), None))
      <$> [dose_rate; raw_count 0; rate 0].
Proof. vm_compute. reflexivity. Qed.

End Sensors.

(** ** The reverse index of the driver *)

Section ReverseIndex.

Implicit Types (d : FlockCtrlDriver) (uav : nat) (medium addr : string).

Lemma check_or_record_uav_address_unfold uav medium addr d :
  _check_or_record_uav_address uav medium addr d
  = match uavs d !! uav with
    | None => (Raise InvalidReference, d)
    | Some u =>
        match check_or_record_address medium addr u with
        | (Return _, u') =>
            (Return tt,
             set_uavs_by_source_address (set_uavs d (<[uav := u']> (uavs d)))
               (<[(medium, addr) := uav]> (_uavs_by_source_address d)))
        | (Raise e, u') => (Raise e, set_uavs d (<[uav := u']> (uavs d)))
        end
    end.
Proof.
  unfold _check_or_record_uav_address, on_uav. unfold_M.
  destruct (uavs d !! uav) as [u|]; [|done].
  by destruct (check_or_record_address medium addr u) as [[[]|e] u'].
Qed.

Lemma check_or_record_address_keeps self medium addr m a :
  addresses self !! m = Some a →
  addresses (check_or_record_address medium addr self).2 !! m = Some a.
Proof. intros Hm. by rewrite check_or_record_address_lookup, Hm. Qed.

Lemma check_or_record_address_raises self medium addr e self' :
  check_or_record_address medium addr self = (Raise e, self') →
  self' = self
  ∧ ∃ current, addresses self !! medium = Some current ∧ current ≠ addr.
Proof.
  unfold check_or_record_address.
  destruct (addresses self !! medium) as [current|]; [|done].
  case_decide; [|done]. intros [= <- <-]. eauto.
Qed.

Lemma check_or_record_address_returns self medium addr self' :
  check_or_record_address medium addr self = (Return tt, self') →
  addresses self' !! medium = Some addr
  ∧ (addresses self !! medium = None ∨ addresses self !! medium = Some addr).
Proof.
  unfold check_or_record_address.
  destruct (addresses self !! medium) as [current|] eqn:Hcur.
  - case_decide as Hne; [done|]. intros [= <-].
    subst current. auto.
  - intros [= <-]. simpl. rewrite lookup_insert_eq. auto.
Qed.

(** C4, as the code has it: after an attempt to record an address every
    entry of the reverse index still agrees with the address map of the
    vehicle that it names; the entry of [(medium, address)] is set to
    the vehicle exactly when the attempt does not raise, which is when
    the vehicle had no address for the medium or had this one; and an
    attempt that raises leaves the reverse index as it was. *)
Theorem reverse_index_follows_successful_attempts uav medium addr d :
  index_agrees d →
  index_agrees (_check_or_record_uav_address uav medium addr d).2
  ∧ _uavs_by_source_address (_check_or_record_uav_address uav medium addr d).2
    = match (_check_or_record_uav_address uav medium addr d).1 with
      | Return _ => <[(medium, addr) := uav]> (_uavs_by_source_address d)
      | Raise _ => _uavs_by_source_address d
      end
  ∧ ((_check_or_record_uav_address uav medium addr d).1 = Return tt
     ↔ ∃ u, uavs d !! uav = Some u
            ∧ (addresses u !! medium = None ∨ addresses u !! medium = Some addr)).
Proof.
  intros Hagree. rewrite check_or_record_uav_address_unfold.
  destruct (uavs d !! uav) as [u|] eqn:Hu; simpl.
  2: { split_and!; [done..|]. split; [done|]. by intros (? & [=] & _). }
  destruct (check_or_record_address medium addr u) as [[[]|e] u'] eqn:Hcheck; simpl.
  - apply check_or_record_address_returns in Hcheck as Hret.
    destruct Hret as [Hnew Hold]. split_and!; [|done|split; [by eauto|done]].
    intros m a r. simpl. destruct (decide ((medium, addr) = (m, a))) as [[= <- <-]|Hne].
    + rewrite lookup_insert_eq. intros [= <-]. exists u'. split; [|done].
      apply list_lookup_insert_eq. by eapply lookup_lt_Some.
    + rewrite lookup_insert_ne by done. intros (ur & Hur & Ha)%Hagree.
      destruct (decide (uav = r)) as [<-|Hr].
      * exists u'. split; [apply list_lookup_insert_eq; by eapply lookup_lt_Some|].
        assert (ur = u) as -> by congruence.
        replace u' with (check_or_record_address medium addr u).2
          by (by rewrite Hcheck).
        by apply check_or_record_address_keeps.
      * exists ur. by rewrite list_lookup_insert_ne.
  - apply check_or_record_address_raises in Hcheck as [-> (current & Hcur & Hne)].
    rewrite list_insert_id, set_uavs_id by done. split_and!; [done..|].
    split; [done|]. intros (? & [= <-] & [?|?]); congruence.
Qed.

Lemma reverse_index_follows_successful_attempts_witness :
  index_agrees (_check_or_record_uav_address 0 "wireless" "addrA"
                  (driver_with_vehicle "07")).2
  ∧ _uavs_by_source_address
      (_check_or_record_uav_address 0 "wireless" "addrA"
         (driver_with_vehicle "07")).2
    = {[ ("wireless", "addrA") := 0%nat ]}.
Proof.
  assert (index_agrees (driver_with_vehicle "07")) as Hagree.
  { intros medium addr uav Hin. vm_compute in Hin. discriminate. }
  destruct (reverse_index_follows_successful_attempts 0 "wireless" "addrA"
              (driver_with_vehicle "07") Hagree) as (Hafter & Hindex & _).
  split; [exact Hafter | exact Hindex].
Defined.

(** C4, as the spec has it, fails: the status packets of two vehicles
    have arrived from the same source, so the reverse index names the
    second vehicle although the first one holds the address too; when
    the first one records the address again, as for its next status
    packet, no address map accepts a new address, and yet the reverse
    index changes. *)
Lemma repeated_address_changes_reverse_index :
  addresses <$> uavs driver_with_shared_address !! 0%nat
    = Some {[ "wireless" := "addrA" ]}
  ∧ _uavs_by_source_address driver_with_shared_address !! ("wireless", "addrA")
    = Some 1%nat
  ∧ (_check_or_record_uav_address 0 "wireless" "addrA"
       driver_with_shared_address).1 = Return tt
  ∧ uavs (_check_or_record_uav_address 0 "wireless" "addrA"
            driver_with_shared_address).2
    = uavs driver_with_shared_address
  ∧ _uavs_by_source_address
      (_check_or_record_uav_address 0 "wireless" "addrA"
         driver_with_shared_address).2 !! ("wireless", "addrA")
    = Some 0%nat
  ∧ _uavs_by_source_address
      (@step example_externals driver_with_shared_address
         (PacketReceived (FlockCtrlStatusPacket 1 None None None None 0)
            ("wireless", "addrA"))) !! ("wireless", "addrA")
    = Some 0%nat.
Proof. split_and!; vm_compute; reflexivity. Qed.

End ReverseIndex.

(** ** Commands and their responses *)

Section Commands.

Context `{Externals}.

Implicit Types (d : FlockCtrlDriver) (uav future : nat) (u : FlockCtrlUAV).

Lemma first_known_address_none media u :
  (∀ medium, medium ∈ media → addresses u !! medium = None) →
  first_known_address media u = None.
Proof.
  induction media as [|medium rest IH]; intros Hnone; [done|]. simpl.
  rewrite (Hnone medium) by apply list_elem_of_here.
  apply IH. intros m Hm. apply Hnone. by apply list_elem_of_further.
Qed.

Lemma on_uav_preferred_address uav u d :
  uavs d !! uav = Some u →
  on_uav uav preferred_address d
  = match first_known_address supported_media u with
    | Some a => (Return a, d)
    | None =>
        (Raise (ValueError
           "UAV has no address yet in any of the supported communication media"),
         d)
    end.
Proof.
  intros Hu. unfold on_uav, preferred_address. rewrite Hu.
  destruct (first_known_address supported_media u);
    by rewrite list_insert_id, set_uavs_id.
Qed.

(** C8: a command for a vehicle that has no address on any supported
    medium raises [ValueError] at once: no packet is sent, no future is
    created, and the state of the driver is exactly what it was. *)
Theorem command_without_address_fails_first command uav u d :
  uavs d !! uav = Some u →
  (∀ medium, medium ∈ supported_media → addresses u !! medium = None) →
  _send_command_to_uav_begin command uav d
  = (Raise (ValueError "Address of UAV is not known yet"), d).
Proof.
  intros Hu Hnone.
  unfold _send_command_to_uav_begin, _send_command_to_uav_send. unfold_M.
  rewrite (on_uav_preferred_address uav u) by done.
  by rewrite first_known_address_none.
Qed.

(** The first part of the coroutine sends the packet whatever commands
    are pending. *)
Lemma send_command_to_uav_send_known command uav u medium addr d :
  uavs d !! uav = Some u →
  first_known_address supported_media u = Some (medium, addr) →
  _send_command_to_uav_send command uav d
  = (Return tt,
     set_sent d (sent d ++ [(FlockCtrlCommandRequestPacket (utf8_encode command),
                             (medium, addr))])).
Proof.
  intros Hu Haddr. unfold _send_command_to_uav_send, _send_command_to_address,
    send_packet. unfold_M.
  rewrite (on_uav_preferred_address uav u) by done. by rewrite Haddr.
Qed.

(** In strict mode, a second command is refused only after its packet
    has been sent. *)
Lemma strict_second_command command uav u medium addr pending d :
  uavs d !! uav = Some u →
  first_known_address supported_media u = Some (medium, addr) →
  allow_multiple_commands_per_uav d = false →
  _pending_commands_by_uav d !! id u = Some pending →
  _send_command_to_uav_begin command uav d
  = (Raise (CommandAlreadyInProgress (id u)),
     set_sent d (sent d ++ [(FlockCtrlCommandRequestPacket (utf8_encode command),
                             (medium, addr))])).
Proof.
  intros Hu Haddr Hstrict Hpending. unfold _send_command_to_uav_begin.
  unfold mbind at 1. unfold M_bind, bind.
  rewrite (send_command_to_uav_send_known command uav u medium addr) by done.
  unfold _send_command_to_uav_enter, FutureMap_new_enter, get_uav. unfold_M.
  simpl. rewrite Hu. simpl. by rewrite Hpending, Hstrict.
Qed.

(** C9: when the future of a pending command has been cancelled, the
    coroutine that waits for it returns ["Execution cancelled"]; no
    exception leaves the wait. *)
Theorem cancelled_command_returns_sentinel key future d :
  futures d !! future = Some FutureWasCancelled →
  _send_command_to_uav_resume key future d
  = (Return (Some "Execution cancelled"), (FutureMap_new_exit key future d).2).
Proof.
  intros Hcancelled. unfold _send_command_to_uav_resume, Future_wait. unfold_M.
  by rewrite Hcancelled.
Qed.

(** A command that is preempted in the default mode is cancelled. *)
Lemma preempted_future_is_cancelled uav u old d :
  uavs d !! uav = Some u →
  allow_multiple_commands_per_uav d = true →
  _pending_commands_by_uav d !! id u = Some old →
  futures d !! old = Some FuturePending →
  ∃ d', _send_command_to_uav_enter uav d = (Return (id u, length (futures d)), d')
        ∧ futures d' !! old = Some FutureWasCancelled
        ∧ _pending_commands_by_uav d' !! id u = Some (length (futures d)).
Proof.
  intros Hu Hlenient Hold Hpending.
  unfold _send_command_to_uav_enter, FutureMap_new_enter, Future_cancel, get_uav.
  unfold_M. simpl. rewrite Hu. simpl. rewrite Hlenient, Hold. simpl.
  rewrite !length_alter. eexists. split; [done|]. simpl. split.
  - rewrite lookup_app_l by (rewrite length_alter; by eapply lookup_lt_Some).
    by rewrite list_lookup_alter_eq, Hpending.
  - by rewrite lookup_insert_eq.
Qed.

End Commands.

Lemma command_without_address_fails_first_witness :
  @_send_command_to_uav_begin example_externals "land" 0 (driver_with_vehicle "07")
  = (Raise (ValueError "Address of UAV is not known yet"), driver_with_vehicle "07").
Proof.
  apply (@command_without_address_fails_first example_externals "land" 0%nat
           (new_FlockCtrlUAV "07") (driver_with_vehicle "07")).
  - reflexivity.
  - intros medium Hin. vm_compute. reflexivity.
Defined.

Lemma cancelled_command_returns_sentinel_witness :
  (_send_command_to_uav_resume "07" 0
     (@_send_command_to_uav_begin example_externals "rth" 0 lenient_driver_busy).2).1
  = Return (Some "Execution cancelled").
Proof.
  rewrite cancelled_command_returns_sentinel; reflexivity.
Defined.

(** C1, on the code: in strict mode, while the command [land] is pending
    for a vehicle, a second command [rth] for it is refused with
    [CommandAlreadyInProgress], but its packet has been sent to the
    vehicle by then.  The first command stays pending, and a response
    still completes it. *)
Theorem strict_second_command_is_transmitted :
  _pending_commands_by_uav strict_driver_busy !! "07" = Some 0%nat
  ∧ (@_send_command_to_uav_begin example_externals "rth" 0 strict_driver_busy).1
    = Raise (CommandAlreadyInProgress "07")
  ∧ sent (@_send_command_to_uav_begin example_externals "rth" 0 strict_driver_busy).2
    = sent strict_driver_busy
      ++ [(FlockCtrlCommandRequestPacket (list_byte_of_string "rth"),
           ("wireless", "addrA"))]
  ∧ _pending_commands_by_uav
      (@_send_command_to_uav_begin example_externals "rth" 0 strict_driver_busy).2
    = _pending_commands_by_uav strict_driver_busy
  ∧ futures (@_send_command_to_uav_begin example_externals "rth" 0 strict_driver_busy).2
    = [FuturePending]
  ∧ ((@_on_chunked_packet_assembled example_externals (list_byte_of_string "ok")
        ("wireless", "addrA");;
      _send_command_to_uav_resume "07" 0)
       (@_send_command_to_uav_begin example_externals "rth" 0 strict_driver_busy).2).1
    = Return (Some "ok").
Proof. split_and!; vm_compute; reflexivity. Qed.

(** ** Responses without a pending command, and packet dispatch *)

Section Dispatch.

Context `{Externals}.

Implicit Types (d : FlockCtrlDriver) (p : packet) (src : string * string).

(** C7: a reassembled response whose source belongs to no vehicle, or
    whose vehicle has no pending command, is dropped: the handler
    returns without raising and appends one warning to the log, which
    names the source or the vehicle; nothing else changes, so that the
    pending commands and the futures of all vehicles are what they
    were, and nothing is sent. *)
Theorem stale_response_is_dropped body src d :
  (_uavs_by_source_address d !! src = None
   ∨ ∃ uav u, _uavs_by_source_address d !! src = Some uav
              ∧ uavs d !! uav = Some u
              ∧ _pending_commands_by_uav d !! id u = None) →
  ∃ warning,
    _on_chunked_packet_assembled body src d
    = (Return tt, set_log d (log d ++ [warning]))
    ∧ (_on_chunked_packet_assembled body src d).1 = Return tt
    ∧ log (_on_chunked_packet_assembled body src d).2 = log d ++ [warning]
    ∧ match _uavs_by_source_address d !! src with
      | None => warning = warn_no_corresponding_uav src
      | Some uav =>
          ∃ u, uavs d !! uav = Some u ∧ warning = warn_stale_command_response (id u)
      end
    ∧ _pending_commands_by_uav (_on_chunked_packet_assembled body src d).2
      = _pending_commands_by_uav d
    ∧ futures (_on_chunked_packet_assembled body src d).2 = futures d
    ∧ sent (_on_chunked_packet_assembled body src d).2 = sent d
    ∧ uavs (_on_chunked_packet_assembled body src d).2 = uavs d
    ∧ _uavs_by_source_address (_on_chunked_packet_assembled body src d).2
      = _uavs_by_source_address d.
Proof.
  unfold _on_chunked_packet_assembled, FutureMap_getitem, get_uav, warn.
  unfold_M. intros [Hnone|(uav & u & Hsrc & Hu & Hpending)].
  - rewrite Hnone. simpl. eexists. split_and!; reflexivity.
  - rewrite Hsrc. simpl. rewrite Hu. simpl. rewrite Hpending. simpl.
    rewrite Hu. simpl. eexists. split_and!; try reflexivity. eauto.
Qed.

Lemma dict_get_packet_handlers_None (c : packet_class) :
  dict_get _configure_packet_handlers c = None ↔ c ∉ known_packet_classes.
Proof.
  unfold known_packet_classes. split.
  - intros Hnone Hin.
    repeat (apply elem_of_cons in Hin as [->|Hin]; [by simpl in Hnone|]).
    by apply elem_of_nil in Hin.
  - intros Hnotin.
    destruct c; try (by simpl); exfalso; apply Hnotin; set_solver.
Qed.

(** The handler of each class of packets. *)
Lemma handle_inbound_packet_cases p src d :
  match p with
  | FlockCtrlStatusPacket _ _ _ _ _ _ =>
      handle_inbound_packet p src d = _handle_inbound_status_packet p src d
  | FlockCtrlPrearmStatusPacket | FlockCtrlMissionInfoPacket =>
      handle_inbound_packet p src d = nop p src d
  | FlockCtrlCompressedCommandResponsePacket _ _
  | FlockCtrlCommandResponsePacket _ _ =>
      handle_inbound_packet p src d
      = _handle_inbound_command_response_packet p src d
  | FlockCtrlAlgorithmDataPacket _ _ =>
      handle_inbound_packet p src d
      = _handle_inbound_algorithm_data_packet p src d
  | FlockCtrlCommandRequestPacket _ | OtherPacket _ =>
      handle_inbound_packet p src d
      = warn (warn_no_packet_handler (class_name_of p)) d
  end.
Proof. by destruct p. Qed.

(** C6: a packet whose class has no entry in the table of handlers is
    dropped: [handle_inbound_packet] returns without raising, appends to
    the log one warning that names the class of the packet, and calls no
    handler, so that nothing else changes; a packet whose class has an
    entry is passed to the handler of the entry, and that is all.  The
    classes with an entry are the six that [_configure_packet_handlers]
    lists. *)
Theorem unhandled_packets_are_dropped p src d :
  (dict_get _configure_packet_handlers (class_of p) = None
   ↔ class_of p ∉ known_packet_classes)
  ∧ (dict_get _configure_packet_handlers (class_of p) = None →
     handle_inbound_packet p src d
     = (Return tt, set_log d (log d ++ [warn_no_packet_handler (class_name_of p)]))
     ∧ (handle_inbound_packet p src d).1 = Return tt
     ∧ log (handle_inbound_packet p src d).2
       = log d ++ [warn_no_packet_handler (class_name_of p)]
     ∧ sent (handle_inbound_packet p src d).2 = sent d
     ∧ uavs (handle_inbound_packet p src d).2 = uavs d
     ∧ uav_registry (handle_inbound_packet p src d).2 = uav_registry d
     ∧ _index_to_uav_id (handle_inbound_packet p src d).2 = _index_to_uav_id d
     ∧ _uavs_by_source_address (handle_inbound_packet p src d).2
       = _uavs_by_source_address d
     ∧ _pending_commands_by_uav (handle_inbound_packet p src d).2
       = _pending_commands_by_uav d
     ∧ futures (handle_inbound_packet p src d).2 = futures d
     ∧ _packet_assembler (handle_inbound_packet p src d).2 = _packet_assembler d
     ∧ uav_inf_requests (handle_inbound_packet p src d).2 = uav_inf_requests d
     ∧ device_tree (handle_inbound_packet p src d).2 = device_tree d)
  ∧ (∀ handler, dict_get _configure_packet_handlers (class_of p) = Some handler →
     handle_inbound_packet p src d = handler p src d)
  ∧ match p with
    | FlockCtrlStatusPacket _ _ _ _ _ _ =>
        handle_inbound_packet p src d = _handle_inbound_status_packet p src d
    | FlockCtrlPrearmStatusPacket | FlockCtrlMissionInfoPacket =>
        handle_inbound_packet p src d = nop p src d
    | FlockCtrlCompressedCommandResponsePacket _ _
    | FlockCtrlCommandResponsePacket _ _ =>
        handle_inbound_packet p src d
        = _handle_inbound_command_response_packet p src d
    | FlockCtrlAlgorithmDataPacket _ _ =>
        handle_inbound_packet p src d
        = _handle_inbound_algorithm_data_packet p src d
    | FlockCtrlCommandRequestPacket _ | OtherPacket _ =>
        handle_inbound_packet p src d
        = (Return tt,
           set_log d (log d ++ [warn_no_packet_handler (class_name_of p)]))
        ∧ log (handle_inbound_packet p src d).2
          = log d ++ [warn_no_packet_handler (class_name_of p)]
    end.
Proof.
  split_and!.
  - apply dict_get_packet_handlers_None.
  - intros Hnone. unfold handle_inbound_packet. rewrite Hnone.
    split_and!; reflexivity.
  - intros handler Hsome. unfold handle_inbound_packet. by rewrite Hsome.
  - pose proof (handle_inbound_packet_cases p src d) as Hcases.
    destruct p; try done; rewrite Hcases; split; reflexivity.
Qed.

End Dispatch.

Lemma stale_response_is_dropped_witness :
  (@_on_chunked_packet_assembled example_externals (list_byte_of_string "ok")
     ("wireless", "addrA") strict_driver).1 = Return tt
  ∧ log (@_on_chunked_packet_assembled example_externals (list_byte_of_string "ok")
           ("wireless", "addrA") strict_driver).2
    = [warn_stale_command_response "07"]
  ∧ _pending_commands_by_uav
      (@_on_chunked_packet_assembled example_externals (list_byte_of_string "ok")
         ("wireless", "addrA") strict_driver).2
    = ∅.
Proof.
  destruct (@stale_response_is_dropped example_externals (list_byte_of_string "ok")
              ("wireless", "addrA") strict_driver)
    as (warning & _ & Hreturn & Hlog & Hwarning & Hpending & _).
  - right. exists 0%nat, (set_addresses (new_FlockCtrlUAV "07")
                                        {[ "wireless" := "addrA" ]}).
    split_and!; vm_compute; reflexivity.
  - split; [exact Hreturn|]. split.
    + rewrite Hlog.
      change (_uavs_by_source_address strict_driver !! ("wireless", "addrA"))
        with (Some 0%nat) in Hwarning.
      destruct Hwarning as (u & Hu & ->).
      injection Hu as <-. reflexivity.
    + rewrite Hpending. reflexivity.
Defined.

Lemma unhandled_packets_are_dropped_witness :
  (@handle_inbound_packet example_externals (OtherPacket "FlockCtrlClockSyncPacket")
     ("wireless", "addrA") strict_driver).1 = Return tt
  ∧ log (@handle_inbound_packet example_externals
           (OtherPacket "FlockCtrlClockSyncPacket") ("wireless", "addrA")
           strict_driver).2
    = [warn_no_packet_handler "FlockCtrlClockSyncPacket"]
  ∧ sent (@handle_inbound_packet example_externals
            (OtherPacket "FlockCtrlClockSyncPacket") ("wireless", "addrA")
            strict_driver).2
    = [].
Proof.
  destruct (@unhandled_packets_are_dropped example_externals
              (OtherPacket "FlockCtrlClockSyncPacket") ("wireless", "addrA")
              strict_driver) as (_ & Hdrop & _).
  destruct (Hdrop eq_refl) as (_ & Hreturn & Hlog & Hsent & _).
  split; [exact Hreturn|]. split.
  - rewrite Hlog. reflexivity.
  - rewrite Hsent. reflexivity.
Defined.

(** ** The identifiers of the vehicles *)

Section Identifiers.

Context `{Externals}.

Implicit Types (d : FlockCtrlDriver) (n : Z) (uav : nat).

Lemma session_keeps_refl d : session_keeps d d.
Proof. split_and!; eauto. Qed.

Lemma session_keeps_trans d1 d2 d3 :
  session_keeps d1 d2 → session_keeps d2 d3 → session_keeps d1 d3.
Proof.
  intros (Hc1 & Hu1 & Hw1) (Hc2 & Hu2 & Hw2). split_and!; [eauto| |eauto].
  intros uav u (u' & Hu' & <-)%Hu1. apply Hu2 in Hu' as (u'' & ? & <-). eauto.
Qed.

Lemma keeps_ret {A} (a : A) : keeps (mret a).
Proof. intros d. apply session_keeps_refl. Qed.

Lemma keeps_raise {A} e : keeps (raise (A := A) e).
Proof. intros d. apply session_keeps_refl. Qed.

Lemma keeps_gets {A} (f : FlockCtrlDriver → A) : keeps (gets f).
Proof. intros d. apply session_keeps_refl. Qed.

Lemma keeps_bind {A B} (m : M FlockCtrlDriver A) (k : A → M FlockCtrlDriver B) :
  keeps m → (∀ a, keeps (k a)) → keeps (m ≫= k).
Proof.
  intros Hm Hk d. unfold_M. specialize (Hm d).
  destruct (m d) as [[a|e] d']; [|done].
  eapply session_keeps_trans; [done|apply Hk].
Qed.

Lemma keeps_try_except {A} (m : M FlockCtrlDriver A) h :
  keeps m → (∀ e k, h e = Some k → keeps k) → keeps (try_except m h).
Proof.
  intros Hm Hh d. unfold try_except. specialize (Hm d).
  destruct (m d) as [[a|e] d']; [done|].
  destruct (h e) as [k|] eqn:Hk; [|done].
  eapply session_keeps_trans; [done|by eapply Hh].
Qed.

Lemma keeps_modify (f : FlockCtrlDriver → FlockCtrlDriver) :
  (∀ d, _index_to_uav_id (f d) = _index_to_uav_id d) →
  (∀ d, uavs (f d) = uavs d) →
  (∀ d, uav_registry (f d) = uav_registry d) →
  keeps (modify f).
Proof.
  intros Hc Hu Hr d. unfold modify, session_keeps, registry_wf. simpl.
  rewrite Hc, Hu, Hr. split_and!; eauto.
Qed.

Lemma session_keeps_insert_uav d uav u u' :
  uavs d !! uav = Some u → id u' = id u →
  session_keeps d (set_uavs d (<[uav := u']> (uavs d))).
Proof.
  intros Hu Hid. pose proof (lookup_lt_Some _ _ _ Hu) as Hlt.
  split_and!; [done|..].
  - intros r ur Hr. simpl. destruct (decide (uav = r)) as [<-|Hne].
    + exists u'. rewrite list_lookup_insert_eq by done. split; congruence.
    + exists ur. by rewrite list_lookup_insert_ne.
  - intros Hwf key r (ur & Hr & <-)%Hwf. simpl.
    destruct (decide (uav = r)) as [<-|Hne].
    + exists u'. rewrite list_lookup_insert_eq by done. split; congruence.
    + exists ur. by rewrite list_lookup_insert_ne.
Qed.

Lemma keeps_on_uav {A} uav (m : M FlockCtrlUAV A) :
  (∀ u, id (m u).2 = id u) → keeps (on_uav uav m).
Proof.
  intros Hid d. unfold on_uav.
  destruct (uavs d !! uav) as [u|] eqn:Hu; [|apply session_keeps_refl].
  specialize (Hid u). destruct (m u) as [o u']. simpl.
  by eapply session_keeps_insert_uav.
Qed.

Lemma keeps_get_uav uav : keeps (get_uav uav).
Proof.
  intros d. unfold get_uav. destruct (uavs d !! uav); apply session_keeps_refl.
Qed.

Lemma keeps_warn r : keeps (warn r).
Proof. by apply keeps_modify. Qed.

(** What [_get_or_create_uav] does, case by case. *)
Lemma get_or_create_uav_unfold n d :
  let formatted_id :=
    match _index_to_uav_id d !! n with
    | Some cached => cached
    | None => make_valid_uav_id (format (id_format d) n)
    end in
  let d1 :=
    match _index_to_uav_id d !! n with
    | Some _ => d
    | None => set_index_to_uav_id d (<[n := formatted_id]> (_index_to_uav_id d))
    end in
  _get_or_create_uav n d
  = match uav_registry d !! formatted_id with
    | Some uav => (Return uav, d1)
    | None =>
        (Return (length (uavs d)),
         set_uav_registry (set_uavs d1 (uavs d ++ [new_FlockCtrlUAV formatted_id]))
           (<[formatted_id := length (uavs d)]> (uav_registry d)))
    end.
Proof.
  unfold _get_or_create_uav, uav_registry_contains, uav_registry_add,
    uav_registry_find_by_id, _create_uav, get_uav.
  unfold_M. simpl.
  destruct (_index_to_uav_id d !! n) as [cached|]; simpl;
    (destruct (uav_registry d !! _) as [uav|] eqn:Hreg; simpl;
     [ by rewrite ?Hreg
     | rewrite lookup_app_r, Nat.sub_diag by done; simpl;
       by rewrite lookup_insert_eq ]).
Qed.

Lemma keeps_get_or_create_uav n : keeps (_get_or_create_uav n).
Proof.
  intros d. rewrite get_or_create_uav_unfold.
  set (formatted_id := match _index_to_uav_id d !! n with
                       | Some cached => cached
                       | None => make_valid_uav_id (format (id_format d) n)
                       end).
  assert (session_keeps d
            match _index_to_uav_id d !! n with
            | Some _ => d
            | None => set_index_to_uav_id d
                        (<[n := formatted_id]> (_index_to_uav_id d))
            end) as Hcache.
  { destruct (_index_to_uav_id d !! n) eqn:Hn; [apply session_keeps_refl|].
    split_and!; [|by eauto|done].
    intros n' f Hn'. simpl. rewrite lookup_insert_ne; [done|congruence]. }
  destruct (uav_registry d !! formatted_id) as [uav|] eqn:Hreg; simpl; [done|].
  eapply session_keeps_trans; [exact Hcache|].
  assert (∀ d1, uavs d1 = uavs d → uav_registry d1 = uav_registry d →
            session_keeps d1
              (set_uav_registry
                 (set_uavs d1 (uavs d ++ [new_FlockCtrlUAV formatted_id]))
                 (<[formatted_id := length (uavs d)]> (uav_registry d)))) as Hnew.
  { intros d1 Hu Hr. split_and!; [done|..].
    - intros r u Hru. simpl. exists u. rewrite Hu in Hru.
      split; [by apply lookup_app_l_Some|done].
    - intros Hwf key r. simpl. destruct (decide (formatted_id = key)) as [<-|Hne].
      + rewrite lookup_insert_eq. intros [= <-]. eexists.
        by rewrite lookup_app_r, Nat.sub_diag.
      + rewrite lookup_insert_ne by done. rewrite <- Hr.
        intros (u & Hru & <-)%Hwf. exists u. rewrite Hu in Hru.
        split; [by apply lookup_app_l_Some|done]. }
  apply Hnew; by destruct (_index_to_uav_id d !! n).
Qed.

Lemma keeps_check_or_record_uav_address uav medium addr :
  keeps (_check_or_record_uav_address uav medium addr).
Proof.
  unfold _check_or_record_uav_address. apply keeps_bind.
  - apply keeps_on_uav. intros u. apply check_or_record_address_id.
  - intros _. by apply keeps_modify.
Qed.

Lemma keeps_handle_inbound_status_packet p src :
  keeps (_handle_inbound_status_packet p src).
Proof.
  unfold _handle_inbound_status_packet, request_to_send_UAV_INF_message_for.
  destruct p; try apply keeps_raise. destruct src as [medium addr].
  apply keeps_bind; [apply keeps_get_or_create_uav|intros uav].
  apply keeps_bind; [apply keeps_check_or_record_uav_address|intros _].
  apply keeps_bind; [by apply keeps_on_uav|intros _].
  apply keeps_bind; [apply keeps_get_uav|intros u]. by apply keeps_modify.
Qed.

Lemma update_geiger_counter_id u pos itow dose raw_counts mutator :
  id (update_geiger_counter u pos itow dose raw_counts mutator).1.2 = id u.
Proof.
  unfold update_geiger_counter. by repeat case_match.
Qed.

Lemma session_keeps_set_device_tree d d' mutator :
  session_keeps d d' → session_keeps d (set_device_tree d' mutator).
Proof. intros (? & ? & ?). split_and!; done. Qed.

Lemma keeps_handle_data_packet data uav : keeps (handle_data_packet data uav).
Proof.
  intros d. unfold handle_data_packet.
  destruct (uavs d !! uav) as [u|] eqn:Hu; [|apply session_keeps_refl].
  destruct data as [pos itow dose raw_counts|itow features|].
  - pose proof (update_geiger_counter_id u pos itow dose raw_counts (device_tree d))
      as Hid.
    destruct (update_geiger_counter u pos itow dose raw_counts (device_tree d))
      as [[o u'] mutator]. simpl in *.
    apply session_keeps_set_device_tree. by eapply session_keeps_insert_uav.
  - destruct (update_detected_features u itow features (device_tree d))
      as [o mutator]. simpl.
    apply session_keeps_set_device_tree, session_keeps_refl.
  - apply session_keeps_refl.
Qed.

Lemma keeps_handle_inbound_algorithm_data_packet p src :
  keeps (_handle_inbound_algorithm_data_packet p src).
Proof.
  unfold _handle_inbound_algorithm_data_packet.
  destruct p as [| | | |n alg| | |]; try apply keeps_raise.
  apply keeps_bind; [apply keeps_get_or_create_uav|intros uav].
  destruct alg; [apply keeps_handle_data_packet|apply keeps_ret].
Qed.

Lemma keeps_on_chunked_packet_assembled body src :
  keeps (_on_chunked_packet_assembled body src).
Proof.
  unfold _on_chunked_packet_assembled. apply keeps_bind.
  - apply keeps_try_except.
    + intros d. destruct (_uavs_by_source_address d !! src);
        apply session_keeps_refl.
    + intros [] k [= <-].
      apply keeps_bind; [apply keeps_warn|intros _; apply keeps_ret].
  - intros [uav|]; [|apply keeps_ret]. apply keeps_try_except.
    + apply keeps_bind; [apply keeps_get_uav|intros u].
      apply keeps_bind; [|intros future; by apply keeps_modify].
      intros d. unfold FutureMap_getitem.
      destruct (_pending_commands_by_uav d !! id u); apply session_keeps_refl.
    + intros [] k [= <-].
      apply keeps_bind; [apply keeps_get_uav|intros u; apply keeps_warn].
Qed.

Lemma keeps_add_packet chunk final src compressed :
  keeps (add_packet chunk final src compressed).
Proof.
  intros d. unfold add_packet. destruct final; simpl; split_and!; eauto.
Qed.

Lemma keeps_handle_inbound_command_response_packet p src :
  keeps (_handle_inbound_command_response_packet p src).
Proof.
  unfold _handle_inbound_command_response_packet.
  destruct p; try apply keeps_raise;
    (apply keeps_bind; [apply keeps_add_packet|];
     intros [body|]; [apply keeps_on_chunked_packet_assembled|apply keeps_ret]).
Qed.

Lemma keeps_handle_inbound_packet p src : keeps (handle_inbound_packet p src).
Proof.
  intros d. pose proof (handle_inbound_packet_cases p src d) as Hcase.
  destruct p; rewrite Hcase;
    first [ apply keeps_handle_inbound_status_packet
          | apply keeps_handle_inbound_command_response_packet
          | apply keeps_handle_inbound_algorithm_data_packet
          | apply session_keeps_refl
          | apply keeps_warn ].
Qed.

Lemma session_keeps_step d e : session_keeps d (step d e).
Proof.
  destruct e as [p src|key|fmt]; simpl.
  - apply keeps_handle_inbound_packet.
  - split_and!; [done|by eauto|].
    intros Hwf k r Hr. simpl in Hr.
    apply lookup_delete_Some in Hr as [_ Hr]. by apply Hwf.
  - split_and!; [done|by eauto|done].
Qed.

Lemma session_keeps_run es d : session_keeps d (run es d).
Proof.
  revert d. induction es as [|e es IH]; intros d; [apply session_keeps_refl|].
  eapply session_keeps_trans; [apply session_keeps_step|apply IH].
Qed.

(** A cached identifier decides the vehicle that is returned, whatever
    the registry holds and whatever the format is by then. *)
Lemma display_id_cached n d formatted_id :
  registry_wf d →
  _index_to_uav_id d !! n = Some formatted_id →
  display_id n d = Some formatted_id.
Proof.
  intros Hwf Hcached. unfold display_id. rewrite get_or_create_uav_unfold.
  rewrite Hcached.
  destruct (uav_registry d !! formatted_id) as [uav|] eqn:Hreg; simpl.
  - apply Hwf in Hreg as (u & -> & <-). done.
  - by rewrite lookup_app_r, Nat.sub_diag.
Qed.

Lemma get_or_create_uav_caches n d :
  _index_to_uav_id (_get_or_create_uav n d).2 !! n
  = Some match _index_to_uav_id d !! n with
         | Some cached => cached
         | None => make_valid_uav_id (format (id_format d) n)
         end.
Proof.
  rewrite get_or_create_uav_unfold.
  destruct (_index_to_uav_id d !! n) as [cached|] eqn:Hn;
    destruct (uav_registry d !! _); simpl; by rewrite ?lookup_insert_eq.
Qed.

(** C5: the first time a numeric identifier is resolved, its formatted
    identifier is computed from the format and cached; from then on,
    through any sequence of packets, of removals from the registry and
    of assignments of the format, the cache holds the same formatted
    identifier, and resolving the numeric identifier gives a vehicle
    with that identifier. *)
Theorem display_id_is_stable n d es :
  registry_wf d →
  ∃ formatted_id,
    formatted_id = match _index_to_uav_id d !! n with
                   | Some cached => cached
                   | None => make_valid_uav_id (format (id_format d) n)
                   end
    ∧ display_id n d = Some formatted_id
    ∧ _index_to_uav_id (run es (_get_or_create_uav n d).2) !! n
      = Some formatted_id
    ∧ display_id n (run es (_get_or_create_uav n d).2) = Some formatted_id.
Proof.
  intros Hwf. eexists. split; [reflexivity|].
  pose proof (keeps_get_or_create_uav n d) as (_ & _ & Hwf1).
  pose proof (session_keeps_run es (_get_or_create_uav n d).2) as (Hc & _ & Hwf2).
  pose proof (get_or_create_uav_caches n d) as Hcached.
  split_and!.
  - unfold display_id. rewrite get_or_create_uav_unfold.
    destruct (_index_to_uav_id d !! n) as [cached|] eqn:Hn.
    + fold (display_id n d). rewrite <- (display_id_cached n d cached) by done.
      unfold display_id. by rewrite get_or_create_uav_unfold, Hn.
    + destruct (uav_registry d !! _) as [uav|] eqn:Hreg; simpl.
      * apply Hwf in Hreg as (u & -> & <-). done.
      * by rewrite lookup_app_r, Nat.sub_diag.
  - by apply Hc.
  - apply display_id_cached; [by auto|by apply Hc].
Qed.

End Identifiers.

Lemma display_id_is_stable_witness :
  @display_id example_externals 7
    (@run example_externals
       [PacketReceived (FlockCtrlStatusPacket 7 None None None None 0)
          ("wireless", "addrA");
        RegistryForgets "07";
        IdFormatAssigned "V-"]
       (@_get_or_create_uav example_externals 7 (new_FlockCtrlDriver "{0:02}")).2)
  = Some "07".
Proof.
  destruct (@display_id_is_stable example_externals 7 (new_FlockCtrlDriver "{0:02}")
              [PacketReceived (FlockCtrlStatusPacket 7 None None None None 0)
                 ("wireless", "addrA");
               RegistryForgets "07";
               IdFormatAssigned "V-"])
    as (formatted_id & Hformatted & _ & _ & Hstable).
  - intros key uav Hin. vm_compute in Hin. discriminate.
  - rewrite Hstable, Hformatted. reflexivity.
Defined.

(** * Further properties *)

(** ** The preferred address of a vehicle *)

Lemma preferred_address_wireless (self : FlockCtrlUAV) :
  preferred_address self
  = match addresses self !! "wireless" with
    | Some addr => (Return ("wireless", addr), self)
    | None =>
        (Raise (ValueError
           "UAV has no address yet in any of the supported communication media"),
         self)
    end.
Proof.
  unfold preferred_address, supported_media. simpl.
  by destruct (addresses self !! "wireless").
Qed.

(** X1: on a vehicle without a wireless address, recording an address
    makes it the preferred address exactly when the medium is
    ["wireless"]; an address on any other medium leaves
    [preferred_address] raising [ValueError].  Once there is a preferred
    address, no sequence of attempts to record addresses changes it. *)
Theorem preferred_address_is_first_wireless_address
    (self : FlockCtrlUAV) (medium addr : string) (attempts : list (string * string)) :
  (addresses self !! "wireless" = None →
   (preferred_address (check_or_record_address medium addr self).2).1
   = if decide (medium = "wireless")
     then Return ("wireless", addr)
     else Raise (ValueError
            "UAV has no address yet in any of the supported communication media"))
  ∧ ((preferred_address self).1 = Return ("wireless", addr) →
     (preferred_address (record_all attempts self)).1 = Return ("wireless", addr)).
Proof.
  split.
  - intros Hnone. rewrite preferred_address_wireless.
    rewrite check_or_record_address_lookup, Hnone.
    by destruct (decide (medium = "wireless")).
  - rewrite !preferred_address_wireless, record_all_lookup.
    destruct (addresses self !! "wireless"); [done|discriminate].
Qed.

Lemma preferred_address_is_first_wireless_address_witness :
  (preferred_address (check_or_record_address "wireless" "addrA"
                        (new_FlockCtrlUAV "07")).2).1
  = Return ("wireless", "addrA")
  ∧ (preferred_address
       (record_all [("wireless", "addrB"); ("wired", "addrC")] example_uav)).1
    = Return ("wireless", "addrA").
Proof.
  split.
  - destruct (preferred_address_is_first_wireless_address
                (new_FlockCtrlUAV "07") "wireless" "addrA" []) as [Hfirst _].
    rewrite Hfirst; reflexivity.
  - destruct (preferred_address_is_first_wireless_address
                example_uav "wireless" "addrA"
                [("wireless", "addrB"); ("wired", "addrC")]) as [_ Hkeeps].
    apply Hkeeps. reflexivity.
Defined.

(** ** Camera features *)

Lemma camera_features_lookup (self : FlockCtrlUAV) (i : nat) :
  camera_features self !! i
  = if decide (i < MAX_CAMERA_FEATURE_COUNT)%nat
    then Some {| owner := id self; name := feature i |}
    else None.
Proof.
  unfold camera_features. rewrite list_lookup_fmap. case_decide as Hi.
  - by rewrite lookup_seq_lt.
  - rewrite lookup_seq_ge; [done|lia].
Qed.

Lemma update_detected_features_loop_spec (self : FlockCtrlUAV) itow i features
    (mutator : DeviceTreeMutator) :
  (i ≤ MAX_CAMERA_FEATURE_COUNT)%nat →
  update_detected_features_loop self itow i features mutator
  = (if decide (i + length features ≤ MAX_CAMERA_FEATURE_COUNT)%nat
     then Return tt else Raise IndexError,
     mutator
     ++ imap (λ j pos, ({| owner := id self; name := feature (i + j) |},
                         with_value (pos_data_of pos) (VInt itow)))
          (take (MAX_CAMERA_FEATURE_COUNT - i) features)).
Proof.
  revert i mutator. induction features as [|pos rest IH]; intros i mutator Hi.
  - simpl. rewrite take_nil, app_nil_r. by rewrite decide_True by lia.
  - simpl. rewrite camera_features_lookup. case_decide as Hlt.
    + rewrite IH by lia. unfold mutator_update.
      replace (MAX_CAMERA_FEATURE_COUNT - i)%nat
        with (S (MAX_CAMERA_FEATURE_COUNT - S i)) by lia.
      simpl. rewrite <- app_assoc. simpl. rewrite Nat.add_0_r.
      f_equal.
      * repeat case_decide; done || lia.
      * do 2 f_equal. apply imap_ext. intros j x _. simpl.
        by rewrite Nat.add_succ_r.
    + replace (MAX_CAMERA_FEATURE_COUNT - i)%nat with 0%nat by lia.
      simpl. rewrite app_nil_r. by rewrite decide_False by lia.
Qed.

(** X2: when the position of the vehicle is known,
    [update_detected_features] writes the features to the channels
    [feature_0], [feature_1], ... in order, each record with the position
    of the feature itself under the keys [lat], [lon], [amsl] and [agl]
    and the time stamp under the key [value]; past the 32 feature
    channels it raises [IndexError], after the first 32 features have
    been written. *)
Theorem detected_features_fill_channels_in_order (self : FlockCtrlUAV) itow
    features (mutator : DeviceTreeMutator) p :
  position (_status self) = Some p →
  update_detected_features self itow features mutator
  = (if decide (length features ≤ MAX_CAMERA_FEATURE_COUNT)%nat
     then Return tt else Raise IndexError,
     mutator
     ++ imap (λ i pos, ({| owner := id self; name := feature i |},
                         with_value (pos_data_of pos) (VInt itow)))
          (take MAX_CAMERA_FEATURE_COUNT features))
  ∧ length (update_detected_features self itow features mutator).2
    = (length mutator + length features `min` MAX_CAMERA_FEATURE_COUNT)%nat
  ∧ ∀ i pos,
      (i < MAX_CAMERA_FEATURE_COUNT)%nat →
      features !! i = Some pos →
      ∃ record,
        (update_detected_features self itow features mutator).2
          !! (length mutator + i)%nat
        = Some ({| owner := id self; name := feature i |}, record)
        ∧ record !! "value" = Some (VInt itow)
        ∧ record !! "lat" = Some (VFloat (lat pos))
        ∧ record !! "lon" = Some (VFloat (lon pos))
        ∧ record !! "amsl" = VFloat <$> amsl pos
        ∧ record !! "agl" = VFloat <$> agl pos.
Proof.
  intros Hp. unfold update_detected_features. rewrite Hp.
  rewrite update_detected_features_loop_spec by lia.
  rewrite Nat.sub_0_r. split; [done|]. simpl. split.
  - rewrite length_app, length_imap, length_take. lia.
  - intros i pos Hi Hpos.
    exists (with_value (pos_data_of pos) (VInt itow)). split.
    + unfold DeviceTreeMutator in *. rewrite lookup_app_r by lia.
      replace (length mutator + i - length mutator)%nat with i by lia.
      rewrite list_lookup_imap, lookup_take_lt, Hpos by done. done.
    + apply with_value_lookup.
Qed.

Lemma detected_features_fill_channels_in_order_witness :
  ∃ writes record,
    update_detected_features example_uav 2000 (replicate 33 example_position) []
    = (Raise IndexError, writes)
    ∧ length writes = 32%nat
    ∧ writes !! 31%nat = Some ({| owner := "07"; name := feature 31 |}, record)
    ∧ record !! "value" = Some (VInt 2000)
    ∧ record !! "lat" = Some (VFloat (float_of_Z 47))
    ∧ record !! "lon" = Some (VFloat (float_of_Z 19))
    ∧ record !! "amsl" = Some (VFloat (float_of_Z 120))
    ∧ record !! "agl" = None.
Proof.
  destruct (detected_features_fill_channels_in_order example_uav 2000
              (replicate 33 example_position) [] example_position eq_refl)
    as (Hresult & Hlength & Hrecords).
  destruct (Hrecords 31%nat example_position) as (record & Hrecord & Hkeys).
  - unfold MAX_CAMERA_FEATURE_COUNT. lia.
  - reflexivity.
  - exists (update_detected_features example_uav 2000
              (replicate 33 example_position) []).2, record.
    split; [by rewrite Hresult|]. split; [exact Hlength|].
    split; [exact Hrecord|]. exact Hkeys.
Defined.

(** ** The Geiger counter *)

(** X3: when the position is known and raw counts are given, a call of
    [update_geiger_counter] returns or raises [OverflowError]; a call
    that returns replaces the retained sample by the new time stamp and
    counts, whether it writes a rate or not, and a call that raises
    leaves the retained sample as it was.  No rate is written when there
    is no retained sample yet, or when the time stamp has not advanced
    past the one of the retained sample; in the first case the call
    returns, and in the second it returns unless the time stamps are
    [2 ^ 971] or more apart. *)
Theorem no_rate_without_elapsed_time (self : FlockCtrlUAV) pos (itow : Z) dose raw_counts
    (mutator : DeviceTreeMutator) p :
  position (_status self) = Some p →
  ∃ outcome self' writes,
    update_geiger_counter self pos itow dose (Some raw_counts) mutator
    = (outcome, self', mutator ++ writes)
    ∧ (outcome = Return tt ∨ outcome = Raise OverflowError)
    ∧ (outcome = Return tt →
       self' = set_last_geiger_counter_packet self (Some (itow, raw_counts))
       ∧ _last_geiger_counter_packet self' = Some (itow, raw_counts))
    ∧ (outcome = Raise OverflowError → self' = self)
    ∧ (_last_geiger_counter_packet self = None →
       outcome = Return tt
       ∧ ∀ i, written {| owner := id self; name := rate i |} writes = [])
    ∧ (∀ last_itow last_raw_counts,
         _last_geiger_counter_packet self = Some (last_itow, last_raw_counts) →
         (itow ≤ last_itow)%Z →
         (∀ i, written {| owner := id self; name := rate i |} writes = [])
         ∧ ((Z.abs (itow - last_itow) < 2 ^ 971)%Z → outcome = Return tt)).
Proof.
  intros Hp.
  rewrite (update_geiger_counter_known _ _ _ _ _ _ p) by done.
  assert (∀ values,
            geiger_rate_values self itow raw_counts = Return values →
            values = [] →
            ∀ i, written {| owner := id self; name := rate i |}
                   (geiger_writes self p itow dose raw_counts) = []) as Hnone.
  { intros values Hvalues -> i. apply elem_of_nil_inv. intros record.
    rewrite rate_written. intros (values & value & Hvalues' & _ & Hv & _).
    rewrite Hvalues in Hvalues'. injection Hvalues' as <-.
    by rewrite lookup_nil in Hv. }
  assert (∀ e, geiger_rate_values self itow raw_counts = Raise e →
            ∀ i, written {| owner := id self; name := rate i |}
                   (geiger_writes self p itow dose raw_counts) = []) as Hraise.
  { intros e He i. apply elem_of_nil_inv. intros record.
    rewrite rate_written. intros (values & value & Hvalues' & _).
    by rewrite He in Hvalues'. }
  destruct (geiger_rate_values self itow raw_counts) as [values|e] eqn:Hvalues.
  - eexists _, _, _. split; [reflexivity|]. split; [by left|].
    split; [done|]. split; [done|]. split.
    + intros Hlast. split; [done|]. apply (Hnone values); [done|].
      unfold geiger_rate_values in Hvalues. rewrite Hlast in Hvalues. congruence.
    + intros last_itow last_raw_counts Hlast Hle. split; [|done].
      apply (Hnone values); [done|].
      unfold geiger_rate_values in Hvalues. rewrite Hlast in Hvalues.
      destruct (elapsed_seconds itow last_itow) as [dt|e] eqn:Hdt; [|done].
      destruct (float_gt_zero dt) eqn:Hpos; [|congruence].
      apply (elapsed_seconds_pos _ _ _ Hdt) in Hpos. lia.
  - pose proof (geiger_rate_values_raises _ _ _ _ Hvalues) as ->.
    eexists _, _, _. split; [reflexivity|]. split; [by right|].
    split; [done|]. split; [done|]. split.
    + intros Hlast. unfold geiger_rate_values in Hvalues.
      by rewrite Hlast in Hvalues.
    + intros last_itow last_raw_counts Hlast Hle.
      split; [by apply (Hraise OverflowError)|]. intros Hsmall.
      unfold geiger_rate_values in Hvalues. rewrite Hlast in Hvalues.
      destruct (elapsed_seconds itow last_itow) as [dt|e] eqn:Hdt.
      * destruct (float_gt_zero dt) eqn:Hpos; [|done].
        apply (elapsed_seconds_pos _ _ _ Hdt) in Hpos. lia.
      * apply elapsed_seconds_raises in Hdt as [_ Hbig]. lia.
Qed.

Lemma no_rate_without_elapsed_time_witness :
  ∃ writes,
    update_geiger_counter example_uav None 1000 None (Some [150]) []
    = (Return tt,
       set_last_geiger_counter_packet example_uav (Some (1000, [150])),
       [] ++ writes)
    ∧ _last_geiger_counter_packet
        (update_geiger_counter example_uav None 1000 None (Some [150]) []).1.2
      = Some (1000, [150])
    ∧ ∀ i, written {| owner := "07"; name := rate i |} writes = [].
Proof.
  destruct (no_rate_without_elapsed_time example_uav None 1000 None [150] []
              example_position eq_refl)
    as (outcome & self' & writes & Hresult & _ & Hreturn & _ & _ & Hlast).
  destruct (Hlast 1000 [100] eq_refl ltac:(lia)) as [Hnone Houtcome].
  destruct (Hreturn (Houtcome ltac:(vm_compute; reflexivity))) as [-> Hsample].
  rewrite (Houtcome ltac:(vm_compute; reflexivity)) in Hresult.
  exists writes. split; [exact Hresult|]. split; [|exact Hnone].
  rewrite Hresult. exact Hsample.
Defined.



(** A count that is too large for a [float] on a third tube makes the
    call raise [OverflowError] before any rate is written and before the
    sample is retained, although no channel belongs to that tube; the
    first two counts alone are accepted. *)
Example third_tube_can_overflow :
  let self := set_last_geiger_counter_packet example_uav (Some (1000, [0; 0; 0])) in
  update_geiger_counter self None 2000 None (Some [5; 6; 2 ^ 1024]) []
  = (Raise OverflowError, self,
     [(geiger_counter_dose_rate self, with_value (pos_data_of example_position) VNone);
      ({| owner := "07"; name := raw_count 0 |},
       with_value (pos_data_of example_position) (VInt 5));
      ({| owner := "07"; name := raw_count 1 |},
       with_value (pos_data_of example_position) (VInt 6))])
  ∧ (update_geiger_counter self None 2000 None (Some [5; 6]) []).1.1 = Return tt
  ∧ (λ w, (name w.1, w.2 !! "value")) <$>
      (update_geiger_counter self None 2000 None (Some [5; 6]) []).2
    = [(dose_rate, Some VNone);
       (raw_count 0, Some (VInt 5)); (raw_count 1, Some (VInt 6));
       (rate 0, Some (VFloat (float_of_Z 5))); (rate 1, Some (VFloat (float_of_Z 6)))].
Proof. split_and!; vm_compute; reflexivity. Qed.



Lemma geiger_rates_returns (dt : float) (pairs : list (Z * Z)) :
  float_gt_zero dt = true →
  Forall (λ pr, (Z.abs (pr.1 - pr.2) < 2 ^ 971)%Z) pairs →
  ∃ values, geiger_rates dt pairs = Return values.
Proof.
  intros Hdt. induction 1 as [|[value last_value] rest Hsmall _ [values IH]]; simpl.
  - eauto.
  - rewrite IH. unfold geiger_rate. case_bool_decide; [|eauto].
    destruct (int_truediv_float (value - last_value) dt) as [x|e] eqn:Hx; [eauto|].
    apply int_truediv_float_raises in Hx as [_ Hbig]; [|done].
    simpl in Hsmall. lia.
Qed.

(** X21: [update_geiger_counter] raises only on numbers beyond the range
    of a [float].  When the position is known, raw counts are given, and
    the time stamp and the counts differ from those of the retained
    sample by less than [2 ^ 971], as all numbers of 64 bits do, the
    call returns and retains the new sample. *)
Theorem geiger_update_returns_within_float_range (self : FlockCtrlUAV) pos
    (itow : Z) dose (raw_counts : list Z) (mutator : DeviceTreeMutator) p :
  position (_status self) = Some p →
  (∀ last_itow last_raw_counts,
     _last_geiger_counter_packet self = Some (last_itow, last_raw_counts) →
     (Z.abs (itow - last_itow) < 2 ^ 971)%Z
     ∧ ∀ (i : nat) (value last_value : Z),
         raw_counts !! i = Some value →
         last_raw_counts !! i = Some last_value →
         (Z.abs (value - last_value) < 2 ^ 971)%Z) →
  (update_geiger_counter self pos itow dose (Some raw_counts) mutator).1
  = (Return tt, set_last_geiger_counter_packet self (Some (itow, raw_counts))).
Proof.
  intros Hp Hsmall.
  rewrite (update_geiger_counter_known _ _ _ _ _ _ p) by done.
  assert (∃ values, geiger_rate_values self itow raw_counts = Return values)
    as [values ->]; [|done].
  unfold geiger_rate_values.
  destruct (_last_geiger_counter_packet self) as [[last_itow last_raw_counts]|];
    [|eauto].
  destruct (Hsmall last_itow last_raw_counts eq_refl) as [Hitow Hcounts].
  destruct (elapsed_seconds itow last_itow) as [dt|e] eqn:Hdt.
  - destruct (float_gt_zero dt) eqn:Hpos; [|eauto].
    apply geiger_rates_returns; [done|].
    apply Forall_forall. intros [value last_value] Hin.
    apply list_elem_of_lookup in Hin as [i Hi].
    apply lookup_zip_with_Some in Hi as (? & ? & [= <- <-] & ? & ?).
    simpl. eauto.
  - apply elapsed_seconds_raises in Hdt as [_ Hbig]. lia.
Qed.

Lemma geiger_update_returns_within_float_range_witness :
  (update_geiger_counter example_uav None (2 ^ 64) None (Some [2 ^ 64; 7]) []).1
  = (Return tt,
     set_last_geiger_counter_packet example_uav (Some (2 ^ 64, [2 ^ 64; 7]))).
Proof.
  apply (geiger_update_returns_within_float_range example_uav None (2 ^ 64) None
           [2 ^ 64; 7] [] example_position).
  - reflexivity.
  - intros last_itow last_raw_counts [= <- <-]. split; [vm_compute; reflexivity|].
    intros [|[|i]] value last_value [= <-] [= <-]. vm_compute. reflexivity.
Defined.

(** ** What the handling of inbound packets keeps *)

Section Preserves.

Context (R : relation FlockCtrlDriver) `{!PreOrder R}.

Lemma preserves_unchanged {A} (m : M FlockCtrlDriver A) :
  (∀ d, (m d).2 = d) → preserves R m.
Proof. intros Hm d. by rewrite Hm. Qed.

Lemma preserves_ret {A} (a : A) : preserves R (mret a).
Proof. by apply preserves_unchanged. Qed.

Lemma preserves_raise {A} e : preserves R (raise (A := A) e).
Proof. by apply preserves_unchanged. Qed.

Lemma preserves_bind {A B} (m : M FlockCtrlDriver A)
    (k : A → M FlockCtrlDriver B) :
  preserves R m → (∀ a, preserves R (k a)) → preserves R (m ≫= k).
Proof.
  intros Hm Hk d. unfold_M. specialize (Hm d).
  destruct (m d) as [[a|e] d']; [|done]. by etrans; [|apply Hk].
Qed.

Lemma preserves_try_except {A} (m : M FlockCtrlDriver A) h :
  preserves R m → (∀ e k, h e = Some k → preserves R k) →
  preserves R (try_except m h).
Proof.
  intros Hm Hh d. unfold try_except. specialize (Hm d).
  destruct (m d) as [[a|e] d']; [done|].
  destruct (h e) as [k|] eqn:Hk; [|done]. by etrans; [|eapply Hh].
Qed.

Lemma preserves_get_uav uav : preserves R (get_uav uav).
Proof.
  apply preserves_unchanged. intros d. unfold get_uav.
  by destruct (uavs d !! uav).
Qed.

End Preserves.

Section InboundFrame.

Context `{Externals}.

Implicit Types (d : FlockCtrlDriver) (uav : nat) (p : packet).

Lemma addresses_kept_refl d : addresses_kept d d.
Proof. intros uav u medium addr ??. eauto. Qed.

Lemma addresses_kept_same_uavs d d' : uavs d' = uavs d → addresses_kept d d'.
Proof. intros Hu uav u medium addr ??. rewrite Hu. eauto. Qed.

Lemma addresses_kept_trans d1 d2 d3 :
  addresses_kept d1 d2 → addresses_kept d2 d3 → addresses_kept d1 d3.
Proof.
  intros H12 H23 uav u medium addr Hu Ha.
  destruct (H12 _ _ _ _ Hu Ha) as (u' & Hu' & Ha'). eauto.
Qed.

#[local] Instance inbound_keeps_preorder : PreOrder inbound_keeps.
Proof.
  split.
  - intros d. split_and!; [done..|apply addresses_kept_refl|done].
  - intros d1 d2 d3 (Hs1 & Hp1 & Hf1 & Ha1 & Hi1) (Hs2 & Hp2 & Hf2 & Ha2 & Hi2).
    split_and!; [congruence..|by eapply addresses_kept_trans|by auto].
Qed.

(** When the reverse index is not assigned, it is enough that the
    addresses are kept. *)
Lemma inbound_keeps_intro d d' :
  sent d' = sent d →
  _pending_commands_by_uav d' = _pending_commands_by_uav d →
  length (futures d') = length (futures d) →
  _uavs_by_source_address d' = _uavs_by_source_address d →
  addresses_kept d d' →
  inbound_keeps d d'.
Proof.
  intros Hs Hp Hf Hi Ha. split_and!; [done..|].
  intros Hagree medium addr uav. rewrite Hi.
  intros (u & Hu & Haddr)%Hagree. by eapply Ha.
Qed.

Lemma inbound_keeps_modify (f : FlockCtrlDriver → FlockCtrlDriver) :
  (∀ d, sent (f d) = sent d) →
  (∀ d, _pending_commands_by_uav (f d) = _pending_commands_by_uav d) →
  (∀ d, length (futures (f d)) = length (futures d)) →
  (∀ d, _uavs_by_source_address (f d) = _uavs_by_source_address d) →
  (∀ d, uavs (f d) = uavs d) →
  preserves inbound_keeps (modify f).
Proof.
  intros Hs Hp Hf Hi Hu d. apply inbound_keeps_intro; simpl; [done..|].
  intros uav u medium addr ??. rewrite Hu. eauto.
Qed.

Lemma addresses_kept_insert_uav d uav u u' :
  uavs d !! uav = Some u →
  (∀ medium addr, addresses u !! medium = Some addr →
                  addresses u' !! medium = Some addr) →
  addresses_kept d (set_uavs d (<[uav := u']> (uavs d))).
Proof.
  intros Hu Hkeep r ur medium addr Hr Ha. simpl.
  pose proof (lookup_lt_Some _ _ _ Hu) as Hlt.
  destruct (decide (uav = r)) as [<-|Hne].
  - exists u'. rewrite list_lookup_insert_eq by done.
    split; [done|]. apply Hkeep. congruence.
  - exists ur. by rewrite list_lookup_insert_ne.
Qed.

Lemma inbound_keeps_on_uav {A} uav (m : M FlockCtrlUAV A) :
  (∀ u medium addr, addresses u !! medium = Some addr →
                    addresses (m u).2 !! medium = Some addr) →
  preserves inbound_keeps (on_uav uav m).
Proof.
  intros Hkeep d. unfold on_uav.
  destruct (uavs d !! uav) as [u|] eqn:Hu; [|reflexivity].
  specialize (Hkeep u). destruct (m u) as [o u']. simpl in *.
  apply inbound_keeps_intro; [done..|]. by eapply addresses_kept_insert_uav.
Qed.

Lemma inbound_keeps_check_or_record_uav_address uav medium addr :
  preserves inbound_keeps (_check_or_record_uav_address uav medium addr).
Proof.
  intros d. rewrite check_or_record_uav_address_unfold.
  destruct (uavs d !! uav) as [u|] eqn:Hu; [|reflexivity].
  assert (addresses_kept d
            (set_uavs d (<[uav := (check_or_record_address medium addr u).2]>
                           (uavs d)))) as Hkept.
  { eapply addresses_kept_insert_uav; [done|].
    intros m a. apply check_or_record_address_keeps. }
  destruct (check_or_record_address medium addr u) as [[[]|e] u'] eqn:Hcheck;
    simpl in *; [|by apply inbound_keeps_intro].
  split_and!; [done..|].
  intros Hagree m a r. simpl.
  destruct (decide ((medium, addr) = (m, a))) as [[= <- <-]|Hne].
  - rewrite lookup_insert_eq. intros [= <-]. exists u'. split.
    + apply list_lookup_insert_eq. by eapply lookup_lt_Some.
    + by apply check_or_record_address_returns in Hcheck as [? _].
  - rewrite lookup_insert_ne by done.
    intros (ur & Hur & Ha)%Hagree. by apply (Hkept r ur m a).
Qed.

Lemma inbound_keeps_get_or_create_uav n :
  preserves inbound_keeps (_get_or_create_uav n).
Proof.
  intros d. rewrite get_or_create_uav_unfold.
  destruct (_index_to_uav_id d !! n) as [cached|];
    destruct (uav_registry d !! _) as [uav|]; simpl;
    apply inbound_keeps_intro; simpl; try done;
    try (by apply addresses_kept_same_uavs);
    intros r u m a Hr Ha; simpl; exists u;
    (split; [by apply lookup_app_l_Some|done]).
Qed.

Lemma update_geiger_counter_addresses u pos itow dose raw_counts mutator :
  addresses (update_geiger_counter u pos itow dose raw_counts mutator).1.2
  = addresses u.
Proof.
  unfold update_geiger_counter. by repeat case_match.
Qed.

Lemma inbound_keeps_handle_data_packet data uav :
  preserves inbound_keeps (handle_data_packet data uav).
Proof.
  intros d. unfold handle_data_packet.
  destruct (uavs d !! uav) as [u|] eqn:Hu; [|reflexivity].
  destruct data as [pos itow dose raw_counts|itow features|]; [| |reflexivity].
  - pose proof (update_geiger_counter_addresses u pos itow dose raw_counts
                  (device_tree d)) as Haddr.
    destruct (update_geiger_counter u pos itow dose raw_counts (device_tree d))
      as [[o u'] mutator]. simpl in *.
    apply inbound_keeps_intro; [done..|].
    intros r ur m a Hr Ha.
    destruct (addresses_kept_insert_uav d uav u u' Hu
                ltac:(by rewrite Haddr) r ur m a Hr Ha) as (? & ? & ?).
    eauto.
  - destruct (update_detected_features u itow features (device_tree d))
      as [o mutator]. simpl.
    by apply inbound_keeps_intro; [..|apply addresses_kept_same_uavs].
Qed.

Lemma inbound_keeps_on_chunked_packet_assembled body src :
  preserves inbound_keeps (_on_chunked_packet_assembled body src).
Proof.
  unfold _on_chunked_packet_assembled, warn. apply (preserves_bind inbound_keeps).
  - apply (preserves_try_except inbound_keeps).
    + apply (preserves_unchanged inbound_keeps). intros d.
      by destruct (_uavs_by_source_address d !! src).
    + intros [] k [= <-]. apply (preserves_bind inbound_keeps).
      * by apply inbound_keeps_modify.
      * intros _. by apply (preserves_ret inbound_keeps).
  - intros [uav|]; [|by apply (preserves_ret inbound_keeps)].
    apply (preserves_try_except inbound_keeps).
    + apply (preserves_bind inbound_keeps); [by apply (preserves_get_uav inbound_keeps)|intros u].
      apply (preserves_bind inbound_keeps).
      * apply (preserves_unchanged inbound_keeps). intros d. unfold FutureMap_getitem.
        by destruct (_pending_commands_by_uav d !! id u).
      * intros future. apply inbound_keeps_modify; try done.
        intros d. simpl. apply length_alter.
    + intros [] k [= <-].
      apply (preserves_bind inbound_keeps); [by apply (preserves_get_uav inbound_keeps)|intros u].
      by apply inbound_keeps_modify.
Qed.

Lemma inbound_keeps_handle_inbound_packet p src :
  preserves inbound_keeps (handle_inbound_packet p src).
Proof.
  intros d. pose proof (handle_inbound_packet_cases p src d) as Hcase.
  destruct p as [n location vel hdg alg err| |chunk final|chunk final|n alg| | |];
    rewrite Hcase; try reflexivity; revert d Hcase; intros d _.
  - destruct src as [medium addr].
    unfold _handle_inbound_status_packet, request_to_send_UAV_INF_message_for.
    revert d. fold (preserves inbound_keeps
      (uav ← _get_or_create_uav n;
       _check_or_record_uav_address uav medium addr;;
       on_uav uav (update_status location vel hdg alg
                     (Some (map_flockctrl_error_code err)));;
       u ← get_uav uav;
       modify (λ d, set_uav_inf_requests d (uav_inf_requests d ++ [[id u]])))).
    apply (preserves_bind inbound_keeps); [apply inbound_keeps_get_or_create_uav|].
    intros uav. apply (preserves_bind inbound_keeps);
      [apply inbound_keeps_check_or_record_uav_address|intros _].
    apply (preserves_bind inbound_keeps); [by apply inbound_keeps_on_uav|intros _].
    apply (preserves_bind inbound_keeps); [by apply (preserves_get_uav inbound_keeps)|intros u].
    by apply inbound_keeps_modify.
  - revert d. fold (preserves inbound_keeps
      (_handle_inbound_command_response_packet
         (FlockCtrlCompressedCommandResponsePacket chunk final) src)).
    unfold _handle_inbound_command_response_packet.
    apply (preserves_bind inbound_keeps).
    + intros d. unfold add_packet.
      destruct final; by apply inbound_keeps_intro; [..|apply addresses_kept_same_uavs].
    + intros [body|]; [apply inbound_keeps_on_chunked_packet_assembled|].
      by apply (preserves_ret inbound_keeps).
  - revert d. fold (preserves inbound_keeps
      (_handle_inbound_command_response_packet
         (FlockCtrlCommandResponsePacket chunk final) src)).
    unfold _handle_inbound_command_response_packet.
    apply (preserves_bind inbound_keeps).
    + intros d. unfold add_packet.
      destruct final; by apply inbound_keeps_intro; [..|apply addresses_kept_same_uavs].
    + intros [body|]; [apply inbound_keeps_on_chunked_packet_assembled|].
      by apply (preserves_ret inbound_keeps).
  - revert d. fold (preserves inbound_keeps
      (_handle_inbound_algorithm_data_packet
         (FlockCtrlAlgorithmDataPacket n alg) src)).
    unfold _handle_inbound_algorithm_data_packet.
    apply (preserves_bind inbound_keeps); [apply inbound_keeps_get_or_create_uav|].
    intros uav. destruct alg; [apply inbound_keeps_handle_data_packet|].
    by apply (preserves_ret inbound_keeps).
  - unfold warn. revert d.
    fold (preserves inbound_keeps
            (modify (λ d, set_log d (log d ++ [warn_no_packet_handler
              (class_name_of (FlockCtrlCommandRequestPacket body))])))).
    by apply inbound_keeps_modify.
  - unfold warn. revert d.
    fold (preserves inbound_keeps
            (modify (λ d, set_log d (log d ++ [warn_no_packet_handler
              (class_name_of (OtherPacket class_name))])))).
    by apply inbound_keeps_modify.
Qed.

Lemma inbound_keeps_step d e : inbound_keeps d (step d e).
Proof.
  destruct e as [p src|key|fmt]; simpl.
  - apply inbound_keeps_handle_inbound_packet.
  - by apply inbound_keeps_intro; [..|apply addresses_kept_same_uavs].
  - by apply inbound_keeps_intro; [..|apply addresses_kept_same_uavs].
Qed.

Lemma inbound_keeps_run es d : inbound_keeps d (run es d).
Proof.
  revert d. induction es as [|e es IH]; intros d; [reflexivity|].
  simpl. etrans; [apply inbound_keeps_step|apply IH].
Qed.

(** X6: the handling of inbound packets never transmits and never adds
    or removes a pending command: through any sequence of packets, of
    removals from the registry and of assignments of the format, the
    calls of [send_packet], the map of the pending commands and the
    number of futures stay what they were. *)
Theorem inbound_packets_send_nothing es d :
  sent (run es d) = sent d
  ∧ _pending_commands_by_uav (run es d) = _pending_commands_by_uav d
  ∧ length (futures (run es d)) = length (futures d).
Proof. by destruct (inbound_keeps_run es d) as (? & ? & ? & _). Qed.

(** X7: an address that a vehicle holds for a medium is permanent:
    through any sequence of packets, of removals from the registry and
    of assignments of the format, the vehicle object keeps its
    identifier and that address; a wireless address stays the
    preferred address. *)
Theorem recorded_address_is_permanent es d uav u medium addr :
  uavs d !! uav = Some u →
  addresses u !! medium = Some addr →
  ∃ u', uavs (run es d) !! uav = Some u'
        ∧ id u' = id u
        ∧ addresses u' !! medium = Some addr
        ∧ (medium = "wireless" →
           preferred_address u' = (Return ("wireless", addr), u')).
Proof.
  intros Hu Ha.
  destruct (inbound_keeps_run es d) as (_ & _ & _ & Hkept & _).
  destruct (Hkept uav u medium addr Hu Ha) as (u' & Hu' & Ha').
  destruct (session_keeps_run es d) as (_ & Hid & _).
  destruct (Hid uav u Hu) as (u'' & Hu'' & Hid').
  exists u'. split_and!; [done|congruence|done|].
  intros ->. by rewrite preferred_address_wireless, Ha'.
Qed.

(** X8: in every state that a new driver reaches through packets,
    removals from the registry and assignments of the format, every
    entry of the reverse index names a vehicle that holds the address
    of the entry, and every entry of the registry names a vehicle with
    the identifier of the entry. *)
Theorem reachable_states_are_consistent fmt es :
  index_agrees (run es (new_FlockCtrlDriver fmt))
  ∧ registry_wf (run es (new_FlockCtrlDriver fmt)).
Proof.
  split.
  - destruct (inbound_keeps_run es (new_FlockCtrlDriver fmt))
      as (_ & _ & _ & _ & Hagree).
    apply Hagree. intros medium addr uav Hin. simpl in Hin.
    by rewrite lookup_empty in Hin.
  - destruct (session_keeps_run es (new_FlockCtrlDriver fmt)) as (_ & _ & Hwf).
    apply Hwf. intros key uav Hin. simpl in Hin. by rewrite lookup_empty in Hin.
Qed.

End InboundFrame.

Lemma recorded_address_is_permanent_witness :
  ∃ u', uavs (@run example_externals
                [PacketReceived (FlockCtrlStatusPacket 1 None None None None 0)
                   ("wireless", "addrB");
                 RegistryForgets "01"]
                driver_with_shared_address) !! 0%nat = Some u'
        ∧ addresses u' !! "wireless" = Some "addrA".
Proof.
  destruct (@recorded_address_is_permanent example_externals
              [PacketReceived (FlockCtrlStatusPacket 1 None None None None 0)
                 ("wireless", "addrB");
               RegistryForgets "01"]
              driver_with_shared_address 0%nat
              (default (new_FlockCtrlUAV "01")
                 (uavs driver_with_shared_address !! 0%nat))
              "wireless" "addrA")
    as (u' & Hu' & _ & Ha' & _).
  - vm_compute. reflexivity.
  - reflexivity.
  - exists u'. split; [exact Hu'|exact Ha'].
Defined.

(** ** Status packets *)

Section StatusPackets.

Context `{Externals}.

Implicit Types (d : FlockCtrlDriver) (uav : nat) (u : FlockCtrlUAV).

Lemma get_or_create_uav_known n d formatted_id uav :
  _index_to_uav_id d !! n = Some formatted_id →
  uav_registry d !! formatted_id = Some uav →
  _get_or_create_uav n d = (Return uav, d).
Proof. intros Hn Hreg. by rewrite get_or_create_uav_unfold, Hn, Hreg. Qed.

(** X9: resolving a numeric identifier twice in a row gives the same
    vehicle object, and the second resolution changes nothing: no second
    vehicle is created and nothing is formatted again. *)
Theorem get_or_create_uav_is_idempotent n d :
  _get_or_create_uav n (_get_or_create_uav n d).2
  = ((_get_or_create_uav n d).1, (_get_or_create_uav n d).2).
Proof.
  pose proof (get_or_create_uav_caches n d) as Hcached.
  rewrite (get_or_create_uav_unfold n d) in *.
  destruct (uav_registry d !! _) as [uav|] eqn:Hreg; simpl in *.
  - eapply get_or_create_uav_known; [done|].
    by destruct (_index_to_uav_id d !! n).
  - eapply get_or_create_uav_known; [done|]. simpl. apply lookup_insert_eq.
Qed.

Lemma get_or_create_uav_frame n d :
  _uavs_by_source_address (_get_or_create_uav n d).2 = _uavs_by_source_address d
  ∧ uav_inf_requests (_get_or_create_uav n d).2 = uav_inf_requests d
  ∧ device_tree (_get_or_create_uav n d).2 = device_tree d
  ∧ log (_get_or_create_uav n d).2 = log d.
Proof.
  rewrite get_or_create_uav_unfold.
  by destruct (_index_to_uav_id d !! n), (uav_registry d !! _).
Qed.

(** X10: a status packet of a known vehicle from an address that
    differs from the one that the vehicle holds for the medium raises
    [AddressConflictError], and the packet is discarded as a whole: the
    status of the vehicle is not updated, no notification is requested,
    and the state of the driver is exactly what it was. *)
Theorem conflicting_status_packet_is_discarded n location vel hdg alg err
    medium addr d formatted_id uav u current :
  _index_to_uav_id d !! n = Some formatted_id →
  uav_registry d !! formatted_id = Some uav →
  uavs d !! uav = Some u →
  addresses u !! medium = Some current →
  current ≠ addr →
  handle_inbound_packet (FlockCtrlStatusPacket n location vel hdg alg err)
    (medium, addr) d
  = (Raise (AddressConflictError (id u) medium addr), d).
Proof.
  intros Hn Hreg Hu Hcur Hne.
  rewrite (handle_inbound_packet_cases
             (FlockCtrlStatusPacket n location vel hdg alg err)).
  unfold _handle_inbound_status_packet. unfold mbind at 1. unfold M_bind, bind.
  rewrite (get_or_create_uav_known n d formatted_id uav) by done.
  unfold mbind at 1. unfold M_bind, bind.
  rewrite check_or_record_uav_address_unfold, Hu.
  rewrite (check_or_record_address_conflict u medium addr current) by done.
  by rewrite list_insert_id, set_uavs_id.
Qed.

(** X11: a status packet whose address the vehicle accepts (it holds no
    address for the medium, or this one) is handled without an
    exception: the vehicle holds the address afterwards, the reverse
    index maps the source to the vehicle, exactly one notification is
    requested, for the identifier of the vehicle, and nothing is sent.
    The first status packet of a vehicle is always such a packet. *)
Theorem accepted_status_packet_is_recorded n location vel hdg alg err
    medium addr d uav d1 u :
  _get_or_create_uav n d = (Return uav, d1) →
  uavs d1 !! uav = Some u →
  (addresses u !! medium = None ∨ addresses u !! medium = Some addr) →
  ∃ d' u',
    handle_inbound_packet (FlockCtrlStatusPacket n location vel hdg alg err)
      (medium, addr) d
    = (Return tt, d')
    ∧ uavs d' !! uav = Some u'
    ∧ id u' = id u
    ∧ addresses u' = <[medium := addr]> (addresses u)
    ∧ _uavs_by_source_address d'
      = <[(medium, addr) := uav]> (_uavs_by_source_address d)
    ∧ uav_inf_requests d' = uav_inf_requests d ++ [[id u]]
    ∧ sent d' = sent d.
Proof.
  intros Hget Hu Haddr.
  pose proof (get_or_create_uav_frame n d) as (Hindex & Hreq & _).
  pose proof (inbound_keeps_get_or_create_uav n d) as (Hsent & _).
  rewrite Hget in Hindex, Hreq, Hsent. simpl in *.
  rewrite (handle_inbound_packet_cases
             (FlockCtrlStatusPacket n location vel hdg alg err)).
  unfold _handle_inbound_status_packet. unfold mbind at 1. unfold M_bind, bind.
  rewrite Hget. unfold mbind at 1. unfold M_bind, bind.
  rewrite check_or_record_uav_address_unfold, Hu.
  pose proof (lookup_lt_Some _ _ _ Hu) as Hlt.
  assert (∃ u1, check_or_record_address medium addr u = (Return tt, u1)
                ∧ id u1 = id u
                ∧ addresses u1 = <[medium := addr]> (addresses u))
    as (u1 & -> & Hid1 & Haddr1).
  { destruct Haddr as [Hnone|Hsame].
    - rewrite check_or_record_address_new by done. eauto.
    - rewrite check_or_record_address_same by done.
      eexists. split_and!; [done..|]. by rewrite insert_id. }
  unfold on_uav, get_uav, update_status, request_to_send_UAV_INF_message_for.
  unfold_M. simpl. rewrite list_lookup_insert_eq by done. simpl.
  rewrite list_lookup_insert_eq by (by rewrite length_insert). simpl.
  eexists _, _. split; [reflexivity|]. simpl.
  rewrite list_lookup_insert_eq by (by rewrite length_insert).
  split_and!; [reflexivity|done|done|by rewrite Hindex|by rewrite Hreq, Hid1|done].
Qed.

End StatusPackets.

Lemma conflicting_status_packet_is_discarded_witness :
  @handle_inbound_packet example_externals
    (FlockCtrlStatusPacket 1 (Some example_position) None None None 0)
    ("wireless", "addrB") driver_with_shared_address
  = (Raise (AddressConflictError "01" "wireless" "addrB"),
     driver_with_shared_address).
Proof.
  rewrite (@conflicting_status_packet_is_discarded example_externals 1
             (Some example_position) None None None 0 "wireless" "addrB"
             driver_with_shared_address "01" 0%nat
             (default (new_FlockCtrlUAV "01")
                (uavs driver_with_shared_address !! 0%nat)) "addrA").
  - reflexivity.
  - vm_compute. reflexivity.
  - vm_compute. reflexivity.
  - vm_compute. reflexivity.
  - vm_compute. reflexivity.
  - discriminate.
Defined.

Lemma accepted_status_packet_is_recorded_witness :
  ∃ d' u',
    @handle_inbound_packet example_externals
      (FlockCtrlStatusPacket 7 None None None None 0) ("wireless", "addrA")
      (new_FlockCtrlDriver "{0:02}")
    = (Return tt, d')
    ∧ uavs d' !! 0%nat = Some u'
    ∧ addresses u' = {[ "wireless" := "addrA" ]}
    ∧ uav_inf_requests d' = [["07"]].
Proof.
  destruct (@accepted_status_packet_is_recorded example_externals 7 None None
              None None 0 "wireless" "addrA" (new_FlockCtrlDriver "{0:02}") 0%nat
              (@_get_or_create_uav example_externals 7
                 (new_FlockCtrlDriver "{0:02}")).2
              (new_FlockCtrlUAV "07"))
    as (d' & u' & Hresult & Hu' & _ & Haddr & _ & Hreq & _).
  - vm_compute. reflexivity.
  - vm_compute. reflexivity.
  - left. reflexivity.
  - exists d', u'. split_and!; [exact Hresult|exact Hu'|exact Haddr|exact Hreq].
Defined.

(** ** Commands from their call to their result *)

Section CommandFlow.

Context `{Externals}.

Implicit Types (d : FlockCtrlDriver) (uav future : nat) (u : FlockCtrlUAV).

Lemma first_known_address_wireless u addr :
  addresses u !! "wireless" = Some addr →
  first_known_address supported_media u = Some ("wireless", addr).
Proof. intros Ha. unfold supported_media. simpl. by rewrite Ha. Qed.

(** A command for a vehicle without a pending command, from its call to
    its suspension. *)
Lemma send_command_to_uav_begin_free command uav u addr d :
  uavs d !! uav = Some u →
  addresses u !! "wireless" = Some addr →
  _pending_commands_by_uav d !! id u = None →
  _send_command_to_uav_begin command uav d
  = (Return (id u, length (futures d)),
     set_pending_commands_by_uav
       (set_futures
          (set_sent d
             (sent d ++ [(FlockCtrlCommandRequestPacket (utf8_encode command),
                          ("wireless", addr))]))
          (futures d ++ [FuturePending]))
       (<[id u := length (futures d)]> (_pending_commands_by_uav d))).
Proof.
  intros Hu Ha Hfree. unfold _send_command_to_uav_begin.
  unfold mbind at 1. unfold M_bind, bind.
  rewrite (send_command_to_uav_send_known command uav u "wireless" addr)
    by (done || by apply first_known_address_wireless).
  unfold _send_command_to_uav_enter, FutureMap_new_enter, get_uav. unfold_M.
  simpl. rewrite Hu. simpl. by rewrite Hfree.
Qed.

(** X12: a command and its response.  A vehicle has a wireless address
    that the reverse index maps back to it, and no command pending.  The
    coroutine [_send_command_to_uav] is suspended twice: in [await
    self._send_command_to_address], and then in [future.wait()].  When
    the assembled response arrives from the address of the vehicle while
    the coroutine is suspended in [future.wait()], and nothing else has
    happened since the call, the command returns the decoded response;
    one packet has been sent, to that address; no warning is logged; and
    the map of pending commands is again what it was.  When the response
    arrives earlier, while the coroutine is still suspended in the
    sending of its packet, the response is dropped as stale: one warning
    is logged, the future that the coroutine registers afterwards stays
    pending, and the coroutine stays suspended in [future.wait()]. *)
Theorem command_returns_its_response command body uav u addr d :
  uavs d !! uav = Some u →
  addresses u !! "wireless" = Some addr →
  _uavs_by_source_address d !! ("wireless", addr) = Some uav →
  _pending_commands_by_uav d !! id u = None →
  (∃ d',
     (_send_command_to_uav_send command uav;;
      waiting ← _send_command_to_uav_enter uav;
      _on_chunked_packet_assembled body ("wireless", addr);;
      _send_command_to_uav_resume waiting.1 waiting.2) d
     = (Return (Some (utf8_decode_replace body)), d')
     ∧ sent d'
       = sent d ++ [(FlockCtrlCommandRequestPacket (utf8_encode command),
                     ("wireless", addr))]
     ∧ _pending_commands_by_uav d' = _pending_commands_by_uav d
     ∧ log d' = log d)
  ∧ (∃ d',
       (_send_command_to_uav_send command uav;;
        _on_chunked_packet_assembled body ("wireless", addr);;
        waiting ← _send_command_to_uav_enter uav;
        _send_command_to_uav_resume waiting.1 waiting.2) d
       = (Return None, d')
       ∧ sent d'
         = sent d ++ [(FlockCtrlCommandRequestPacket (utf8_encode command),
                       ("wireless", addr))]
       ∧ log d' = log d ++ [warn_stale_command_response (id u)]
       ∧ _pending_commands_by_uav d' !! id u = Some (length (futures d))
       ∧ futures d' !! length (futures d) = Some FuturePending).
Proof.
  intros Hu Ha Hindex Hfree. split.
  - unfold mbind at 1. unfold M_bind, bind.
    rewrite (send_command_to_uav_send_known command uav u "wireless" addr)
      by (done || by apply first_known_address_wireless).
    unfold _send_command_to_uav_enter, FutureMap_new_enter,
      _on_chunked_packet_assembled, _send_command_to_uav_resume,
      FutureMap_getitem, Future_set_result, Future_wait, FutureMap_new_exit,
      get_uav.
    unfold_M. simpl. rewrite Hu. simpl. rewrite Hfree. simpl.
    rewrite Hindex. simpl. rewrite Hu. simpl.
    rewrite lookup_insert_eq. simpl.
    rewrite list_lookup_alter_eq, lookup_app_r, Nat.sub_diag by done. simpl.
    rewrite lookup_insert_eq. rewrite decide_True by done.
    eexists. split; [reflexivity|]. simpl. split_and!; [done| |done].
    by rewrite delete_insert_id.
  - unfold mbind at 1. unfold M_bind, bind.
    rewrite (send_command_to_uav_send_known command uav u "wireless" addr)
      by (done || by apply first_known_address_wireless).
    unfold _send_command_to_uav_enter, FutureMap_new_enter,
      _on_chunked_packet_assembled, _send_command_to_uav_resume,
      FutureMap_getitem, Future_set_result, Future_wait, FutureMap_new_exit,
      get_uav, warn.
    unfold_M. simpl. rewrite Hindex. simpl. rewrite Hu. simpl.
    rewrite Hfree. simpl. rewrite Hu. simpl. rewrite Hu. simpl.
    rewrite Hfree. simpl.
    rewrite lookup_app_r, Nat.sub_diag by done. simpl.
    eexists. split; [reflexivity|]. simpl. split_and!; [done|done| |].
    + by rewrite lookup_insert_eq.
    + by rewrite lookup_app_r, Nat.sub_diag.
Qed.

(** X13: in the default mode a second command preempts the first: its
    packet is sent, the future of the first command is cancelled and a
    new future takes its place in the map.  The first coroutine then
    returns ["Execution cancelled"], and when it leaves the scope of its
    future it does not remove the entry of the second command, which
    stays pending. *)
Theorem second_command_preempts_first command uav u addr old d :
  uavs d !! uav = Some u →
  addresses u !! "wireless" = Some addr →
  allow_multiple_commands_per_uav d = true →
  _pending_commands_by_uav d !! id u = Some old →
  futures d !! old = Some FuturePending →
  ∃ d1 d2,
    _send_command_to_uav_begin command uav d
    = (Return (id u, length (futures d)), d1)
    ∧ sent d1
      = sent d ++ [(FlockCtrlCommandRequestPacket (utf8_encode command),
                    ("wireless", addr))]
    ∧ _send_command_to_uav_resume (id u) old d1
      = (Return (Some "Execution cancelled"), d2)
    ∧ _pending_commands_by_uav d2 !! id u = Some (length (futures d))
    ∧ futures d2 !! length (futures d) = Some FuturePending.
Proof.
  intros Hu Ha Hlenient Hold Hpending.
  pose proof (lookup_lt_Some _ _ _ Hpending) as Hlt.
  unfold _send_command_to_uav_begin.
  unfold mbind at 1. unfold M_bind, bind.
  rewrite (send_command_to_uav_send_known command uav u "wireless" addr)
    by (done || by apply first_known_address_wireless).
  unfold _send_command_to_uav_enter, FutureMap_new_enter, Future_cancel, get_uav,
    _send_command_to_uav_resume, Future_wait, FutureMap_new_exit.
  unfold_M. simpl. rewrite Hu. simpl. rewrite Hlenient, Hold. simpl.
  rewrite !length_alter. eexists _, _. split; [reflexivity|]. simpl.
  split; [done|].
  rewrite lookup_app_l by (by rewrite length_alter).
  rewrite list_lookup_alter_eq, Hpending. simpl.
  rewrite lookup_insert_eq.
  rewrite decide_False by (intros [= Heq]; lia).
  split; [reflexivity|]. simpl. rewrite lookup_insert_eq.
  split; [done|].
  by rewrite lookup_app_r, length_alter, Nat.sub_diag by (by rewrite length_alter).
Qed.

Lemma handle_data_packet_addresses data uav u d :
  uavs d !! uav = Some u →
  ∃ u', uavs (handle_data_packet data uav d).2 !! uav = Some u'
        ∧ addresses u' = addresses u.
Proof.
  intros Hu. pose proof (lookup_lt_Some _ _ _ Hu) as Hlt.
  unfold handle_data_packet. rewrite Hu.
  destruct data as [pos itow dose raw_counts|itow features|].
  - pose proof (update_geiger_counter_addresses u pos itow dose raw_counts
                  (device_tree d)) as Haddr.
    destruct (update_geiger_counter u pos itow dose raw_counts (device_tree d))
      as [[o u'] mutator]. simpl in *.
    exists u'. by rewrite list_lookup_insert_eq.
  - destruct (update_detected_features u itow features (device_tree d)).
    simpl. eauto.
  - simpl. eauto.
Qed.

Lemma handle_data_packet_registry data uav d :
  uav_registry (handle_data_packet data uav d).2 = uav_registry d.
Proof.
  unfold handle_data_packet. destruct (uavs d !! uav) as [u|]; [|done].
  destruct data as [pos itow dose raw_counts|itow features|]; simpl.
  - by destruct (update_geiger_counter u pos itow dose raw_counts (device_tree d))
      as [[??]?].
  - by destruct (update_detected_features u itow features (device_tree d)).
  - done.
Qed.

(** X14: algorithm data packets teach no address.  When the first
    packet of a vehicle is an algorithm data packet, the vehicle is
    created and registered, whatever the algorithm and its data are,
    but it has no address: a command for it raises [ValueError], and
    nothing is sent, until a status packet arrives. *)
Theorem vehicle_of_algorithm_data_has_no_address n alg src command d :
  uav_registry d
    !! match _index_to_uav_id d !! n with
       | Some cached => cached
       | None => make_valid_uav_id (format (id_format d) n)
       end = None →
  ∃ formatted_id d',
    (handle_inbound_packet (FlockCtrlAlgorithmDataPacket n alg) src d).2 = d'
    ∧ uav_registry d' !! formatted_id = Some (length (uavs d))
    ∧ id <$> uavs d' !! length (uavs d) = Some formatted_id
    ∧ _send_command_to_uav_begin command (length (uavs d)) d'
      = (Raise (ValueError "Address of UAV is not known yet"), d').
Proof.
  intros Hnew.
  rewrite (handle_inbound_packet_cases (FlockCtrlAlgorithmDataPacket n alg)).
  unfold _handle_inbound_algorithm_data_packet. unfold_M.
  rewrite get_or_create_uav_unfold, Hnew.
  set (formatted_id := match _index_to_uav_id d !! n with
                       | Some cached => cached
                       | None => make_valid_uav_id (format (id_format d) n)
                       end) in *.
  set (d1 := set_uav_registry _ _).
  assert (uavs d1 !! length (uavs d) = Some (new_FlockCtrlUAV formatted_id))
    as Hu by (simpl; by rewrite lookup_app_r, Nat.sub_diag).
  assert (uav_registry d1 !! formatted_id = Some (length (uavs d)))
    as Hreg by (simpl; apply lookup_insert_eq).
  assert (∃ d', (match alg with
                 | Some data => handle_data_packet data (length (uavs d))
                 | None => λ s, (Return tt, s)
                 end d1).2 = d'
                ∧ uav_registry d' = uav_registry d1
                ∧ ∃ u', uavs d' !! length (uavs d) = Some u'
                        ∧ id u' = formatted_id ∧ addresses u' = ∅)
    as (d' & Hd' & Hreg' & u' & Hu' & Hid' & Haddr').
  { destruct alg as [data|]; [|by eauto 10].
    eexists. split; [done|].
    destruct (handle_data_packet_addresses data _ _ d1 Hu) as (u' & Hu' & Ha').
    destruct (keeps_handle_data_packet data (length (uavs d)) d1)
      as (_ & Hids & _).
    destruct (Hids _ _ Hu) as (u'' & Hu'' & Hid''). split.
    - apply handle_data_packet_registry.
    - exists u'. simpl in Hid''. split_and!; [done|congruence|done]. }
  exists formatted_id, d'. split_and!.
  - rewrite <- Hd'.
    by destruct (match alg with
                 | Some data => handle_data_packet data (length (uavs d))
                 | None => λ s, (Return tt, s)
                 end d1) as [[[]|?] ?].
  - by rewrite Hreg'.
  - by rewrite Hu', <- Hid'.
  - unfold _send_command_to_uav_begin, _send_command_to_uav_send. unfold_M.
    rewrite (on_uav_preferred_address _ u') by done.
    rewrite first_known_address_none; [done|].
    intros medium _. rewrite Haddr'. apply lookup_empty.
Qed.

(** X15: [validate_command] accepts a command exactly when it has no
    keyword arguments and all its positional arguments are strings.  An
    accepted command is sent as its words joined by single spaces, so
    [handle_generic_command] does not raise [TypeError] on it; with an
    argument that is not a string it raises [TypeError] before anything
    is sent. *)
Theorem validated_command_is_joined_and_sent uav command args kwds d :
  (validate_command command args kwds = None
   ↔ kwds = ∅ ∧ ∃ words, args = ArgStr <$> words)
  ∧ (∀ words, args = ArgStr <$> words →
     handle_generic_command uav command args kwds d
     = _send_command_to_uav_begin (String.concat " " (command :: words)) uav d)
  ∧ ((∃ v, ArgOther v ∈ args) →
     handle_generic_command uav command args kwds d = (Raise TypeError, d)).
Proof.
  assert (∀ words, str_items (ArgStr <$> words) = Some words) as Hitems.
  { induction words as [|w words IH]; [done|].
    rewrite fmap_cons. cbn [str_items]. by rewrite IH. }
  assert (existsb (λ arg, negb (is_str arg)) args = false
          ↔ ∃ words, args = ArgStr <$> words) as Hall.
  { induction args as [|[s|v] args IH]; simpl.
    - split; [by exists []|done].
    - rewrite IH. split.
      + intros [words ->]. by exists (s :: words).
      + intros [[|w words] [=]]. eauto.
    - split; [done|]. by intros [[|w words] [=]]. }
  split_and!.
  - unfold validate_command. case_bool_decide as Hkwds.
    + split; [done|]. by intros [? _].
    + destruct (existsb _ args) eqn:Hex.
      * case_bool_decide as Hargs; simpl.
        -- split; [done|]. intros [_ Hwords%Hall]. congruence.
        -- subst args. done.
      * rewrite andb_false_r. split; [|done]. intros _. split; [done|].
        by apply Hall.
  - intros words ->. unfold handle_generic_command. by rewrite Hitems.
  - intros [v Hin]. unfold handle_generic_command. clear Hall.
    assert (str_items args = None) as ->; [|done].
    induction args as [|[s|v'] args IH]; [by apply elem_of_nil in Hin| |done].
    apply elem_of_cons in Hin as [[=]|Hin]. cbn [str_items].
    by rewrite (IH Hin).
Qed.

End CommandFlow.

Lemma command_returns_its_response_witness :
  ((@_send_command_to_uav_send example_externals "land" 0;;
    waiting ← _send_command_to_uav_enter 0;
    @_on_chunked_packet_assembled example_externals (list_byte_of_string "ok")
      ("wireless", "addrA");;
    _send_command_to_uav_resume waiting.1 waiting.2) strict_driver).1
  = Return (Some "ok")
  ∧ ∃ d',
      (@_send_command_to_uav_send example_externals "land" 0;;
       @_on_chunked_packet_assembled example_externals (list_byte_of_string "ok")
         ("wireless", "addrA");;
       waiting ← _send_command_to_uav_enter 0;
       _send_command_to_uav_resume waiting.1 waiting.2) strict_driver
      = (Return None, d')
      ∧ log d' = [warn_stale_command_response "07"]
      ∧ _pending_commands_by_uav d' !! "07" = Some 0%nat
      ∧ futures d' !! 0%nat = Some FuturePending.
Proof.
  destruct (@command_returns_its_response example_externals "land"
              (list_byte_of_string "ok") 0%nat
              (default (new_FlockCtrlUAV "07") (uavs strict_driver !! 0%nat))
              "addrA" strict_driver)
    as [(d1 & Hresult & _) (d2 & Hrace & _ & Hlog & Hpending & Hfuture)].
  - vm_compute. reflexivity.
  - reflexivity.
  - reflexivity.
  - reflexivity.
  - split; [by rewrite Hresult|].
    exists d2. split; [exact Hrace|]. split; [exact Hlog|].
    split; [exact Hpending|exact Hfuture].
Defined.

Lemma second_command_preempts_first_witness :
  ∃ d1 d2,
    @_send_command_to_uav_begin example_externals "rth" 0 lenient_driver_busy
    = (Return ("07", 1%nat), d1)
    ∧ _send_command_to_uav_resume "07" 0 d1
      = (Return (Some "Execution cancelled"), d2)
    ∧ _pending_commands_by_uav d2 !! "07" = Some 1%nat.
Proof.
  destruct (@second_command_preempts_first example_externals "rth" 0%nat
              (default (new_FlockCtrlUAV "07") (uavs lenient_driver_busy !! 0%nat))
              "addrA" 0%nat lenient_driver_busy)
    as (d1 & d2 & Hbegin & _ & Hresume & Hpending & _).
  - vm_compute. reflexivity.
  - reflexivity.
  - reflexivity.
  - reflexivity.
  - reflexivity.
  - exists d1, d2. split_and!; [exact Hbegin|exact Hresume|exact Hpending].
Defined.

Lemma vehicle_of_algorithm_data_has_no_address_witness :
  ∃ d',
    (@handle_inbound_packet example_externals
       (FlockCtrlAlgorithmDataPacket 7
          (Some (GeigerCounterData None 1000 None (Some [100]))))
       ("wireless", "addrA") (new_FlockCtrlDriver "{0:02}")).2 = d'
    ∧ @_send_command_to_uav_begin example_externals "land" 0 d'
      = (Raise (ValueError "Address of UAV is not known yet"), d').
Proof.
  destruct (@vehicle_of_algorithm_data_has_no_address example_externals 7
              (Some (GeigerCounterData None 1000 None (Some [100])))
              ("wireless", "addrA") "land" (new_FlockCtrlDriver "{0:02}"))
    as (formatted_id & d' & Hd' & _ & _ & Hcommand).
  - reflexivity.
  - exists d'. split; [exact Hd'|exact Hcommand].
Defined.

Lemma validated_command_is_joined_and_sent_witness :
  validate_command "go" [ArgStr "N47.5"; ArgStr "E19.0"] ∅ = None
  ∧ @handle_generic_command example_externals 0 "go"
      [ArgStr "N47.5"; ArgStr "E19.0"] ∅ strict_driver
    = @_send_command_to_uav_begin example_externals "go N47.5 E19.0" 0
        strict_driver
  ∧ @handle_generic_command example_externals 0 "go"
      [ArgStr "N47.5"; ArgOther (VInt 19)] ∅ strict_driver
    = (Raise TypeError, strict_driver).
Proof.
  split_and!.
  - destruct (@validated_command_is_joined_and_sent example_externals 0%nat "go"
                [ArgStr "N47.5"; ArgStr "E19.0"] ∅ strict_driver)
      as ([_ Haccept] & _).
    apply Haccept. split; [reflexivity|]. by exists ["N47.5"; "E19.0"].
  - destruct (@validated_command_is_joined_and_sent example_externals 0%nat "go"
                [ArgStr "N47.5"; ArgStr "E19.0"] ∅ strict_driver)
      as (_ & Hsend & _).
    apply (Hsend ["N47.5"; "E19.0"]). reflexivity.
  - destruct (@validated_command_is_joined_and_sent example_externals 0%nat "go"
                [ArgStr "N47.5"; ArgOther (VInt 19)] ∅ strict_driver)
      as (_ & _ & Hraise).
    apply Hraise. exists (VInt 19). set_solver.
Defined.

(** ** The registry of object types *)

Section ObjectTypeRegistry.

Context {Cls : Type} (repr : string → string).

Implicit Types (type : string) (cls : Cls) (reg : gmap string Cls).

(** X16: registering a type that is free makes [resolve_type] return
    the class for it and changes the answer for no other type;
    registering a type that is taken raises [ValueError] and leaves the
    class that was registered first.  The class method
    [ModelObject.unregister] does the same as [register]: it registers
    the class.  The decorator that [register] returns without a class
    does the same too, and returns the class that it is applied to. *)
Theorem first_registration_of_a_type_wins type cls reg :
  match reg !! type with
  | None =>
      ∃ reg',
        ObjectTypes.register repr type cls reg = (Return tt, reg')
        ∧ ObjectTypes.resolve_type type reg' = (Return (Some cls), reg')
        ∧ ∀ other, other ≠ type →
            (ObjectTypes.resolve_type other reg').1
            = (ObjectTypes.resolve_type other reg).1
  | Some first =>
      ObjectTypes.register repr type cls reg
      = (Raise (ValueError (repr type +:+ " is already registered as a type")),
         reg)
      ∧ ObjectTypes.resolve_type type reg = (Return (Some first), reg)
  end
  ∧ ObjectTypes.ModelObject_unregister repr cls type reg
    = ObjectTypes.register repr type cls reg
  ∧ ObjectTypes.register_decorator repr type cls reg
    = (outcome_map (λ _, cls) (ObjectTypes.register repr type cls reg).1,
       (ObjectTypes.register repr type cls reg).2).
Proof.
  split; [|split; [done|]].
  2: { unfold ObjectTypes.register_decorator. unfold_M.
       by destruct (ObjectTypes.register repr type cls reg) as [[[]|e] reg']. }
  unfold ObjectTypes.register, ObjectTypes.resolve_type, gets.
  destruct (reg !! type) as [first|] eqn:Htype.
  - by rewrite bool_decide_true by eauto.
  - rewrite bool_decide_false by (by intros [? ?]).
    eexists. split; [done|]. simpl. rewrite lookup_insert_eq. split; [done|].
    intros other Hne. by rewrite lookup_insert_ne.
Qed.

(** X17: [register] and [unregister] undo each other: registering a
    free type and unregistering it gives back the registry as it was,
    and so does unregistering a type and registering its class again;
    unregistering a type that is not registered raises [ValueError] and
    changes nothing. *)
Theorem register_and_unregister_are_inverse type cls reg :
  (reg !! type = None →
   (ObjectTypes.register repr type cls;; ObjectTypes.unregister repr type) reg
   = (Return tt, reg)
   ∧ ObjectTypes.unregister repr type reg
     = (Raise (ValueError (repr type +:+ " is not registered as a type")), reg))
  ∧ (reg !! type = Some cls →
     (ObjectTypes.unregister repr type;; ObjectTypes.register repr type cls) reg
     = (Return tt, reg)).
Proof.
  unfold ObjectTypes.register, ObjectTypes.unregister. unfold_M. split.
  - intros Hfree.
    rewrite (bool_decide_false (is_Some (reg !! type)))
      by (rewrite Hfree; by intros [? ?]).
    simpl. rewrite lookup_insert_eq, bool_decide_true by eauto. simpl.
    by rewrite delete_insert_id.
  - intros Htaken.
    rewrite (bool_decide_true (is_Some (reg !! type))) by eauto. simpl.
    rewrite lookup_delete_eq, bool_decide_false by (by intros [? ?]).
    by rewrite insert_delete_id.
Qed.

(** X18: [registered] registers a free type for the time of the body
    and for no longer: the body runs with the type registered; when the
    body keeps the entry of the type, its outcome, value or exception, is
    the outcome of the whole, and the type is free again afterwards.  On
    a type that is taken, [registered] raises [ValueError], does not run
    the body and changes nothing. *)
Theorem registered_lasts_for_the_body {A} type cls (body : M (gmap string Cls) A)
    reg :
  (reg !! type = None →
   (∀ r, (body r).2 !! type = r !! type) →
   ObjectTypes.registered repr type cls body reg
   = ((body (<[type := cls]> reg)).1, delete type (body (<[type := cls]> reg)).2))
  ∧ (is_Some (reg !! type) →
     ObjectTypes.registered repr type cls body reg
     = (Raise (ValueError (repr type +:+ " is already registered as a type")),
        reg)).
Proof.
  unfold ObjectTypes.registered, ObjectTypes.register, ObjectTypes.unregister,
    try_finally.
  unfold_M. split.
  - intros Hfree Hbody.
    rewrite (bool_decide_false (is_Some (reg !! type)))
      by (rewrite Hfree; by intros [? ?]).
    specialize (Hbody (<[type := cls]> reg)). rewrite lookup_insert_eq in Hbody.
    destruct (body (<[type := cls]> reg)) as [o r]. simpl in *.
    by rewrite bool_decide_true by eauto.
  - intros Htaken. by rewrite bool_decide_true.
Qed.

End ObjectTypeRegistry.

Lemma first_registration_of_a_type_wins_witness :
  ObjectTypes.register (λ s, "'" +:+ s +:+ "'") "beacon" "OtherBeacon"
    ({[ "beacon" := "Beacon" ]} : gmap string string)
  = (Raise (ValueError "'beacon' is already registered as a type"),
     {[ "beacon" := "Beacon" ]}).
Proof.
  destruct (first_registration_of_a_type_wins (λ s, "'" +:+ s +:+ "'") "beacon"
              "OtherBeacon" ({[ "beacon" := "Beacon" ]} : gmap string string))
    as ([Hraise _] & _).
  exact Hraise.
Defined.

Lemma register_and_unregister_are_inverse_witness :
  (ObjectTypes.register (λ s, "'" +:+ s +:+ "'") "uav" "FlockCtrlUAV";;
   ObjectTypes.unregister (λ s, "'" +:+ s +:+ "'") "uav")
    ({[ "beacon" := "Beacon" ]} : gmap string string)
  = (Return tt, {[ "beacon" := "Beacon" ]})
  ∧ (ObjectTypes.unregister (λ s, "'" +:+ s +:+ "'") "beacon";;
     ObjectTypes.register (λ s, "'" +:+ s +:+ "'") "beacon" "Beacon")
      ({[ "beacon" := "Beacon" ]} : gmap string string)
    = (Return tt, {[ "beacon" := "Beacon" ]}).
Proof.
  split.
  - destruct (register_and_unregister_are_inverse (λ s, "'" +:+ s +:+ "'") "uav"
                "FlockCtrlUAV" ({[ "beacon" := "Beacon" ]} : gmap string string))
      as [Hfree _].
    apply Hfree. reflexivity.
  - destruct (register_and_unregister_are_inverse (λ s, "'" +:+ s +:+ "'")
                "beacon" "Beacon"
                ({[ "beacon" := "Beacon" ]} : gmap string string))
      as [_ Htaken].
    apply Htaken. reflexivity.
Defined.

Lemma registered_lasts_for_the_body_witness :
  ObjectTypes.registered (λ s, "'" +:+ s +:+ "'") "uav" "FlockCtrlUAV"
    (ObjectTypes.resolve_type "uav")
    ({[ "beacon" := "Beacon" ]} : gmap string string)
  = (Return (Some "FlockCtrlUAV"), {[ "beacon" := "Beacon" ]}).
Proof.
  destruct (registered_lasts_for_the_body (λ s, "'" +:+ s +:+ "'") "uav"
              "FlockCtrlUAV" (ObjectTypes.resolve_type "uav")
              ({[ "beacon" := "Beacon" ]} : gmap string string)) as [Hfree _].
  rewrite Hfree.
  - vm_compute. reflexivity.
  - reflexivity.
  - intros r. reflexivity.
Defined.

(** ** The registry of channel types *)

Section ChannelTypeRegistry.

Context {Factory Broadcaster : Type}.
Context (contains : @ChannelTypes.ChannelTypeRegistry Factory Broadcaster
                    → string → bool).

(** [channel_id in self] tells whether the identifier has an entry. *)
Hypothesis contains_entries :
  ∀ self channel_id,
    contains self channel_id
    = bool_decide (is_Some (ChannelTypes._entries self !! channel_id)).

Implicit Types (self : @ChannelTypes.ChannelTypeRegistry Factory Broadcaster).

Lemma perform_counts self c :
  (ChannelTypes.num_entries (ChannelTypes.perform contains self c)
   + ChannelTypes.reported ChannelTypes.is_removed
       (ChannelTypes.perform contains self c)
   + ChannelTypes.reported ChannelTypes.is_added self
   = ChannelTypes.num_entries self
     + ChannelTypes.reported ChannelTypes.is_removed self
     + ChannelTypes.reported ChannelTypes.is_added
         (ChannelTypes.perform contains self c))%nat
  ∧ (ChannelTypes.reported ChannelTypes.is_count_changed
       (ChannelTypes.perform contains self c)
     + ChannelTypes.reported ChannelTypes.is_added self
     + ChannelTypes.reported ChannelTypes.is_removed self
     = ChannelTypes.reported ChannelTypes.is_count_changed self
       + ChannelTypes.reported ChannelTypes.is_added
           (ChannelTypes.perform contains self c)
       + ChannelTypes.reported ChannelTypes.is_removed
           (ChannelTypes.perform contains self c))%nat.
Proof.
  destruct c as [channel_id f b|channel_id]; simpl.
  - unfold ChannelTypes.add. rewrite contains_entries.
    case_bool_decide as Hin; simpl; [lia|].
    assert (ChannelTypes._entries self !! channel_id = None) as Hnone
      by (by apply eq_None_not_Some).
    unfold ChannelTypes.num_entries, ChannelTypes.reported. simpl.
    rewrite map_size_insert_None by done.
    rewrite !filter_app, !length_app. simpl. lia.
  - unfold ChannelTypes.remove.
    destruct (ChannelTypes._entries self !! channel_id) as [descriptor|] eqn:Hin;
      simpl; [|lia].
    unfold ChannelTypes.num_entries, ChannelTypes.reported. simpl.
    rewrite map_size_delete_Some by eauto.
    assert (size (ChannelTypes._entries self) ≠ 0%nat) as Hsize.
    { intros Hempty%map_size_empty_inv. by rewrite Hempty, lookup_empty in Hin. }
    rewrite !filter_app, !length_app. simpl. lia.
Qed.

(** X19: through any sequence of calls of [add] and [remove], the
    number of entries changes by the number of [added] signals less the
    number of [removed] signals sent, and [count_changed] is sent once
    with each of them and never otherwise. *)
Theorem channel_type_count_follows_signals calls self :
  (ChannelTypes.num_entries (ChannelTypes.perform_all contains calls self)
   + ChannelTypes.reported ChannelTypes.is_removed
       (ChannelTypes.perform_all contains calls self)
   + ChannelTypes.reported ChannelTypes.is_added self
   = ChannelTypes.num_entries self
     + ChannelTypes.reported ChannelTypes.is_removed self
     + ChannelTypes.reported ChannelTypes.is_added
         (ChannelTypes.perform_all contains calls self))%nat
  ∧ (ChannelTypes.reported ChannelTypes.is_count_changed
       (ChannelTypes.perform_all contains calls self)
     + ChannelTypes.reported ChannelTypes.is_added self
     + ChannelTypes.reported ChannelTypes.is_removed self
     = ChannelTypes.reported ChannelTypes.is_count_changed self
       + ChannelTypes.reported ChannelTypes.is_added
           (ChannelTypes.perform_all contains calls self)
       + ChannelTypes.reported ChannelTypes.is_removed
           (ChannelTypes.perform_all contains calls self))%nat.
Proof.
  revert self. induction calls as [|c calls IH]; intros self; [done|].
  unfold ChannelTypes.perform_all in *. simpl.
  destruct (perform_counts self c) as [Hn Hc].
  destruct (IH (ChannelTypes.perform contains self c)) as [Hn' Hc']. lia.
Qed.

(** X20: [add] on an identifier that is taken returns without an
    exception and changes nothing: the descriptor registered first
    stays, and no signal is sent.  [remove] on an identifier that is
    free changes nothing either.  Adding a free identifier and removing
    it gives back the entries as they were, and reports, in this order,
    the registration, [added], [count_changed], the deregistration,
    [count_changed] and [removed]. *)
Theorem taken_channel_type_is_left_alone channel_id f b self :
  (is_Some (ChannelTypes._entries self !! channel_id) →
   ChannelTypes.add contains channel_id f b self = (Return tt, self))
  ∧ (ChannelTypes._entries self !! channel_id = None →
     ChannelTypes.remove channel_id self = (Return tt, self)
     ∧ (ChannelTypes.add contains channel_id f b;;
        ChannelTypes.remove channel_id) self
       = (Return tt,
          {| ChannelTypes._entries := ChannelTypes._entries self;
             ChannelTypes.events :=
               ChannelTypes.events self
               ++ [ChannelTypes.info "Channel registered" channel_id;
                   ChannelTypes.added channel_id
                     {| ChannelTypes.id := channel_id;
                        ChannelTypes.factory := f;
                        ChannelTypes.broadcaster := b |};
                   ChannelTypes.count_changed;
                   ChannelTypes.info "Channel deregistered" channel_id;
                   ChannelTypes.count_changed;
                   ChannelTypes.removed channel_id
                     {| ChannelTypes.id := channel_id;
                        ChannelTypes.factory := f;
                        ChannelTypes.broadcaster := b |}] |})).
Proof.
  unfold ChannelTypes.add, ChannelTypes.remove. unfold_M.
  rewrite contains_entries. split.
  - intros Htaken. by rewrite bool_decide_true.
  - intros Hfree. rewrite Hfree.
    rewrite bool_decide_false by (by intros [? ?]). simpl.
    rewrite lookup_insert_eq. split; [done|].
    by rewrite delete_insert_id, <- app_assoc.
Qed.

End ChannelTypeRegistry.

Lemma channel_type_count_follows_signals_witness :
  ChannelTypes.num_entries
    (ChannelTypes.perform_all
       (λ self channel_id,
          bool_decide (is_Some (ChannelTypes._entries self !! channel_id)))
       [ChannelTypes.call_add "tcp" "TCPChannel" None;
        ChannelTypes.call_add "tcp" "OtherChannel" (Some "broadcast");
        ChannelTypes.call_add "udp" "UDPChannel" None;
        ChannelTypes.call_remove "sio";
        ChannelTypes.call_remove "tcp"]
       {| ChannelTypes._entries := (∅ : gmap string _);
          ChannelTypes.events := [] |})
  = 1%nat.
Proof.
  destruct (channel_type_count_follows_signals
              (Factory := string) (Broadcaster := string)
              (λ self channel_id,
                 bool_decide (is_Some (ChannelTypes._entries self !! channel_id)))
              (λ _ _, eq_refl)
              [ChannelTypes.call_add "tcp" "TCPChannel" None;
               ChannelTypes.call_add "tcp" "OtherChannel" (Some "broadcast");
               ChannelTypes.call_add "udp" "UDPChannel" None;
               ChannelTypes.call_remove "sio";
               ChannelTypes.call_remove "tcp"]
              {| ChannelTypes._entries := ∅; ChannelTypes.events := [] |})
    as [Hentries _].
  vm_compute in Hentries. vm_compute. lia.
Defined.

Lemma taken_channel_type_is_left_alone_witness :
  ChannelTypes.add
    (λ self channel_id,
       bool_decide (is_Some (ChannelTypes._entries self !! channel_id)))
    "tcp" "OtherChannel" (Some "broadcast")
    {| ChannelTypes._entries :=
         {[ "tcp" := {| ChannelTypes.id := "tcp";
                        ChannelTypes.factory := "TCPChannel";
                        ChannelTypes.broadcaster := None |} ]};
       ChannelTypes.events := [] |}
  = (Return tt,
     {| ChannelTypes._entries :=
          {[ "tcp" := {| ChannelTypes.id := "tcp";
                         ChannelTypes.factory := "TCPChannel";
                         ChannelTypes.broadcaster := None |} ]};
        ChannelTypes.events := [] |}).
Proof.
  destruct (taken_channel_type_is_left_alone
              (Factory := string) (Broadcaster := string)
              (λ self channel_id,
                 bool_decide (is_Some (ChannelTypes._entries self !! channel_id)))
              (λ _ _, eq_refl) "tcp" "OtherChannel" (Some "broadcast")
              {| ChannelTypes._entries :=
                   {[ "tcp" := {| ChannelTypes.id := "tcp";
                                  ChannelTypes.factory := "TCPChannel";
                                  ChannelTypes.broadcaster := None |} ]};
                 ChannelTypes.events := [] |}) as [Htaken _].
  apply Htaken. vm_compute. eauto.
Defined.
